(** * CSSLint engine of Stylus (js/csslint/csslint.js): Reporter, embedded
    directives, verify, and the floats rule, as a shallow embedding.

    Texts are sequences of 8-bit code units (the Latin-1 range of the
    UTF-16 code units of a JavaScript string).  JavaScript objects whose
    key order is observable (the ruleset, iterated by Object.entries) are
    association lists in insertion order; objects used purely as maps
    (the allow table, the heap of ruleset objects) are stdpp gmaps. *)

From Stdlib Require Import ZArith Ascii String List Lia DecimalString.
From stdpp Require Import base strings gmap list sorting.
Import ListNotations.
Local Open Scope string_scope.
Local Open Scope Z_scope.

(** ** ECMAScript string primitives *)

Module JS.

Definition code (c : ascii) : Z := Z.of_N (N_of_ascii c).
Definition chr (z : Z) : ascii := ascii_of_N (Z.to_N z).

(** White space of [\s] and of [String.prototype.trim] below U+0100. *)
Definition isSpace (c : ascii) : bool :=
  let n := code c in
  ((9 <=? n) && (n <=? 13)) || (n =? 32) || (n =? 160).

(** [\w] is [A-Za-z0-9_]. *)
Definition isWord (c : ascii) : bool :=
  let n := code c in
  ((48 <=? n) && (n <=? 57)) || ((65 <=? n) && (n <=? 90)) ||
  ((97 <=? n) && (n <=? 122)) || (n =? 95).

Definition lowerChar (c : ascii) : ascii :=
  let n := code c in
  if ((65 <=? n) && (n <=? 90)) ||
     ((192 <=? n) && (n <=? 222) && negb (n =? 215))
  then chr (n + 32) else c.

Fixpoint toLowerCase (s : string) : string :=
  match s with
  | EmptyString => EmptyString
  | String c r => String (lowerChar c) (toLowerCase r)
  end.

Definition len (s : string) : Z := Z.of_nat (String.length s).

Fixpoint drop (n : nat) (s : string) : string :=
  match n, s with
  | S k, String _ r => drop k r
  | _, _ => s
  end.

Fixpoint take (n : nat) (s : string) : string :=
  match n, s with
  | S k, String c r => String c (take k r)
  | _, _ => EmptyString
  end.

(** First index [>= pos] at which [pat] occurs in the suffix [s] that
    starts at absolute index [pos]; [-1] when there is none. *)
Fixpoint findFirst (pat s : string) (pos : Z) : Z :=
  if String.prefix pat s then pos
  else match s with
       | EmptyString => -1
       | String _ r => findFirst pat r (pos + 1)
       end.

(** [s.indexOf(pat, from)]: the start is clamped to [0, s.length]. *)
Definition indexOf (s pat : string) (from : Z) : Z :=
  let k := Z.min (Z.max from 0) (len s) in
  findFirst pat (drop (Z.to_nat k) s) k.

Fixpoint findLast (pat s : string) (pos limit acc : Z) : Z :=
  let acc' := if (pos <=? limit) && String.prefix pat s then pos else acc in
  match s with
  | EmptyString => acc'
  | String _ r => findLast pat r (pos + 1) limit acc'
  end.

(** [s.lastIndexOf(pat, from)]: the last occurrence starting at an index
    [<= max(from, 0)]; [-1] when there is none. *)
Definition lastIndexOf (s pat : string) (from : Z) : Z :=
  findLast pat s 0 (Z.max from 0) (-1).

(** [s.slice(i)]: a negative [i] counts from the end. *)
Definition slice (s : string) (i : Z) : string :=
  let k := if i <? 0 then Z.max (len s + i) 0 else Z.min i (len s) in
  drop (Z.to_nat k) s.

Definition includes (s pat : string) : bool := 0 <=? indexOf s pat 0.

(** [s.split(sep)] for a one-character separator. *)
Fixpoint split (sep : ascii) (s : string) : list string :=
  match s with
  | EmptyString => [EmptyString]
  | String c r =>
      if Ascii.eqb c sep then EmptyString :: split sep r
      else match split sep r with
           | h :: t => String c h :: t
           | [] => [String c EmptyString]
           end
  end.

(** [s.split(sep, limit)]. *)
Definition splitLimit (sep : ascii) (limit : nat) (s : string) : list string :=
  firstn limit (split sep s).

Fixpoint trimStart (s : string) : string :=
  match s with
  | String c r => if isSpace c then trimStart r else s
  | EmptyString => EmptyString
  end.

Fixpoint trimEnd (s : string) : string :=
  match s with
  | EmptyString => EmptyString
  | String c r =>
      match trimEnd r with
      | EmptyString => if isSpace c then EmptyString else String c EmptyString
      | r' => String c r'
      end
  end.

Definition trim (s : string) : string := trimEnd (trimStart s).

(** Longest prefix of white space: its length and the rest. *)
Fixpoint spanSpace (s : string) : nat * string :=
  match s with
  | String c r =>
      if isSpace c then let '(n, t) := spanSpace r in (S n, t) else (O, s)
  | EmptyString => (O, EmptyString)
  end.

(** Template-literal conversion of a non-negative integer. *)
Definition numToString (n : Z) : string :=
  NilEmpty.string_of_int (Z.to_int n).

(** Names every ordinary object inherits from [Object.prototype]; the
    [in] operator and a property read see them. *)
Definition protoKeys : list string :=
  [ "constructor"; "__defineGetter__"; "__defineSetter__"; "hasOwnProperty";
    "__lookupGetter__"; "__lookupSetter__"; "isPrototypeOf";
    "propertyIsEnumerable"; "toString"; "valueOf"; "__proto__";
    "toLocaleString" ].

Definition isProtoKey (k : string) : bool :=
  existsb (String.eqb k) protoKeys.

End JS.

(** ** Values and ordinary objects *)

(** The values a ruleset entry can hold.  [JObject] stands for any object
    or function, such as a member inherited from [Object.prototype]. *)
Inductive JsVal :=
| JNum (n : Z)
| JBool (b : bool)
| JString (s : string)
| JObject.

Definition truthy (v : JsVal) : bool :=
  match v with
  | JNum n => negb (n =? 0)
  | JBool b => b
  | JString s => negb (String.eqb s "")
  | JObject => true
  end.

(** [v === 2]. *)
Definition isTwo (v : option JsVal) : bool :=
  match v with
  | Some (JNum 2) => true
  | _ => false
  end.

(** An ordinary object: own properties in creation order. *)
Abbreviation Obj := (list (string * JsVal)).

Fixpoint obj_own (o : Obj) (k : string) : option JsVal :=
  match o with
  | [] => None
  | (k', v) :: r => if String.eqb k' k then Some v else obj_own r k
  end.

(** [o[k]]: own property, else the inherited member, else undefined. *)
Definition obj_get (o : Obj) (k : string) : option JsVal :=
  match obj_own o k with
  | Some v => Some v
  | None => if JS.isProtoKey k then Some JObject else None
  end.

(** [k in o]. *)
Definition obj_in (k : string) (o : Obj) : bool :=
  match obj_own o k with
  | Some _ => true
  | None => JS.isProtoKey k
  end.

Fixpoint obj_put (o : Obj) (k : string) (v : JsVal) : Obj :=
  match o with
  | [] => [(k, v)]
  | (k', v') :: r =>
      if String.eqb k' k then (k', v) :: r else (k', v') :: obj_put r k v
  end.

(** [o[k] = v]: an existing key keeps its place, a new key goes last;
    assigning a primitive to [__proto__] is ignored by its setter. *)
Definition obj_set (o : Obj) (k : string) (v : JsVal) : Obj :=
  if String.eqb k "__proto__" then o else obj_put o k v.

(** Array-index keys are the canonical decimal strings below 2^32 - 1;
    property enumeration lists them first, in ascending order. *)
Definition digitVal (c : ascii) : option Z :=
  let n := JS.code c in
  if (48 <=? n) && (n <=? 57) then Some (n - 48) else None.

Fixpoint parseDigits (s : string) (acc : Z) : option Z :=
  match s with
  | EmptyString => Some acc
  | String c r =>
      match digitVal c with
      | Some d => parseDigits r (10 * acc + d)
      | None => None
      end
  end.

Definition arrayIndex (k : string) : option Z :=
  match k with
  | EmptyString => None
  | String "0" EmptyString => Some 0
  | String "0" _ => None
  | _ => match parseDigits k 0 with
         | Some n => if n <? 4294967295 then Some n else None
         | None => None
         end
  end.

Fixpoint insertIndexed {V} (n : Z) (e : string * V)
    (l : list (Z * (string * V))) : list (Z * (string * V)) :=
  match l with
  | [] => [(n, e)]
  | (m, e') :: r =>
      if n <? m then (n, e) :: l else (m, e') :: insertIndexed n e r
  end.

Definition indexedEntries {V} (o : list (string * V))
  : list (Z * (string * V)) :=
  fold_left (fun acc e =>
               match arrayIndex (fst e) with
               | Some n => insertIndexed n e acc
               | None => acc
               end) o [].

Definition isIndexKey {V} (e : string * V) : bool :=
  match arrayIndex (fst e) with
  | Some _ => true
  | None => false
  end.

(** [Object.entries(o)], also the order of [for (k in o)]. *)
Definition entries {V} (o : list (string * V)) : list (string * V) :=
  (List.map snd (indexedEntries o) ++
   List.filter (fun e => negb (isIndexKey e)) o)%list.

(** [Object.assign({}, src)]. *)
Definition assignFresh (src : Obj) : Obj :=
  fold_left (fun o e => obj_set o (fst e) (snd e)) (entries src) [].

(** ** Directive extractor *)

(** One attempt of [rxEmbedded] at the start of [s]:
    [/\/\*\s*csslint\s+((?:[^*]+|\*(?!\/))+?)\*\//i].
    The group is the non-empty text up to the first comment end; when the
    greedy [\s+] leaves nothing for the group it gives back one space.
    Result: the group and the length of the whole match. *)
Definition rxEmbedded_at (s : string) : option (string * Z) :=
  if String.prefix "/*" s then
    let '(w0, s2) := JS.spanSpace (JS.drop 2 s) in
    if String.prefix "csslint" (JS.toLowerCase (JS.take 7 s2)) then
      let '(w, s4) := JS.spanSpace (JS.drop 7 s2) in
      let e := JS.findFirst "*/" s4 0 in
      let before := 2 + Z.of_nat w0 + 7 + Z.of_nat w in
      match w with
      | O => None
      | S w' =>
          if e <? 0 then None
          else if e =? 0 then
            match w' with
            | O => None
            | S _ => Some (JS.take 1 (JS.drop (7 + w') s2), before + 2)
            end
          else Some (JS.take (Z.to_nat e) s4, before + e + 2)
      end
    else None
  else None.

(** Leftmost match in the suffix [s] that starts at index [pos]:
    its index, the group, and the new [lastIndex]. *)
Fixpoint rxEmbedded_search (s : string) (pos : Z) : option (Z * string * Z) :=
  match rxEmbedded_at s with
  | Some (g, n) => Some (pos, g, pos + n)
  | None =>
      match s with
      | EmptyString => None
      | String _ r => rxEmbedded_search r (pos + 1)
      end
  end.

(** [rxEmbedded.exec(text)] with the global flag, from [lastIndex]. *)
Definition rxEmbedded_exec (text : string) (lastIndex : Z)
  : option (Z * string * Z) :=
  if JS.len text <? lastIndex then None
  else rxEmbedded_search (JS.drop (Z.to_nat lastIndex) text) lastIndex.

Definition EBMEDDED_RULE_VALUE_MAP : Obj :=
  [ ("true", JNum 2); ("2", JNum 2);
    ("", JNum 1); ("1", JNum 1);
    ("false", JNum 0); ("0", JNum 0) ].

(** Truthiness of a variable that holds [null] or a number. *)
Definition truthyNum (o : option Z) : bool :=
  match o with
  | Some n => negb (n =? 0)
  | None => false
  end.

Record Embedded := mkEmbedded {
  e_ruleset : Obj;
  e_allow : gmap Z Obj;
  e_ignore : list (Z * Z);
  e_ignoreStart : option Z;
  e_ignoreEnd : option Z;
  e_lineno : Z;
  e_eol : Z
}.

(** The inner loop that accounts for the lines up to a match.  [fuel]
    bounds the iterations; [countLines_exits] shows that the fuel given by
    [directive] lets the loop leave through its condition. *)
Fixpoint countLines (fuel : nat) (text : string) (eol lineno index : Z)
  : Z * Z :=
  match fuel with
  | O => (eol, lineno)
  | S k =>
      if eol <=? index then
        let e := JS.indexOf text (String "010" EmptyString) (eol + 1) in
        let e := if e <? 0 then JS.len text else e in
        countLines k text e (lineno + 1) index
      else (eol, lineno)
  end.

Definition allowCase (ovr : string) (i : Z) (st : Embedded) : Embedded :=
  let parts := JS.split "," (JS.slice ovr i) in
  let allowRuleset :=
    fold_left (fun o r => obj_set o (JS.trim r) (JBool true)) parts [] in
  let num := List.length parts in
  match num with
  | O => st
  | S _ => mkEmbedded (e_ruleset st) (<[e_lineno st := allowRuleset]> (e_allow st))
             (e_ignore st) (e_ignoreStart st) (e_ignoreEnd st)
             (e_lineno st) (e_eol st)
  end.

Definition ignoreCase (ovr : string) (st : Embedded) : Embedded :=
  if JS.includes ovr "start" then
    let start := if truthyNum (e_ignoreStart st) then e_ignoreStart st
                 else Some (e_lineno st) in
    mkEmbedded (e_ruleset st) (e_allow st) (e_ignore st) start
      (e_ignoreEnd st) (e_lineno st) (e_eol st)
  else if JS.includes ovr "end" then
    let ignoreEnd := Some (e_lineno st) in
    if truthyNum (e_ignoreStart st) && truthyNum ignoreEnd then
      mkEmbedded (e_ruleset st) (e_allow st)
        (e_ignore st ++ [(default 0 (e_ignoreStart st), e_lineno st)])%list
        None None (e_lineno st) (e_eol st)
    else
      mkEmbedded (e_ruleset st) (e_allow st) (e_ignore st) (e_ignoreStart st)
        ignoreEnd (e_lineno st) (e_eol st)
  else st.

Definition defaultCase (ovr : string) (i : Z) (st : Embedded) : Embedded :=
  let ruleset :=
    fold_left
      (fun rs rule =>
         let pair := JS.split ":" rule in
         let property := nth 0 pair EmptyString in
         let value := nth 1 pair EmptyString in
         let mapped := obj_get EBMEDDED_RULE_VALUE_MAP (JS.trim value) in
         obj_set rs (JS.trim property) (default (JNum 1) mapped))
      (JS.split "," (JS.slice ovr i)) (e_ruleset st) in
  mkEmbedded ruleset (e_allow st) (e_ignore st) (e_ignoreStart st)
    (e_ignoreEnd st) (e_lineno st) (e_eol st).

(** Body of the outer loop for the match at [index] with group [g]. *)
Definition directive (text : string) (index : Z) (g : string) (st : Embedded)
  : Embedded :=
  let '(eol, lineno) :=
    countLines (S (String.length text)) text (e_eol st) (e_lineno st) index in
  let st := mkEmbedded (e_ruleset st) (e_allow st) (e_ignore st)
              (e_ignoreStart st) (e_ignoreEnd st) lineno eol in
  let ovr := JS.toLowerCase g in
  let cmd := hd EmptyString (JS.splitLimit ":" 1 ovr) in
  let i := JS.len cmd + 1 in
  let c := JS.trim cmd in
  if String.eqb c "allow" then allowCase ovr i st
  else if String.eqb c "ignore" then ignoreCase ovr st
  else defaultCase ovr i st.

(** The outer loop, [while ((m = rxEmbedded.exec(text)))].  Every match
    moves [lastIndex] forward, so the length of the text bounds the
    iterations ([embeddedLoop_enough]). *)
Fixpoint embeddedLoop (fuel : nat) (text : string) (lastIndex : Z)
    (st : Embedded) : Embedded :=
  match fuel with
  | O => st
  | S k =>
      match rxEmbedded_exec text lastIndex with
      | Some (index, g, lastIndex') =>
          embeddedLoop k text lastIndex' (directive text index g st)
      | None => st
      end
  end.

(** [applyEmbeddedOverrides(text, ruleset, allow, ignore)], entered with
    [rxEmbedded.lastIndex = lastIndex]; returns the three mutated
    arguments. *)
Definition applyEmbeddedOverrides (text : string) (lastIndex : Z)
    (ruleset : Obj) (allow : gmap Z Obj) (ignore : list (Z * Z))
  : Obj * gmap Z Obj * list (Z * Z) :=
  let st := embeddedLoop (S (String.length text)) text lastIndex
              (mkEmbedded ruleset allow ignore None None 0 (-1)) in
  let ignore' :=
    if truthyNum (e_ignoreStart st)
    then (e_ignore st ++ [(default 0 (e_ignoreStart st), e_lineno st)])%list
    else e_ignore st in
  (e_ruleset st, e_allow st, ignore').

(** The probe at the head of [verify]: the value stored in [emi] and in
    [rxEmbedded.lastIndex]. *)
Definition probe (text : string) : Z :=
  let a := JS.indexOf text "/*" 0 + 1 in
  let a := if a =? 0 then JS.len text else a in
  JS.lastIndexOf text "/*" (JS.indexOf text "csslint" a + 1).

(** Number of lines of a text (its final line, 1-based). *)
Definition lineCount (text : string) : Z :=
  Z.of_nat (List.length (JS.split "010" text)).

(** ** Reporter *)

Inductive MsgType := TInfo | TWarning | TError.

(** A registered rule object: its id and metadata. *)
Record Rule := mkRule {
  id : string;
  name : string;
  desc : string;
  url : option string;
  browsers : string
}.

(** A message; an absent field is [None], an absent [rollup] is [false].
    [m_rule = None] is the empty object literal passed for a fatal error. *)
Record Message := mkMessage {
  m_type : MsgType;
  m_rollup : bool;
  m_evidence : option string;
  m_line : option Z;
  m_col : option Z;
  m_message : string;
  m_rule : option Rule
}.

(** The position argument, destructured as [{line = 1, col = 1}]. *)
Record Pos := mkPos { p_line : option Z; p_col : option Z }.

Abbreviation Store := (gmap nat Obj).

Definition deref (h : Store) (l : nat) : Obj := default [] (h !! l).

Definition alloc (h : Store) (o : Obj) : nat * Store :=
  let l := fresh (dom h) in (l, <[l := o]> h).

(** The reporter keeps a reference to the ruleset object, not a copy. *)
Record Reporter := mkReporter {
  messages : list Message;
  stats : list (string * Z);
  lines : list string;
  ruleset : nat;
  allow : gmap Z Obj;
  ignore : list (Z * Z)
}.

Definition newReporter (lines : list string) (ruleset : nat)
    (allow : gmap Z Obj) (ignore : list (Z * Z)) : Reporter :=
  mkReporter [] [] lines ruleset allow ignore.

(** [lines[line - 1]]. *)
Definition evidenceAt (lines : list string) (line : Z) : option string :=
  if 1 <=? line then nth_error lines (Z.to_nat (line - 1)) else None.

Definition push (r : Reporter) (m : Message) : Reporter :=
  mkReporter (messages r ++ [m])%list (stats r) (lines r) (ruleset r)
    (allow r) (ignore r).

Definition positional (r : Reporter) (t : MsgType) (message : string)
    (pos : Pos) (rule : option Rule) : Message :=
  let line := default 1 (p_line pos) in
  let col := default 1 (p_col pos) in
  mkMessage t false (evidenceAt (lines r) line) (Some line) (Some col)
    message rule.

Definition error (r : Reporter) (message : string) (pos : Pos)
    (rule : option Rule) : Reporter :=
  push r (positional r TError message pos rule).

(** [line in this.allow && rule.id in this.allow[line]]. *)
Definition allowed (r : Reporter) (line : Z) (rule : Rule) : bool :=
  match allow r !! line with
  | Some o => obj_in (id rule) o
  | None => false
  end.

(** [this.ignore.some(range => range[0] <= line && line <= range[1])]. *)
Definition ignored (r : Reporter) (line : Z) : bool :=
  existsb (fun range => (fst range <=? line) && (line <=? snd range))
    (ignore r).

Definition report (h : Store) (r : Reporter) (message : string) (pos : Pos)
    (rule : Rule) : Reporter :=
  let line := default 1 (p_line pos) in
  if allowed r line rule || ignored r line then r
  else
    push r (positional r
              (if isTwo (obj_get (deref h (ruleset r)) (id rule))
               then TError else TWarning)
              message pos (Some rule)).

Definition info (r : Reporter) (message : string) (pos : Pos)
    (rule : option Rule) : Reporter :=
  push r (positional r TInfo message pos rule).

Definition rollupError (r : Reporter) (message : string)
    (rule : option Rule) : Reporter :=
  push r (mkMessage TError true None None None message rule).

Definition rollupWarn (r : Reporter) (message : string)
    (rule : option Rule) : Reporter :=
  push r (mkMessage TWarning true None None None message rule).

(** [this.stats] is an Array, created empty.  The list holds the own
    properties it was given; its [length] is 0 until an entry for it
    exists. *)
Fixpoint statPut (l : list (string * Z)) (name : string) (value : Z)
  : list (string * Z) :=
  match l with
  | [] => [(name, value)]
  | (k, v) :: t =>
      if String.eqb k name then (k, value) :: t
      else (k, v) :: statPut t name value
  end.

Definition arrLength (l : list (string * Z)) : Z :=
  default 0 (snd <$> List.find (fun e => String.eqb (fst e) "length") l).

(** The values an array accepts as its length. *)
Definition validLength (v : Z) : bool := (0 <=? v) && (v <? 4294967296).

(** [arr[name] = value] on an Array: [length] truncates, or throws a
    RangeError ([None]) for a value that is no array length; a number
    assigned to [__proto__] is dropped by its setter; an array index
    extends [length]; any other name is an ordinary property. *)
Definition statSet (l : list (string * Z)) (name : string) (value : Z)
  : option (list (string * Z)) :=
  if String.eqb name "length" then
    if validLength value then
      Some (statPut
              (List.filter (fun e => match arrayIndex (fst e) with
                                     | Some i => i <? value
                                     | None => true
                                     end) l)
              "length" value)
    else None
  else if String.eqb name "__proto__" then Some l
  else
    match arrayIndex name with
    | Some i =>
        let l' := statPut l name value in
        Some (if arrLength l' <? i + 1 then statPut l' "length" (i + 1)
              else l')
    | None => Some (statPut l name value)
    end.

(** [this.stats[name] = value]; [None] when the assignment throws. *)
Definition stat (r : Reporter) (name : string) (value : Z)
  : option Reporter :=
  (fun st => mkReporter (messages r) st (lines r) (ruleset r) (allow r)
               (ignore r)) <$> statSet (stats r) name value.

(** ** Parser events, listeners and rules *)

(** A property-name token of the parser. *)
Record Token := mkToken {
  tk_text : string;
  tk_lowText : option string;
  tk_vendorPos : Z;
  tk_line : option Z;
  tk_col : option Z
}.

Record Value := mkValue { v_text : string }.

Inductive Event :=
| EvProperty (property : Token) (value : Value) (important inParens : bool)
    (line col : option Z)
| EvError (message : string) (line col : option Z)
| EvEndStylesheet
| EvOther (type : string) (line col : option Z).

Definition ev_type (e : Event) : string :=
  match e with
  | EvProperty _ _ _ _ _ _ => "property"
  | EvError _ _ _ => "error"
  | EvEndStylesheet => "endstylesheet"
  | EvOther t _ _ => t
  end.

(** What the parser throws on a fatal failure. *)
Record Exn := mkExn { ex_stack : string; ex_line : option Z; ex_col : option Z }.

(** A call a listener makes on the reporter. *)
Inductive Call :=
| CallError (message : string) (pos : Pos) (rule : option Rule)
| CallReport (message : string) (pos : Pos) (rule : Rule)
| CallInfo (message : string) (pos : Pos) (rule : option Rule)
| CallRollupError (message : string) (rule : option Rule)
| CallRollupWarn (message : string) (rule : option Rule)
| CallStat (name : string) (value : Z).

(** The reporter after a call.  A [stat] that throws leaves the reporter
    as it was.  The exception also ends the dispatch of the event and the
    parse, which has no counterpart here: the rules of the catalog record
    under fixed names, for which [stat] does not throw. *)
Definition perform (h : Store) (r : Reporter) (c : Call) : Reporter :=
  match c with
  | CallError m p rl => error r m p rl
  | CallReport m p rl => report h r m p rl
  | CallInfo m p rl => info r m p rl
  | CallRollupError m rl => rollupError r m rl
  | CallRollupWarn m rl => rollupWarn r m rl
  | CallStat n v => default r (stat r n v)
  end.

(** What one [init] call leaves behind: closure state and the listeners
    it added, each under its event name, in the order of [addListener]. *)
Record Listener := mkListener {
  l_state : Type;
  l_start : l_state;
  l_handlers : list (string * (Event -> l_state -> l_state * list Call))
}.

(** A registry entry: the rule object and its [init]. *)
Record RuleDef := mkRuleDef {
  r_rule : Rule;
  r_init : Rule -> Listener
}.

(** [CSSLint.Util.getPropName]. *)
Definition getPropName (prop : Token) : string :=
  let low := match tk_lowText prop with
             | Some s => if String.eqb s "" then JS.toLowerCase (tk_text prop)
                         else s
             | None => JS.toLowerCase (tk_text prop)
             end in
  if tk_vendorPos prop =? 0 then low else JS.slice low (tk_vendorPos prop).

Definition isFloat (property : Token) (value : Value) : bool :=
  String.eqb (getPropName property) "float" &&
  negb (String.eqb (JS.toLowerCase (v_text value)) "none").

Definition floatsMessage (count : Z) : string :=
  "Too many floats (" +:+ JS.numToString count +:+
  "), you're probably using them for layout. " +:+
  "Consider using a grid system instead.".

(** The [floats] rule. *)
Definition floats_init (rule : Rule) : Listener :=
  mkListener Z 0
    [ ("property",
       fun e count =>
         match e with
         | EvProperty property value _ _ _ _ =>
             (count + (if isFloat property value then 1 else 0), [])
         | _ => (count, [])
         end);
      ("endstylesheet",
       fun _ count =>
         (count,
          CallStat "floats" count ::
          (if 10 <=? count
           then [CallRollupWarn (floatsMessage count) (Some rule)]
           else []))) ].

(** The [errors] rule. *)
Definition errors_init (rule : Rule) : Listener :=
  mkListener unit tt
    [ ("error",
       fun e st =>
         match e with
         | EvError message line col =>
             (st, [CallError message (mkPos line col) (Some rule)])
         | _ => (st, [])
         end) ].

Definition importantMessage (count : Z) : string :=
  "Too many !important declarations (" +:+ JS.numToString count +:+
  "), try to use less than 10 to avoid specificity issues.".

(** The [important] rule. *)
Definition important_init (rule : Rule) : Listener :=
  mkListener Z 0
    [ ("property",
       fun e count =>
         match e with
         | EvProperty _ _ important _ line col =>
             if important
             then (count + 1, [CallReport "!important." (mkPos line col) rule])
             else (count, [])
         | _ => (count, [])
         end);
      ("endstylesheet",
       fun _ count =>
         (count,
          CallStat "important" count ::
          (if 10 <=? count
           then [CallRollupWarn (importantMessage count) (Some rule)]
           else []))) ].

Definition important_def : RuleDef :=
  mkRuleDef
    (mkRule "important" "Disallow !important"
       "Be careful when using !important declaration"
       (Some "https://github.com/CSSLint/csslint/wiki/Disallow-%21important")
       "All")
    important_init.

Definition floats_def : RuleDef :=
  mkRuleDef
    (mkRule "floats" "Disallow too many floats"
       "This rule tests if the float property too many times"
       (Some "https://github.com/CSSLint/csslint/wiki/Disallow-too-many-floats")
       "All")
    floats_init.

Definition errors_def : RuleDef :=
  mkRuleDef
    (mkRule "errors" "Parsing Errors"
       "This rule looks for recoverable syntax errors." None "All")
    errors_init.

(** A listener together with its current closure state. *)
Record Active := mkActive {
  a_listener : Listener;
  a_state : l_state a_listener
}.

(** Run the handlers one rule added for the event's name. *)
Fixpoint fireHandlers {St} (e : Event)
    (hs : list (string * (Event -> St -> St * list Call))) (st : St)
  : St * list Call :=
  match hs with
  | [] => (st, [])
  | (t, f) :: r =>
      if String.eqb t (ev_type e) then
        let '(st1, c1) := f e st in
        let '(st2, c2) := fireHandlers e r st1 in
        (st2, (c1 ++ c2)%list)
      else fireHandlers e r st
  end.

Definition fire (e : Event) (a : Active) : Active * list Call :=
  let '(st, cs) := fireHandlers e (l_handlers (a_listener a)) (a_state a) in
  (mkActive (a_listener a) st, cs).

(** Deliver one event to every attached rule, in attachment order. *)
Fixpoint dispatch (e : Event) (acts : list Active) : list Active * list Call :=
  match acts with
  | [] => ([], [])
  | a :: r =>
      let '(a', c1) := fire e a in
      let '(r', c2) := dispatch e r in
      (a' :: r', (c1 ++ c2)%list)
  end.

Fixpoint runEvents (h : Store) (evs : list Event) (acts : list Active)
    (r : Reporter) : Reporter :=
  match evs with
  | [] => r
  | e :: rest =>
      let '(acts', cs) := dispatch e acts in
      runEvents h rest acts' (fold_left (perform h) cs r)
  end.

(** ** Sorting and post-processing of messages *)

(** [x - y] on possibly absent numbers; [None] is NaN. *)
Definition jsSub (x y : option Z) : option Z :=
  match x, y with
  | Some a, Some b => Some (a - b)
  | _, _ => None
  end.

(** [x || y] on numbers: 0 and NaN are falsy. *)
Definition jsOr (x y : option Z) : option Z :=
  match x with
  | Some v => if v =? 0 then y else x
  | None => y
  end.

Definition b2z (b : bool) : Z := if b then 1 else 0.

(** [!!a.rollup - !!b.rollup || a.line - b.line || a.col - b.col]. *)
Definition compareMessages (a b : Message) : option Z :=
  jsOr (jsOr (Some (b2z (m_rollup a) - b2z (m_rollup b)))
          (jsSub (m_line a) (m_line b)))
    (jsSub (m_col a) (m_col b)).

(** The comparator result as [Array.prototype.sort] reads it: NaN is +0. *)
Definition before {A} (cmp : A -> A -> option Z) (x y : A) : bool :=
  match cmp x y with
  | Some v => v <? 0
  | None => false
  end.

Fixpoint sortInsert {A} (cmp : A -> A -> option Z) (x : A) (l : list A)
  : list A :=
  match l with
  | [] => [x]
  | y :: r => if before cmp x y then x :: l else y :: sortInsert cmp x r
  end.

(** [Array.prototype.sort(cmp)]: the sort is stable, so for a consistent
    comparator the result is the one of a stable insertion sort. *)
Definition jsSort {A} (cmp : A -> A -> option Z) (l : list A) : list A :=
  fold_left (fun acc x => sortInsert cmp x acc) l [].

Definition ABBR_MAP : list (string * string) :=
  [ ("int", "integer");
    ("len", "length");
    ("num", "number");
    ("pct", "percentage");
    ("rel-hsl", "h-s-l-alpha-none");
    ("rel-hwb", "h-w-b-alpha-none");
    ("rel-lab", "l-a-b-alpha-none");
    ("rel-lch", "l-c-h-alpha-none");
    ("rel-rgb", "r-g-b-alpha-none") ].

Fixpoint abbrGet (m : list (string * string)) (k : string) : option string :=
  match m with
  | [] => None
  | (k', v) :: r => if String.eqb k' k then Some v else abbrGet r k
  end.

(** [(_, c, str) => c + (ABBR_MAP[str]) || str]: the sum is taken first,
    and a string plus undefined ends in the word undefined. *)
Definition unabbreviate (c : ascii) (str : string) : string :=
  let sum := String c (default "undefined" (abbrGet ABBR_MAP str)) in
  if String.eqb sum "" then str else sum.

(** The lookahead [(?=\W)]. *)
Definition nonWordAhead (s : string) : bool :=
  match s with
  | String c _ => negb (JS.isWord c)
  | EmptyString => false
  end.

Definition threeWord (s : string) : bool :=
  match s with
  | String a (String b (String c _)) =>
      JS.isWord a && JS.isWord b && JS.isWord c
  | _ => false
  end.

(** One attempt of [rxGrammarAbbr] at the start of [s]:
    [/([-<])(int|len|num|pct|rel-(\w{3}))(?=\W)/]; the two groups. *)
Definition rxGrammarAbbr_at (s : string) : option (ascii * string) :=
  match s with
  | String c r =>
      if Ascii.eqb c "-" || Ascii.eqb c "<" then
        if (String.prefix "int" r || String.prefix "len" r ||
            String.prefix "num" r || String.prefix "pct" r) &&
           nonWordAhead (JS.drop 3 r)
        then Some (c, JS.take 3 r)
        else if String.prefix "rel-" r && threeWord (JS.drop 4 r) &&
                nonWordAhead (JS.drop 7 r)
        then Some (c, JS.take 7 r)
        else None
      else None
  | EmptyString => None
  end.

(** [s.replace(rxGrammarAbbr, unabbreviate)]: every match, left to right;
    [skip] counts the characters of the last match still to pass. *)
Fixpoint replaceAbbr (skip : nat) (s : string) : string :=
  match s with
  | EmptyString => EmptyString
  | String c r =>
      match skip with
      | S k => replaceAbbr k r
      | O =>
          match rxGrammarAbbr_at s with
          | Some (c', str) =>
              unabbreviate c' str +:+ replaceAbbr (String.length str) r
          | None => String c (replaceAbbr O r)
          end
      end
  end.

Definition postprocessText (message : string) : string :=
  if 0 <=? JS.indexOf message "<" 0 then replaceAbbr O message else message.

Definition postprocess (m : Message) : Message :=
  mkMessage (m_type m) (m_rollup m) (m_evidence m) (m_line m) (m_col m)
    (postprocessText (m_message m)) (m_rule m).

(** ** The verification engine *)

(** A property of the returned report object. *)
Inductive Field :=
| FMessages (l : list Message)
| FStats (l : list (string * Z)).

Fixpoint fieldGet (o : list (string * Field)) (k : string) : option Field :=
  match o with
  | [] => None
  | (k', v) :: r => if String.eqb k' k then Some v else fieldGet r k
  end.

Definition fatalText (x : Exn) : string :=
  "Fatal error, cannot continue!" +:+ String "010" (ex_stack x).

Section Engine.

(** The registry [rules], in registration order, and the parser: the
    events it emits for a text, then the exception it throws, if any. *)
Variable rules : list RuleDef.
Variable parse : string -> bool -> list Event * option Exn.

(** [rules[id]]; the registry has no prototype. *)
Definition lookupRule (i : string) : option RuleDef :=
  List.find (fun d => String.eqb (id (r_rule d)) i) rules.

Definition getRuleSet : Obj :=
  fold_left (fun o e => obj_set o (fst e) (JNum 1))
    (entries (List.map (fun d => (id (r_rule d), d)) rules)) [].

(** The head of [verify]: default argument, probe, clone and directive
    scan.  Returns the reference [ruleset] then holds, the heap, [allow]
    and [ignore]. *)
Definition prepare (text : string) (arg : option nat) (h : Store)
  : nat * Store * gmap Z Obj * list (Z * Z) :=
  let '(r0, h0) := match arg with
                   | Some l => (l, h)
                   | None => alloc h getRuleSet
                   end in
  let emi := probe text in
  if 0 <=? emi then
    let '(r1, h1) := alloc h0 (assignFresh (deref h0 r0)) in
    let '(rs, al, ig) :=
      applyEmbeddedOverrides text emi (deref h1 r1) ∅ [] in
    (r1, <[r1 := rs]> h1, al, ig)
  else (r0, h0, ∅, []).

(** [ruleset.errors = 2]. *)
Definition forceErrors (l : nat) (h : Store) : Store :=
  <[l := obj_set (deref h l) "errors" (JNum 2)]> h.

(** One turn of the loop over [Object.entries(ruleset)]:
    [const rule = mode && rules[id]; if (rule) rule.init(...)]. *)
Definition attachEntry (e : string * JsVal) : list (string * Active) :=
  if truthy (snd e) then
    match lookupRule (fst e) with
    | Some d =>
        let l := r_init d (r_rule d) in [(fst e, mkActive l (l_start l))]
    | None => []
    end
  else [].

Definition attach (rs : Obj) : list (string * Active) :=
  flat_map attachEntry (entries rs).

(** The reporter when the parse has ended, before the sort. *)
Definition emitted (text : string) (arg : option nat) (reuseCache : bool)
    (h : Store) : Reporter :=
  let '(l, h1, al, ig) := prepare text arg h in
  let reporter := newReporter [] l al ig in
  let h2 := forceErrors l h1 in
  let acts := List.map snd (attach (deref h2 l)) in
  let '(evs, ex) := parse text reuseCache in
  let reporter := runEvents h2 evs acts reporter in
  match ex with
  | Some x =>
      error reporter (fatalText x) (mkPos (ex_line x) (ex_col x)) None
  | None => reporter
  end.

(** [verify(text, ruleset)]: the heap it leaves and the object it
    returns.  [reuseCache] is the hint computed from [prevOverrides], the
    module state of the previous call; the parser may depend on it, the
    claims hold for either value.  [parserlib.util.cache.feedback] reads
    the report and leaves it as it is. *)
Definition verify (text : string) (arg : option nat) (reuseCache : bool)
    (h : Store) : Store * list (string * Field) :=
  let '(l, h1, _, _) := prepare text arg h in
  let h2 := forceErrors l h1 in
  let msgs := jsSort compareMessages
                (messages (emitted text arg reuseCache h)) in
  (h2, [("messages", FMessages (List.map postprocess msgs))]).

Definition verifyMessages (text : string) (arg : option nat)
    (reuseCache : bool) (h : Store) : list Message :=
  match fieldGet (snd (verify text arg reuseCache h)) "messages" with
  | Some (FMessages l) => l
  | _ => []
  end.

End Engine.

(** ** Calls and the messages they append *)

(** The messages one reporter call appends. *)
Definition callMessages (h : Store) (r : Reporter) (c : Call) : list Message :=
  match c with
  | CallError m p rl => [positional r TError m p rl]
  | CallReport m p rl =>
      if allowed r (default 1 (p_line p)) rl || ignored r (default 1 (p_line p))
      then []
      else [positional r
              (if isTwo (obj_get (deref h (ruleset r)) (id rl))
               then TError else TWarning) m p (Some rl)]
  | CallInfo m p rl => [positional r TInfo m p rl]
  | CallRollupError m rl => [mkMessage TError true None None None m rl]
  | CallRollupWarn m rl => [mkMessage TWarning true None None None m rl]
  | CallStat _ _ => []
  end.

(** Every call of the listeners over an event stream, in call order. *)
Fixpoint allCalls (evs : list Event) (acts : list Active) : list Call :=
  match evs with
  | [] => []
  | e :: rest =>
      let '(acts', cs) := dispatch e acts in (cs ++ allCalls rest acts')%list
  end.

(** Two reporters that differ in their accumulated results only. *)
Definition sameEnv (r r' : Reporter) : Prop :=
  lines r = lines r' /\ ruleset r = ruleset r' /\
  allow r = allow r' /\ ignore r = ignore r'.

Definition positionalMsg (m : Message) : Prop :=
  m_rollup m = false /\ exists l c, m_line m = Some l /\ m_col m = Some c.

Definition rollupMsg (m : Message) : Prop :=
  m_rollup m = true /\ m_line m = None /\ m_col m = None.

Definition wfMessage (m : Message) : Prop := positionalMsg m \/ rollupMsg m.

(** Ascending by line, then column. *)
Definition posLe (a b : Message) : Prop :=
  match m_line a, m_col a, m_line b, m_col b with
  | Some la, Some ca, Some lb, Some cb => la < lb \/ (la = lb /\ ca <= cb)
  | _, _, _, _ => False
  end.

(** ** Attribution of calls and messages to rules *)

(** The id of the rule object a call passes, if it passes one. *)
Definition callId (c : Call) : option string :=
  match c with
  | CallError _ _ rl | CallInfo _ _ rl
  | CallRollupError _ rl | CallRollupWarn _ rl => id <$> rl
  | CallReport _ _ rl => Some (id rl)
  | CallStat _ _ => None
  end.

Definition msgId (m : Message) : option string := id <$> m_rule m.

Definition idIs (i : string) (o : option string) : bool :=
  match o with
  | Some j => String.eqb j i
  | None => false
  end.

(** Every call any listener of [l] can make satisfies [C]. *)
Definition listenerCalls (C : Call -> Prop) (l : Listener) : Prop :=
  forall t f e st, In (t, f) (l_handlers l) -> Forall C (snd (f e st)).

(** A rule that, like every rule of the catalog, hands the reporter the
    rule object its [init] received, never another rule's. *)
Definition ownCallsOnly (d : RuleDef) : Prop :=
  listenerCalls
    (fun c => callId c = None \/ callId c = Some (id (r_rule d)))
    (r_init d (r_rule d)).

Definition honest (rules : list RuleDef) : Prop := Forall ownCallsOnly rules.

(** The ruleset [verify] works with, once [errors] is forced. *)
Definition effectiveRuleset (rules : list RuleDef) (text : string)
    (arg : option nat) (h : Store) : Obj :=
  let '(l, h1, _, _) := prepare rules text arg h in
  deref (forceErrors l h1) l.

(** A [float] declaration whose value is not [none]. *)
Definition floatEvent (e : Event) : bool :=
  match e with
  | EvProperty property value _ _ _ _ => isFloat property value
  | _ => false
  end.

Definition countFloats (evs : list Event) : Z :=
  Z.of_nat (List.length (List.filter floatEvent evs)).

(** [pat] occurs in [s]. *)
Definition contains (pat s : string) : Prop :=
  exists a b, s = a +:+ pat +:+ b.

(** The rollup warning of the floats rule for a count of [n]. *)
Definition floatsWarning (n : Z) : Message :=
  mkMessage TWarning true None None None (floatsMessage n)
    (Some (r_rule floats_def)).

(** Every character of [s] satisfies [p]. *)
Fixpoint strAll (p : ascii -> bool) (s : string) : bool :=
  match s with
  | EmptyString => true
  | String c r => p c && strAll p r
  end.

Definition notLt (c : ascii) : bool := negb (Ascii.eqb c "<").

(** ** The directive scan the specification asks for *)

(** Spec-side definition: the directive scan run over the whole text,
    whatever the probe says. *)
Definition scanUnconditionally (text : string) (rs : Obj)
  : Obj * gmap Z Obj * list (Z * Z) :=
  applyEmbeddedOverrides text 0 rs ∅ [].

(** What [verify] does: scan from the probe's index, or not at all. *)
Definition scanProbed (text : string) (rs : Obj)
  : Obj * gmap Z Obj * list (Z * Z) :=
  if 0 <=? probe text then applyEmbeddedOverrides text (probe text) rs ∅ []
  else (rs, ∅, []).

Definition statGet (l : list (string * Z)) (k : string) : option Z :=
  snd <$> List.find (fun e => String.eqb (fst e) k) l.

(** ** Sample inputs *)

Module Sample.

Definition nl : string := String "010" EmptyString.

(** Three registered rules, as the catalog registers them. *)
Definition registry : list RuleDef := [errors_def; floats_def; important_def].

(** A parser that emits the given events for every text. *)
Definition emits (evs : list Event) (ex : option Exn)
  : string -> bool -> list Event * option Exn :=
  fun _ _ => (evs, ex).

Definition prop (nm v : string) (important : bool) (line col : Z) : Event :=
  EvProperty (mkToken nm None 0 (Some line) (Some col)) (mkValue v)
    important false (Some line) (Some col).

(** An open ignore block followed by two more lines. *)
Definition openIgnore : string :=
  "/* csslint ignore:start */" +:+ nl +:+ ".e{}" +:+ nl +:+ ".f{}".

(** An upper-case directive pair that does not start the text. *)
Definition upperIgnore : string :=
  "a{}" +:+ nl +:+ "/* CSSLINT ignore:start */" +:+ nl +:+
  "b{color:red!important}" +:+ nl +:+ "/* CSSLINT ignore:end */".

Definition upperIgnoreEvents : list Event :=
  [ EvOther "startstylesheet" None None;
    EvOther "startrule" (Some 1) (Some 1);
    EvOther "endrule" (Some 1) (Some 3);
    EvOther "startrule" (Some 3) (Some 1);
    prop "color" "red" true 3 3;
    EvOther "endrule" (Some 3) (Some 22);
    EvEndStylesheet ].

Definition importantText : string := "a{color:red!important}".

Definition importantEvents : list Event :=
  [ EvOther "startstylesheet" None None;
    EvOther "startrule" (Some 1) (Some 1);
    prop "color" "red" true 1 3;
    EvOther "endrule" (Some 1) (Some 22);
    EvEndStylesheet ].

(** [n] rule blocks, one per line, each with one [float:left]. *)
Fixpoint floatBlocks (n : nat) (line : Z) : list Event :=
  match n with
  | O => []
  | S k =>
      EvOther "startrule" (Some line) (Some 1) ::
      prop "float" "left" false line 4 ::
      EvOther "endrule" (Some line) (Some 14) ::
      floatBlocks k (line + 1)
  end.

Definition floatsEvents (n : nat) : list Event :=
  (EvOther "startstylesheet" None None :: floatBlocks n 1)%list.

Fixpoint floatsText (n : nat) : string :=
  match n with
  | O => EmptyString
  | S k => ".a{float:left}" +:+ nl +:+ floatsText k
  end.

Definition oneRuleset : Obj := [("floats", JNum 1); ("important", JNum 1)].

(** A ruleset directive that switches [floats] off. *)
Definition floatsOff : string := "/* csslint rules: , floats:0 */a{}".

End Sample.

(** ** Further definitions: directive scan *)

(** End of the last range of [l], or [lo] when there is none. *)
Fixpoint lastEnd (lo : Z) (l : list (Z * Z)) : Z :=
  match l with
  | [] => lo
  | (_, e) :: r => lastEnd e r
  end.

(** Ranges in document order: each starts at or after the end of the one
    before (and at or after [lo]) and ends at or after its start. *)
Fixpoint ordered (lo : Z) (l : list (Z * Z)) : Prop :=
  match l with
  | [] => True
  | (s, e) :: r => lo <= s /\ s <= e /\ ordered e r
  end.

(** What the extractor keeps between two directives. *)
Definition scanInv (st : Embedded) : Prop :=
  ordered 1 (e_ignore st) /\
  ((e_lineno st = 0 /\ e_eol st = -1) \/ 1 <= e_lineno st) /\
  match e_ignoreStart st with
  | Some s => 1 <= s <= e_lineno st /\ lastEnd 1 (e_ignore st) <= s
  | None => lastEnd 1 (e_ignore st) <= Z.max 1 (e_lineno st)
  end.

(** Number of line feeds in [s]. *)
Fixpoint countNl (s : string) : Z :=
  match s with
  | EmptyString => 0
  | String c r => (if Ascii.eqb c "010" then 1 else 0) + countNl r
  end.

(** The 1-based line of the character at [index]: one more than the line
    feeds at or before it. *)
Definition lineAt (text : string) (index : Z) : Z :=
  1 + countNl (JS.take (Z.to_nat (index + 1)) text).

(** The state of the line counter after the match at [i] was accounted
    for; before the first match [i] is [-1]. *)
Definition lineInv (text : string) (i : Z) (eol lineno : Z) : Prop :=
  (i = -1 /\ eol = -1 /\ lineno = 0) \/
  (0 <= i < eol /\ eol <= JS.len text /\
   lineno = lineAt text i /\
   lineno = 1 + countNl (JS.take (Z.to_nat eol) text) /\
   (eol < JS.len text ->
    exists rest, JS.drop (Z.to_nat eol) text = String "010" rest)).

(** ** Further definitions: the registry *)

(** [a < b] on strings: by code units, a proper prefix first. *)
Fixpoint strLt (a b : string) : bool :=
  match a, b with
  | _, EmptyString => false
  | EmptyString, String _ _ => true
  | String x a', String y b' =>
      if JS.code x <? JS.code y then true
      else if JS.code x =? JS.code y then strLt a' b' else false
  end.

(** [(a, b) => a.id < b.id ? -1 : a.id > b.id]; [true] counts as 1. *)
Definition compareIds (a b : RuleDef) : option Z :=
  if strLt (id (r_rule a)) (id (r_rule b)) then Some (-1)
  else Some (b2z (strLt (id (r_rule b)) (id (r_rule a)))).

(** [getRuleList()]: [Object.values(rules).sort(...)]. *)
Definition getRuleList (rules : list RuleDef) : list RuleDef :=
  jsSort compareIds
    (List.map snd (entries (List.map (fun d => (id (r_rule d), d)) rules))).

(** ** Further definitions: rules *)

(** The line and column an event object carries. *)
Definition evPos (e : Event) : Pos :=
  match e with
  | EvProperty _ _ _ _ l c => mkPos l c
  | EvError _ l c => mkPos l c
  | EvEndStylesheet => mkPos None None
  | EvOther _ l c => mkPos l c
  end.

Definition fontFacesMessage (count : Z) : string :=
  "Too many @font-face declarations (" +:+ JS.numToString count +:+ ").".

(** The [font-faces] rule. *)
Definition font_faces_init (rule : Rule) : Listener :=
  mkListener Z 0
    [ ("startfontface", fun _ count => (count + 1, []));
      ("endstylesheet",
       fun _ count =>
         (count,
          if 5 <? count
          then [CallRollupWarn (fontFacesMessage count) (Some rule)]
          else [])) ].

Definition fontSizesMessage (count : Z) : string :=
  "Too many font-size declarations (" +:+ JS.numToString count +:+
  "), abstraction needed.".

(** The [font-sizes] rule. *)
Definition font_sizes_init (rule : Rule) : Listener :=
  mkListener Z 0
    [ ("property",
       fun e count =>
         match e with
         | EvProperty property _ _ _ _ _ =>
             (count + (if String.eqb (getPropName property) "font-size"
                       then 1 else 0), [])
         | _ => (count, [])
         end);
      ("endstylesheet",
       fun _ count =>
         (count,
          CallStat "font-sizes" count ::
          (if 10 <=? count
           then [CallRollupWarn (fontSizesMessage count) (Some rule)]
           else []))) ].

Definition globalsMessage (type : string) : string :=
  "A nested @" +:+ type +:+
  " is valid only if this @-moz-document section " +:+
  "is the first one matched for any given URL.".

(** [check] of the [globals-in-document] rule; the state is
    [(level, index)]. *)
Definition globalsCheck (rule : Rule) (e : Event) (st : Z * Z)
  : (Z * Z) * list Call :=
  (st,
   if negb (fst st =? 0) && negb (snd st =? 0)
   then [CallReport (globalsMessage (ev_type e)) (evPos e) rule]
   else []).

(** The [globals-in-document] rule. *)
Definition globals_init (rule : Rule) : Listener :=
  mkListener (Z * Z) (0, 0)
    [ ("startdocument", fun _ st => ((fst st + 1, snd st), []));
      ("enddocument", fun _ st => ((fst st - 1, snd st + 1), []));
      ("import", globalsCheck rule);
      ("charset", globalsCheck rule);
      ("namespace", globalsCheck rule) ].

(** [import], [charset] and [namespace] events. *)
Definition isGlobal (e : Event) : bool :=
  String.eqb (ev_type e) "import" || String.eqb (ev_type e) "charset" ||
  String.eqb (ev_type e) "namespace".

Definition isDocEvent (e : Event) : bool :=
  String.eqb (ev_type e) "startdocument" ||
  String.eqb (ev_type e) "enddocument".

(** A stylesheet seen from this rule: events at top level and
    [@-moz-document] sections, each with the positions of its two ends. *)
Inductive DocItem :=
| Top (e : Event)
| Doc (l c : option Z) (body : list Event) (l' c' : option Z).

Definition docEvents (it : DocItem) : list Event :=
  match it with
  | Top e => [e]
  | Doc l c body l' c' =>
      (EvOther "startdocument" l c :: body ++
       [EvOther "enddocument" l' c'])%list
  end.

Definition docItemOk (it : DocItem) : Prop :=
  match it with
  | Top e => isDocEvent e = false
  | Doc _ _ body _ _ => Forall (fun e => isDocEvent e = false) body
  end.

(** The reports due for the global at-rules of a section's body. *)
Definition globalsReports (rule : Rule) (body : list Event) : list Call :=
  List.map (fun e => CallReport (globalsMessage (ev_type e)) (evPos e) rule)
    (List.filter isGlobal body).

(** Sections after the first report their global at-rules; [index] is the
    number of sections closed so far. *)
Fixpoint globalsExpected (rule : Rule) (index : Z) (items : list DocItem)
  : list Call :=
  match items with
  | [] => []
  | Top _ :: r => globalsExpected rule index r
  | Doc _ _ body _ _ :: r =>
      ((if index =? 0 then [] else globalsReports rule body) ++
       globalsExpected rule (index + 1) r)%list
  end.

(** The reports of the important rule for a stream, one per declaration
    flagged [!important], in order. *)
Definition importantReports (rule : Rule) (evs : list Event) : list Call :=
  flat_map (fun e =>
              match e with
              | EvProperty _ _ true _ line col =>
                  [CallReport "!important." (mkPos line col) rule]
              | _ => []
              end) evs.

(** Declarations of [font-size], vendor prefix and case aside. *)
Definition fontSizeEvent (e : Event) : bool :=
  match e with
  | EvProperty property _ _ _ _ _ =>
      String.eqb (getPropName property) "font-size"
  | _ => false
  end.

Definition countFontSizes (evs : list Event) : Z :=
  Z.of_nat (List.length (List.filter fontSizeEvent evs)).

Definition countFontFaces (evs : list Event) : Z :=
  Z.of_nat (List.length
              (List.filter (fun e => String.eqb "startfontface" (ev_type e))
                 evs)).

(** ** Further definitions: the rule framework *)

Definition blockEvents : list string :=
  [ "container"; "fontface"; "keyframerule"; "media"; "page"; "pagemargin";
    "rule"; "supports"; "viewport" ].

Definition optHandler {St} (name : string)
    (f : option (Event -> St -> St * list Call))
  : list (string * (Event -> St -> St * list Call)) :=
  match f with
  | Some g => [(name, g)]
  | None => []
  end.

(** [CSSLint.Util.registerRuleEvents(parser, {start, property, end})]:
    the listeners it adds, in the order of its [addListener] calls. *)
Definition registerRuleEvents {St}
    (start property end_ : option (Event -> St -> St * list Call))
  : list (string * (Event -> St -> St * list Call)) :=
  (flat_map (fun e => optHandler ("start" +:+ e) start ++
                      optHandler ("end" +:+ e) end_) blockEvents ++
   optHandler "property" property)%list.

Definition isBlockStart (t : string) : bool :=
  existsb (fun b => String.eqb ("start" +:+ b) t) blockEvents.

Definition isBlockEnd (t : string) : bool :=
  existsb (fun b => String.eqb ("end" +:+ b) t) blockEvents.

(** One listener's handlers over a stream: final state and calls. *)
Fixpoint runHandlers {St}
    (hs : list (string * (Event -> St -> St * list Call)))
    (evs : list Event) (st : St) : St * list Call :=
  match evs with
  | [] => (st, [])
  | e :: rest =>
      let '(st1, c1) := fireHandlers e hs st in
      let '(st2, c2) := runHandlers hs rest st1 in
      (st2, (c1 ++ c2)%list)
  end.

(** The handler an optional callback stands for. *)
Definition runOpt {St} (f : option (Event -> St -> St * list Call))
    (e : Event) (st : St) : St * list Call :=
  match f with
  | Some g => g e st
  | None => (st, [])
  end.

(** ** Further definitions: the duplicate-properties rule *)

(** The closure of the rule: [stack] with its top first, [props] and
    [lastName]; [None] is undefined. *)
Record DupState := mkDupState {
  d_stack : list (option Obj);
  d_props : option Obj;
  d_lastName : option string
}.

Definition dupStart (_ : Event) (st : DupState) : DupState * list Call :=
  (mkDupState (d_props st :: d_stack st) (Some []) (d_lastName st), []).

(** [props = stack.pop()]; an empty stack pops undefined. *)
Definition dupEnd (_ : Event) (st : DupState) : DupState * list Call :=
  (mkDupState (tl (d_stack st)) (hd None (d_stack st)) (d_lastName st), []).

Definition dq : string := String (JS.chr 34) EmptyString.

(** The message text; [showToken] is the string conversion of the
    parser's tokens. *)
Definition duplicateMessage (showToken : Token -> string) (dupValue : bool)
    (property : Token) : string :=
  (if dupValue then "Duplicate" else "Ungrouped duplicate") +:+ " " +:+ dq +:+
  showToken property +:+ dq +:+ ".".

Definition dupProperty (showToken : Token -> string) (rule : Rule)
    (e : Event) (st : DupState) : DupState * list Call :=
  match e, d_props st with
  | EvProperty property value _ false line col, Some props =>
      let name := JS.toLowerCase (tk_text property) in
      let last := obj_get props name in
      let dupValue :=
        match last with
        | Some (JString s) => String.eqb s (v_text value)
        | _ => false
        end in
      let isLast :=
        match d_lastName st with
        | Some n => String.eqb n name
        | None => false
        end in
      (mkDupState (d_stack st)
         (Some (obj_set props name (JString (v_text value)))) (Some name),
       if match last with Some v => truthy v | None => false end &&
          (negb isLast || dupValue)
       then [CallReport (duplicateMessage showToken dupValue property)
               (mkPos line col) rule]
       else [])
  | _, _ => (st, [])
  end.

(** The [duplicate-properties] rule. *)
Definition duplicate_properties_init (showToken : Token -> string)
    (rule : Rule) : Listener :=
  mkListener DupState (mkDupState [] None None)
    (registerRuleEvents (Some dupStart) (Some (dupProperty showToken rule))
       (Some dupEnd)).

(** Events that leave the entry [name] of the current block alone: whole
    nested blocks, and at the block's own level anything but a declaration
    of [name] outside parentheses; [depth] counts the nested blocks open. *)
Fixpoint keepsEntry (name : string) (depth : nat) (evs : list Event) : bool :=
  match evs with
  | [] => Nat.eqb depth 0
  | e :: r =>
      if isBlockStart (ev_type e) then keepsEntry name (S depth) r
      else if isBlockEnd (ev_type e) then
        match depth with
        | O => false
        | S d => keepsEntry name d r
        end
      else
        match depth, e with
        | O, EvProperty property _ _ false _ _ =>
            negb (String.eqb (JS.toLowerCase (tk_text property)) name) &&
            keepsEntry name O r
        | _, _ => keepsEntry name depth r
        end
  end.

(** Streams without the start of a block. *)
Definition noBlockStart (evs : list Event) : Prop :=
  Forall (fun e => isBlockStart (ev_type e) = false) evs.

(** What a stream of [keepsEntry] preserves: the entry of the block that
    was current when the stream began, found in [props] at depth 0 and on
    the stack below the nested blocks otherwise. *)
Definition entryKept (name vt : string) (depth : nat) (s : DupState) : Prop :=
  match depth with
  | O => exists o, d_props s = Some o /\ obj_own o name = Some (JString vt)
  | S d =>
      exists pre o rest,
        d_stack s = (pre ++ Some o :: rest)%list /\ List.length pre = d /\
        obj_own o name = Some (JString vt)
  end.

(** ** Further definitions: ruleset directives *)

(** The values a directive can write: the three levels, or a member of
    [Object.prototype] when the value names one. *)
Definition writtenLevel (v : JsVal) : bool :=
  match v with
  | JNum n => (0 <=? n) && (n <=? 2)
  | JObject => true
  | _ => false
  end.

Definition noneOf (seps : list ascii) (s : string) : bool :=
  strAll (fun c => negb (existsb (Ascii.eqb c) seps)) s.

(** [rs'] has every rule of [rs], and each of its entries is one of [rs]
    or holds a value a directive can write. *)
Definition keepsRules (rs rs' : Obj) : Prop :=
  forall k,
    (is_Some (obj_own rs k) -> is_Some (obj_own rs' k)) /\
    (forall v, obj_own rs' k = Some v ->
               obj_own rs k = Some v \/ writtenLevel v = true).

(** The message a rollup call stands for; other calls give none. *)
Definition rollupMessages (c : Call) : list Message :=
  match c with
  | CallRollupError m rl => [mkMessage TError true None None None m rl]
  | CallRollupWarn m rl => [mkMessage TWarning true None None None m rl]
  | _ => []
  end.

(** ** Further definitions: severity *)

(** The reporter [r] works in, holding no message yet. *)
Definition quiet (r : Reporter) : Reporter :=
  mkReporter [] (stats r) (lines r) (ruleset r) (allow r) (ignore r).

(** Calls that can only lead to a message through [report]. *)
Definition reportsOnly (c : Call) : bool :=
  match c with
  | CallReport _ _ _ | CallStat _ _ => true
  | _ => false
  end.

(** ** Further definitions: what the pattern of abbreviations matches *)

(** The names the pattern accepts: the four short ones, and [rel-] with
    three word characters. *)
Definition abbrKey (k : string) : Prop :=
  In k ["int"; "len"; "num"; "pct"] \/
  exists w1 w2 w3,
    k = "rel-" +:+ String w1 (String w2 (String w3 EmptyString)) /\
    JS.isWord w1 = true /\ JS.isWord w2 = true /\ JS.isWord w3 = true.

(** [s] starts with an occurrence: a hyphen or an opening bracket [c], a
    name [k], and then a character that is no word character. *)
Definition abbrAt (c : ascii) (k : string) (s : string) : Prop :=
  (c = "-"%char \/ c = "<"%char) /\ abbrKey k /\
  exists d b, s = String c (k +:+ String d b) /\ JS.isWord d = false.

(** No occurrence starts anywhere in [s]. *)
Definition abbrFree (s : string) : Prop :=
  forall a t c k, s = a +:+ t -> ~ abbrAt c k t.

(** No occurrence starts inside [a] when [t] follows it. *)
Definition abbrFreeBefore (a t : string) : Prop :=
  forall a1 a2 c k,
    a = a1 +:+ a2 -> a2 <> EmptyString -> ~ abbrAt c k (a2 +:+ t).

(** Whether the pattern matches at no position of [s]. *)
Fixpoint noAbbr (s : string) : bool :=
  match rxGrammarAbbr_at s with
  | Some _ => false
  | None =>
      match s with
      | EmptyString => true
      | String _ r => noAbbr r
      end
  end.

(** * Proofs *)

Lemma sameEnv_refl r : sameEnv r r.
Proof. by repeat split. Qed.

Lemma sameEnv_trans r1 r2 r3 : sameEnv r1 r2 -> sameEnv r2 r3 -> sameEnv r1 r3.
Proof.
  intros (?&?&?&?) (?&?&?&?). repeat split; congruence.
Qed.

Lemma callMessages_env h r r' c :
  sameEnv r r' -> callMessages h r c = callMessages h r' c.
Proof.
  intros (Hl & Hr & Ha & Hi).
  destruct c; simpl; unfold positional, allowed, ignored;
    rewrite ?Hl, ?Hr, ?Ha, ?Hi; reflexivity.
Qed.

Lemma perform_spec h r c :
  messages (perform h r c) = (messages r ++ callMessages h r c)%list /\
  sameEnv r (perform h r c).
Proof.
  destruct c as [m p rl|m p rl|m p rl|m rl|m rl|n v]; simpl;
    unfold error, report, info, rollupError, rollupWarn, stat, push; simpl;
    try (split; [reflexivity | by repeat split]).
  - destruct (allowed r _ rl || ignored r _); simpl.
    + split; [by rewrite app_nil_r | apply sameEnv_refl].
    + split; [reflexivity | by repeat split].
  - destruct (statSet (stats r) n v); simpl;
      (split; [by rewrite app_nil_r | by repeat split]).
Qed.

Lemma fold_perform_spec h cs : forall r,
  messages (fold_left (perform h) cs r) =
    (messages r ++ flat_map (callMessages h r) cs)%list /\
  sameEnv r (fold_left (perform h) cs r).
Proof.
  induction cs as [|c cs IH]; intros r; simpl.
  - split; [by rewrite app_nil_r | apply sameEnv_refl].
  - destruct (perform_spec h r c) as [Hm He].
    destruct (IH (perform h r c)) as [Hm' He'].
    split.
    + rewrite Hm', Hm, <- app_assoc. do 2 f_equal.
      apply flat_map_ext. intros a. symmetry. by apply callMessages_env.
    + eapply sameEnv_trans; eauto.
Qed.

Lemma runEvents_allCalls h evs : forall acts r,
  runEvents h evs acts r = fold_left (perform h) (allCalls evs acts) r.
Proof.
  induction evs as [|e evs IH]; intros acts r; simpl; [reflexivity|].
  destruct (dispatch e acts) as [acts' cs].
  by rewrite fold_left_app, IH.
Qed.

Lemma positional_wf r t m p rl : positionalMsg (positional r t m p rl).
Proof. split; [reflexivity|]. simpl. eauto. Qed.

Lemma callMessages_wf h r c : Forall wfMessage (callMessages h r c).
Proof.
  destruct c as [m p rl|m p rl|m p rl|m rl|m rl|n v]; simpl;
    try destruct (_ || _);
    repeat match goal with
           | |- Forall _ (_ :: _) => apply List.Forall_cons
           | |- Forall _ [] => apply List.Forall_nil
           end;
    try (left; apply positional_wf); right; by repeat split.
Qed.

Lemma flat_map_Forall {A B} (P : B -> Prop) (f : A -> list B) l :
  (forall a, Forall P (f a)) -> Forall P (flat_map f l).
Proof.
  intros H. induction l as [|a l IH]; simpl; [constructor|].
  apply Forall_app. by split.
Qed.

(** *** The comparator on well-formed messages *)

Lemma before_rollup_any x y :
  rollupMsg x -> wfMessage y -> before compareMessages x y = false.
Proof.
  intros (Hx & Hl & Hc) [(Hy & l & c & Hyl & Hyc) | (Hy & Hyl & Hyc)];
    unfold before, compareMessages; rewrite Hx, Hy, Hl, Hc; reflexivity.
Qed.

Lemma before_positional_rollup x y :
  positionalMsg x -> rollupMsg y -> before compareMessages x y = true.
Proof.
  intros (Hx & l & c & Hxl & Hxc) (Hy & Hyl & Hyc).
  unfold before, compareMessages. rewrite Hx, Hy. reflexivity.
Qed.

Lemma before_positional x y :
  positionalMsg x -> positionalMsg y ->
  if before compareMessages x y then posLe x y /\ ~ posLe y x else posLe y x.
Proof.
  intros (Hx & lx & cx & Hxl & Hxc) (Hy & ly & cy & Hyl & Hyc).
  unfold before, compareMessages, posLe.
  rewrite Hx, Hy, Hxl, Hxc, Hyl, Hyc. simpl.
  destruct (lx - ly =? 0) eqn:E.
  - apply Z.eqb_eq in E. destruct (cx - cy <? 0) eqn:F.
    + apply Z.ltb_lt in F. lia.
    + apply Z.ltb_ge in F. lia.
  - apply Z.eqb_neq in E. destruct (lx - ly <? 0) eqn:F.
    + apply Z.ltb_lt in F. lia.
    + apply Z.ltb_ge in F. lia.
Qed.

Lemma posLe_trans x y z : posLe x y -> posLe y z -> posLe x z.
Proof.
  unfold posLe.
  destruct (m_line x), (m_col x), (m_line y), (m_col y), (m_line z), (m_col z);
    try tauto; lia.
Qed.

Lemma sortInsert_perm {A} (cmp : A -> A -> option Z) x l :
  sortInsert cmp x l ≡ₚ x :: l.
Proof.
  induction l as [|y l IH]; simpl; [reflexivity|].
  destruct (before cmp x y); [reflexivity|].
  rewrite IH. apply Permutation_swap.
Qed.

Lemma jsSort_snoc {A} (cmp : A -> A -> option Z) l x :
  jsSort cmp (l ++ [x]) = sortInsert cmp x (jsSort cmp l).
Proof. unfold jsSort. by rewrite fold_left_app. Qed.

Lemma jsSort_perm {A} (cmp : A -> A -> option Z) l : jsSort cmp l ≡ₚ l.
Proof.
  induction l as [|x l IH] using rev_ind; [reflexivity|].
  rewrite jsSort_snoc, sortInsert_perm, IH.
  apply Permutation_cons_append.
Qed.

Lemma sortInsert_rollup x l :
  rollupMsg x -> Forall wfMessage l ->
  sortInsert compareMessages x l = (l ++ [x])%list.
Proof.
  intros Hx Hl. induction Hl as [|y l Hy Hl IH]; simpl; [reflexivity|].
  by rewrite (before_rollup_any x y Hx Hy), IH.
Qed.

Lemma sortInsert_positional x P R :
  positionalMsg x -> Forall rollupMsg R ->
  sortInsert compareMessages x (P ++ R) =
    (sortInsert compareMessages x P ++ R)%list.
Proof.
  intros Hx HR. induction P as [|y P IH]; simpl.
  - destruct HR as [|y R Hy HR]; simpl; [reflexivity|].
    by rewrite (before_positional_rollup x y Hx Hy).
  - destruct (before compareMessages x y); [reflexivity|]. by rewrite IH.
Qed.

Lemma sortInsert_sorted x P :
  positionalMsg x -> Forall positionalMsg P -> StronglySorted posLe P ->
  StronglySorted posLe (sortInsert compareMessages x P).
Proof.
  intros Hx HP HS. induction HS as [|y P HS IH Hy]; simpl.
  - repeat constructor.
  - apply Forall_cons in HP as [Hpy HP].
    pose proof (before_positional x y Hx Hpy) as Hb.
    destruct (before compareMessages x y).
    + constructor; [by constructor|].
      constructor; [tauto|].
      eapply Forall_impl; [exact Hy|]. intros z Hz.
      eapply posLe_trans; [|exact Hz]. tauto.
    + constructor; [by apply IH|].
      rewrite sortInsert_perm. by constructor.
  Qed.

Lemma filter_snoc {A} (f : A -> bool) l x :
  List.filter f (l ++ [x]) =
    (List.filter f l ++ if f x then [x] else [])%list.
Proof. rewrite List.filter_app. simpl. by destruct (f x). Qed.

(** The sort puts the positional messages first, ascending by line then
    column, and leaves the rollup messages behind them in their order. *)
Lemma jsSort_shape l :
  Forall wfMessage l ->
  exists P,
    jsSort compareMessages l = (P ++ List.filter m_rollup l)%list /\
    Forall positionalMsg P /\ StronglySorted posLe P /\
    P ≡ₚ List.filter (fun m => negb (m_rollup m)) l.
Proof.
  induction l as [|x l IH] using rev_ind; intros Hwf.
  - exists []. repeat split; constructor.
  - apply Forall_app in Hwf as [Hl Hx]. apply Forall_cons in Hx as [Hx _].
    destruct (IH Hl) as (P & HP & Hpos & Hsorted & Hperm).
    assert (HR : Forall rollupMsg (List.filter m_rollup l)).
    { apply Forall_forall. intros m Hm. apply list_elem_of_In in Hm.
      apply List.filter_In in Hm as [Hin Hr].
      rewrite Forall_forall in Hl. apply list_elem_of_In in Hin.
      destruct (Hl m Hin) as [[Hf _]|?]; [congruence|done]. }
    rewrite jsSort_snoc, HP, !filter_snoc.
    destruct Hx as [Hx | Hx].
    + destruct Hx as [Hr Hlc]. rewrite Hr. simpl.
      exists (sortInsert compareMessages x P). rewrite !app_nil_r.
      assert (Hx : positionalMsg x) by (split; done).
      split; [by apply sortInsert_positional|].
      split; [rewrite sortInsert_perm; by constructor|].
      split; [by apply sortInsert_sorted|].
      rewrite sortInsert_perm, Hperm. apply Permutation_cons_append.
    + pose proof Hx as [Hr _]. rewrite Hr. simpl.
      exists P. rewrite app_nil_r.
      split; [|done].
      rewrite sortInsert_rollup, <- app_assoc; [done|done|].
      apply Forall_app. split.
      * eapply Forall_impl; [exact Hpos|]. by left.
      * eapply Forall_impl; [exact HR|]. by right.
Qed.

(** *** The messages of a [verify] call *)

Section EngineFacts.

Variable rules : list RuleDef.
Variable parse : string -> bool -> list Event * option Exn.

Lemma verifyMessages_eq text arg reuse h :
  verifyMessages rules parse text arg reuse h =
    List.map postprocess
      (jsSort compareMessages (messages (emitted rules parse text arg reuse h))).
Proof.
  unfold verifyMessages, verify.
  by destruct (prepare rules text arg h) as [[[l h1] al] ig].
Qed.

(** The messages before the sort: those of the listeners' calls, then the
    fatal error when the parser threw. *)
Lemma emitted_spec text arg reuse h :
  exists l h1 al ig,
    prepare rules text arg h = (l, h1, al, ig) /\
    messages (emitted rules parse text arg reuse h) =
      (flat_map (callMessages (forceErrors l h1) (newReporter [] l al ig))
         (allCalls (fst (parse text reuse))
            (List.map snd (attach rules (deref (forceErrors l h1) l)))) ++
       match snd (parse text reuse) with
       | Some x =>
           [positional (newReporter [] l al ig) TError (fatalText x)
              (mkPos (ex_line x) (ex_col x)) None]
       | None => []
       end)%list.
Proof.
  unfold emitted.
  destruct (prepare rules text arg h) as [[[l h1] al] ig].
  exists l, h1, al, ig. split; [reflexivity|].
  destruct (parse text reuse) as [evs ex]. simpl.
  rewrite runEvents_allCalls.
  destruct (fold_perform_spec (forceErrors l h1)
              (allCalls evs (List.map snd (attach rules (deref (forceErrors l h1) l))))
              (newReporter [] l al ig)) as [Hm (Hl & _)].
  destruct ex as [x|]; simpl.
  - rewrite Hm. simpl. unfold positional. by rewrite <- Hl.
  - rewrite Hm. simpl. by rewrite app_nil_r.
Qed.

Lemma emitted_wf text arg reuse h :
  Forall wfMessage (messages (emitted rules parse text arg reuse h)).
Proof.
  destruct (emitted_spec text arg reuse h) as (l & h1 & al & ig & _ & ->).
  apply Forall_app. split.
  - apply flat_map_Forall. intros c. apply callMessages_wf.
  - destruct (snd (parse text reuse)); constructor; [|constructor].
    left. apply positional_wf.
Qed.

End EngineFacts.

Lemma postprocess_sorted P :
  StronglySorted posLe P -> StronglySorted posLe (List.map postprocess P).
Proof.
  induction 1 as [|x P HS IH Hx]; simpl; constructor; [done|].
  apply Forall_fmap. eapply Forall_impl; [exact Hx|]. by intros y Hy.
Qed.

Lemma filter_map_postprocess (f : Message -> bool) l :
  (forall m, f (postprocess m) = f m) ->
  List.filter f (List.map postprocess l) =
    List.map postprocess (List.filter f l).
Proof.
  intros Hf. induction l as [|m l IH]; simpl; [reflexivity|].
  rewrite Hf. destruct (f m); simpl; by rewrite IH.
Qed.

(** C1. The messages [verify] returns are the positional (non-rollup)
    messages, ascending by line and then by column, followed by the rollup
    messages in the order in which the rules emitted them. *)
Theorem verify_messages_order rules parse text arg reuse h :
  exists P,
    verifyMessages rules parse text arg reuse h =
      (P ++ List.map postprocess
              (List.filter m_rollup
                 (messages (emitted rules parse text arg reuse h))))%list /\
    Forall (fun m => m_rollup m = false) P /\
    StronglySorted posLe P /\
    P ≡ₚ List.map postprocess
           (List.filter (fun m => negb (m_rollup m))
              (messages (emitted rules parse text arg reuse h))).
Proof.
  rewrite verifyMessages_eq.
  destruct (jsSort_shape _ (emitted_wf rules parse text arg reuse h))
    as (P & HP & Hpos & Hsorted & Hperm).
  exists (List.map postprocess P). rewrite HP, List.map_app.
  split; [reflexivity|].
  split; [|split].
  - apply Forall_fmap. eapply Forall_impl; [exact Hpos|]. by intros m [? _].
  - by apply postprocess_sorted.
  - by apply Permutation_map.
Qed.

(** *** What [verify] returns *)

Lemma statGet_put_same l n v : statGet (statPut l n v) n = Some v.
Proof.
  unfold statGet. induction l as [|[k w] l IH]; simpl.
  - by rewrite String.eqb_refl.
  - destruct (String.eqb k n) eqn:E; simpl; rewrite E; [reflexivity|exact IH].
Qed.

Lemma statGet_put_other l k n v :
  k <> n -> statGet (statPut l k v) n = statGet l n.
Proof.
  intros Hne. unfold statGet. induction l as [|[k' w] l IH]; simpl.
  - destruct (String.eqb_spec k n); [congruence|reflexivity].
  - destruct (String.eqb_spec k' k) as [->|Hk]; simpl.
    + destruct (String.eqb_spec k n); [congruence|reflexivity].
    + destruct (String.eqb k' n); [reflexivity|exact IH].
Qed.

(** What an assignment to the statistics array leaves under its name. *)
Lemma statSet_recorded l n v :
  match statSet l n v with
  | Some l' =>
      statGet l' n = if String.eqb n "__proto__" then statGet l n else Some v
  | None => n = "length" /\ validLength v = false
  end.
Proof.
  unfold statSet.
  destruct (String.eqb_spec n "length") as [->|Hlen].
  { destruct (validLength v); [|done]. cbn [String.eqb].
    change (String.eqb "length" "__proto__") with false.
    apply statGet_put_same. }
  destruct (String.eqb_spec n "__proto__") as [->|Hproto]; [reflexivity|].
  destruct (arrayIndex n) as [i|]; [|apply statGet_put_same].
  destruct (_ <? _); [|apply statGet_put_same].
  rewrite statGet_put_other by congruence. apply statGet_put_same.
Qed.

Lemma stat_messages r n v r' : stat r n v = Some r' -> messages r' = messages r.
Proof.
  unfold stat. destruct (statSet (stats r) n v); [|done]. by intros [= <-].
Qed.

(** C2, as the specification states it, fails: the object [verify]
    returns for ten floats has no [stats] property, although the floats
    rule recorded its count through [reporter.stat]. *)
Lemma verify_result_lacks_stats :
  ~ exists ms st,
      let res := snd (verify Sample.registry
                        (Sample.emits (Sample.floatsEvents 10 ++ [EvEndStylesheet]) None)
                        (Sample.floatsText 10) None false ∅) in
      fieldGet res "messages" = Some (FMessages ms) /\
      fieldGet res "stats" = Some (FStats st).
Proof. intros (ms & st & _ & H). vm_compute in H. discriminate. Qed.

(** C2, amended. The object [verify] returns has the single property
    [messages].  What [reporter.stat] records stays in the reporter's own
    [stats], an Array: the assignment adds no message; it stores the value
    under its name, except that the name [__proto__] stores nothing; and
    it throws exactly for the name [length] with a value that is no array
    length. *)
Theorem verify_returns_messages_only rules parse text arg reuse h :
  snd (verify rules parse text arg reuse h) =
    [("messages", FMessages (verifyMessages rules parse text arg reuse h))] /\
  fieldGet (snd (verify rules parse text arg reuse h)) "stats" = None /\
  forall r n v,
    match stat r n v with
    | Some r' =>
        messages r' = messages r /\
        statGet (stats r') n =
          (if String.eqb n "__proto__" then statGet (stats r) n else Some v) /\
        (String.eqb n "length" && negb (validLength v) = false)
    | None => n = "length" /\ validLength v = false
    end.
Proof.
  unfold verifyMessages, verify.
  destruct (prepare rules text arg h) as [[[l h1] al] ig]. simpl.
  split; [reflexivity|]. split; [reflexivity|]. intros r n v.
  pose proof (statSet_recorded (stats r) n v) as Hrec.
  unfold stat. destruct (statSet (stats r) n v) as [st|] eqn:E; cbn.
  - split; [reflexivity|]. split; [exact Hrec|].
    unfold statSet in E.
    destruct (String.eqb n "length"); [|reflexivity].
    by destruct (validLength v).
  - exact Hrec.
Qed.

(** *** The probe and the directive scan *)

(** C3. On a text whose directives are written in upper case and do not
    start the text, the probe yields -1 and [verify] skips the scan, so it
    keeps the ruleset, an empty allow table and no ignore range; the scan
    of the whole text finds the ignore range of lines 2 to 4.  The
    [!important] on line 3 is therefore reported. *)
Theorem probe_skips_uppercase_directives :
  probe Sample.upperIgnore = -1 /\
  scanProbed Sample.upperIgnore Sample.oneRuleset =
    (Sample.oneRuleset, ∅, []) /\
  scanUnconditionally Sample.upperIgnore Sample.oneRuleset =
    (Sample.oneRuleset, ∅, [(2, 4)]) /\
  List.map m_line
    (verifyMessages Sample.registry
       (Sample.emits Sample.upperIgnoreEvents None)
       Sample.upperIgnore None false ∅) = [Some 3].
Proof. vm_compute. repeat split; reflexivity. Qed.

(** C6. For an [ignore:start] on line 1 of a three-line text with no
    [ignore:end], the range appended ends at line 1, the line of the last
    directive, not at line 3, the final line of the text. *)
Theorem open_ignore_ends_at_last_directive :
  applyEmbeddedOverrides Sample.openIgnore (probe Sample.openIgnore) [] ∅ [] =
    ([], ∅, [(1, 1)]) /\
  lineCount Sample.openIgnore = 3.
Proof. vm_compute. split; reflexivity. Qed.

(** *** Evidence *)

Lemma evidenceAt_nil line : evidenceAt [] line = None.
Proof.
  unfold evidenceAt. destruct (1 <=? line); [|reflexivity].
  by destruct (Z.to_nat (line - 1)).
Qed.

Lemma callMessages_evidence h r c :
  lines r = [] -> Forall (fun m => m_evidence m = None) (callMessages h r c).
Proof.
  intros Hl.
  destruct c as [m p rl|m p rl|m p rl|m rl|m rl|n v]; simpl;
    try destruct (_ || _);
    repeat match goal with
           | |- Forall _ (_ :: _) => apply List.Forall_cons
           | |- Forall _ [] => apply List.Forall_nil
           end;
    simpl; rewrite ?Hl; try apply evidenceAt_nil; reflexivity.
Qed.

(** The reporter of [verify] is built over an empty array of lines, so no
    message of a [verify] call carries evidence. *)
Lemma verify_evidence_absent rules parse text arg reuse h :
  Forall (fun m => m_evidence m = None)
    (verifyMessages rules parse text arg reuse h).
Proof.
  rewrite verifyMessages_eq. apply Forall_fmap.
  rewrite jsSort_perm.
  destruct (emitted_spec rules parse text arg reuse h)
    as (l & h1 & al & ig & _ & ->).
  apply Forall_app. split.
  - apply flat_map_Forall. intros c. eapply Forall_impl.
    + by apply callMessages_evidence.
    + by intros m Hm.
  - destruct (snd (parse text reuse)); constructor; [|constructor].
    simpl. apply evidenceAt_nil.
Qed.

(** C9. For the one-line text [a{color:red!important}] the important rule
    reports at line 1, column 3; the message has no evidence, while line 1
    of the source is the text itself. *)
Theorem positional_message_without_evidence :
  verifyMessages Sample.registry (Sample.emits Sample.importantEvents None)
    Sample.importantText None false ∅ =
    [mkMessage TWarning false None (Some 1) (Some 3) "!important."
       (Some (r_rule important_def))] /\
  evidenceAt (JS.split "010" Sample.importantText) 1 =
    Some Sample.importantText.
Proof. vm_compute. split; reflexivity. Qed.

(** *** The caller's ruleset object *)

Lemma fresh_not_allocated (h : Store) l o :
  h !! l = Some o -> fresh (dom h) <> l.
Proof.
  intros Hl E. apply (is_fresh (dom h)). rewrite E.
  apply elem_of_dom. by exists o.
Qed.

(** *** Reporter filtering *)

Lemma ignored_spec r line :
  ignored r line = true <->
  exists s e, In (s, e) (ignore r) /\ s <= line <= e.
Proof.
  unfold ignored. rewrite existsb_exists. split.
  - intros ([s e] & Hin & Hr). simpl in Hr.
    apply andb_true_iff in Hr as [H1 H2].
    apply Z.leb_le in H1, H2. eauto.
  - intros (s & e & Hin & H1 & H2). exists (s, e). split; [done|]. simpl.
    apply andb_true_iff. split; by apply Z.leb_le.
Qed.

Lemma allowed_spec r line rule :
  allowed r line rule = true <->
  exists o, allow r !! line = Some o /\ obj_in (id rule) o = true.
Proof.
  unfold allowed. destruct (allow r !! line) as [o|].
  - split; [eauto|]. by intros (o' & [= <-] & H).
  - split; [done|]. by intros (o' & [=] & _).
Qed.

(** C4. [report] appends its message unless the rule id is allow-listed
    on that very line or the line lies in an ignore range, so an ignore
    range from [s] to [e] suppresses every reported message of a line in
    between; [error], which is what the always-forced errors rule calls,
    and the two rollup operations append whatever allow and ignore hold. *)
Theorem report_suppression h r message pos rule :
  let line := default 1 (p_line pos) in
  messages (report h r message pos rule) =
    (if allowed r line rule || ignored r line then messages r
     else messages r ++
          [positional r
             (if isTwo (obj_get (deref h (ruleset r)) (id rule))
              then TError else TWarning) message pos (Some rule)])%list /\
  (allowed r line rule = true <->
   exists o, allow r !! line = Some o /\ obj_in (id rule) o = true) /\
  (ignored r line = true <->
   exists s e, In (s, e) (ignore r) /\ s <= line <= e) /\
  (forall rl,
     messages (error r message pos rl) =
       (messages r ++ [positional r TError message pos rl])%list /\
     messages (rollupError r message rl) =
       (messages r ++ [mkMessage TError true None None None message rl])%list /\
     messages (rollupWarn r message rl) =
       (messages r ++ [mkMessage TWarning true None None None message rl])%list) /\
  listenerCalls (fun c => exists m p, c = CallError m p (Some rule))
    (errors_init rule).
Proof.
  intros line. split; [|split; [|split; [|split]]].
  - unfold report. fold line. by destruct (allowed r line rule || ignored r line).
  - apply allowed_spec.
  - apply ignored_spec.
  - intros rl. by repeat split.
  - intros t f e st [[= <- <-]|[]]. destruct e; simpl; repeat constructor; eauto.
Qed.

(** *** Which rule makes which call *)

Lemma fireHandlers_calls {St} (C : Call -> Prop) e
    (hs : list (string * (Event -> St -> St * list Call))) :
  (forall t f e st, In (t, f) hs -> Forall C (snd (f e st))) ->
  forall st, Forall C (snd (fireHandlers e hs st)).
Proof.
  induction hs as [|[t f] hs IH]; intros H st; simpl; [constructor|].
  assert (Hhs : forall t f e st, In (t, f) hs -> Forall C (snd (f e st))).
  { intros t' f' e' st' Hin. apply (H t'). by right. }
  destruct (String.eqb t (ev_type e)); [|by apply IH].
  pose proof (H t f e st (or_introl eq_refl)) as Hf.
  destruct (f e st) as [st1 c1].
  pose proof (IH Hhs st1) as Hr.
  destruct (fireHandlers e hs st1) as [st2 c2]. simpl in *.
  apply Forall_app. by split.
Qed.

Lemma fire_listener e a : a_listener (fst (fire e a)) = a_listener a.
Proof.
  unfold fire. by destruct (fireHandlers e _ (a_state a)).
Qed.

Lemma fire_calls C e a :
  listenerCalls C (a_listener a) -> Forall C (snd (fire e a)).
Proof.
  intros H. unfold fire.
  pose proof (fireHandlers_calls C e (l_handlers (a_listener a)) H (a_state a)).
  by destruct (fireHandlers e _ (a_state a)).
Qed.

Lemma dispatch_app e l1 l2 :
  dispatch e (l1 ++ l2) =
    ((fst (dispatch e l1) ++ fst (dispatch e l2))%list,
     (snd (dispatch e l1) ++ snd (dispatch e l2))%list).
Proof.
  induction l1 as [|a l1 IH]; simpl.
  - by destruct (dispatch e l2).
  - destruct (fire e a) as [a' c1]. rewrite IH.
    destruct (dispatch e l1) as [r' c2]. simpl. by rewrite app_assoc.
Qed.

Lemma dispatch_calls C e acts :
  Forall (fun a => listenerCalls C (a_listener a)) acts ->
  Forall C (snd (dispatch e acts)) /\
  Forall (fun a => listenerCalls C (a_listener a)) (fst (dispatch e acts)).
Proof.
  induction 1 as [|a acts Ha Hacts [IH1 IH2]]; simpl.
  - split; constructor.
  - pose proof (fire_calls C e a Ha) as Hc.
    pose proof (fire_listener e a) as Hl.
    destruct (fire e a) as [a' c1]. destruct (dispatch e acts) as [r' c2].
    simpl in *. split.
    + apply Forall_app. by split.
    + constructor; [by rewrite Hl | done].
Qed.

Lemma allCalls_calls C evs : forall acts,
  Forall (fun a => listenerCalls C (a_listener a)) acts ->
  Forall C (allCalls evs acts).
Proof.
  induction evs as [|e evs IH]; intros acts H; simpl; [constructor|].
  destruct (dispatch_calls C e acts H) as [H1 H2].
  destruct (dispatch e acts) as [acts' cs]. simpl in *.
  apply Forall_app. split; [done | by apply IH].
Qed.

Lemma filter_none {A} (p : A -> bool) l :
  Forall (fun x => p x = false) l -> List.filter p l = [].
Proof.
  induction 1 as [|x l Hx _ IH]; simpl; [reflexivity|]. by rewrite Hx.
Qed.

(** Listeners that never make a call selected by [p] can be left out of
    the account of the calls [p] selects. *)
Lemma allCalls_filter (p : Call -> bool) evs : forall pre a post,
  Forall (fun a => listenerCalls (fun c => p c = false) (a_listener a)) pre ->
  Forall (fun a => listenerCalls (fun c => p c = false) (a_listener a)) post ->
  List.filter p (allCalls evs (pre ++ a :: post)) =
    List.filter p (allCalls evs [a]).
Proof.
  induction evs as [|e evs IH]; intros pre a post Hpre Hpost; simpl;
    [reflexivity|].
  rewrite (dispatch_app e pre (a :: post)). simpl.
  destruct (dispatch_calls _ e pre Hpre) as [Hc1 Hl1].
  destruct (dispatch_calls _ e post Hpost) as [Hc2 Hl2].
  destruct (fire e a) as [a' ca].
  destruct (dispatch e pre) as [pre' c1].
  destruct (dispatch e post) as [post' c2]. simpl in *.
  rewrite !List.filter_app, (filter_none p c1 Hc1), (filter_none p c2 Hc2).
  simpl. rewrite !app_nil_r. f_equal. by apply IH.
Qed.

Lemma callMessages_id h r c :
  Forall (fun m => msgId m = callId c) (callMessages h r c).
Proof.
  destruct c as [m p rl|m p rl|m p rl|m rl|m rl|n v]; simpl;
    try destruct (_ || _);
    repeat match goal with
           | |- Forall _ (_ :: _) => apply List.Forall_cons
           | |- Forall _ [] => apply List.Forall_nil
           end; reflexivity.
Qed.

Lemma filter_flat_map {A B} (p : A -> bool) (q : B -> bool)
    (f : A -> list B) l :
  (forall a, Forall (fun b => q b = p a) (f a)) ->
  List.filter q (flat_map f l) = flat_map f (List.filter p l).
Proof.
  intros H. induction l as [|a l IH]; simpl; [reflexivity|].
  rewrite List.filter_app, IH.
  assert (Hq : List.filter q (f a) = if p a then f a else []).
  { specialize (H a). induction H as [|b k Hb _ IHk]; simpl.
    - by destruct (p a).
    - rewrite Hb, IHk. by destruct (p a). }
  rewrite Hq. by destruct (p a).
Qed.

(** *** Enumeration order *)

Lemma insertIndexed_perm {V} n (e : string * V) l :
  insertIndexed n e l ≡ₚ (n, e) :: l.
Proof.
  induction l as [|[m e'] l IH]; simpl; [reflexivity|].
  destruct (n <? m); [reflexivity|]. rewrite IH. apply Permutation_swap.
Qed.

Lemma indexedEntries_perm {V} (o : list (string * V)) :
  List.map snd (indexedEntries o) ≡ₚ List.filter isIndexKey o.
Proof.
  unfold indexedEntries.
  assert (G : forall acc,
    List.map snd
      (fold_left (fun acc e => match arrayIndex (fst e) with
                               | Some n => insertIndexed n e acc
                               | None => acc
                               end) o acc)
    ≡ₚ (List.map snd acc ++ List.filter isIndexKey o)%list).
  { induction o as [|e o IH]; intros acc; simpl.
    - by rewrite app_nil_r.
    - rewrite IH. unfold isIndexKey at 2.
      destruct (arrayIndex (fst e)) as [n|]; [|reflexivity].
      rewrite insertIndexed_perm. simpl.
      apply Permutation_middle. }
  apply (G []).
Qed.

Lemma filter_split_perm {A} (f : A -> bool) l :
  (List.filter f l ++ List.filter (fun x => negb (f x)) l)%list ≡ₚ l.
Proof.
  induction l as [|x l IH]; simpl; [reflexivity|].
  destruct (f x); simpl.
  - by rewrite IH.
  - rewrite <- Permutation_middle. by rewrite IH.
Qed.

Lemma entries_perm {V} (o : list (string * V)) : entries o ≡ₚ o.
Proof.
  unfold entries. rewrite indexedEntries_perm.
  rewrite <- (filter_split_perm isIndexKey o) at 3.
  reflexivity.
Qed.

Lemma obj_own_NoDup (o : Obj) k v :
  NoDup (List.map fst o) -> In (k, v) o -> obj_own o k = Some v.
Proof.
  induction o as [|[k' v'] o IH]; simpl; [done|].
  intros Hnd [Hin|Hin].
  - injection Hin as -> ->. by rewrite String.eqb_refl.
  - apply NoDup_cons in Hnd as [Hk Hnd].
    destruct (String.eqb k' k) eqn:E.
    + apply String.eqb_eq in E as ->. exfalso. apply Hk.
      apply list_elem_of_In. change k with (fst (k, v)). by apply in_map.
    + by apply IH.
Qed.

Lemma obj_own_In (o : Obj) k v : obj_own o k = Some v -> In (k, v) o.
Proof.
  induction o as [|[k' v'] o IH]; simpl; [done|].
  destruct (String.eqb k' k) eqn:E.
  - apply String.eqb_eq in E as ->. intros [= ->]. by left.
  - intros H. right. by apply IH.
Qed.

Lemma filter_perm {A} (f : A -> bool) l l' :
  l ≡ₚ l' -> List.filter f l ≡ₚ List.filter f l'.
Proof.
  induction 1 as [|x l l' _ IH|x y l|l l' l'' _ IH1 _ IH2]; simpl.
  - reflexivity.
  - destruct (f x); by rewrite IH.
  - destruct (f x), (f y); try reflexivity. apply Permutation_swap.
  - by rewrite IH1.
Qed.

Lemma filter_nil_Forall {A} (f : A -> bool) l :
  List.filter f l = [] -> Forall (fun x => f x = false) l.
Proof.
  induction l as [|x l IH]; simpl; [constructor|].
  destruct (f x) eqn:E; [done|]. intros H. constructor; [done | by apply IH].
Qed.

Lemma idIs_false i o : idIs i o = false -> o <> Some i.
Proof. intros H ->. simpl in H. by rewrite String.eqb_refl in H. Qed.

Section Attribution.

Variable rules : list RuleDef.
Variable parse : string -> bool -> list Event * option Exn.

Lemma lookupRule_Some j d :
  lookupRule rules j = Some d -> In d rules /\ id (r_rule d) = j.
Proof.
  unfold lookupRule. intros H. apply List.find_some in H as [Hin He].
  split; [done|]. by apply String.eqb_eq.
Qed.

(** An entry under another key, or with a falsy level, attaches nothing
    that makes a call under [i]. *)
Lemma attachEntry_quiet i e :
  honest rules -> fst e <> i \/ truthy (snd e) = false ->
  Forall (fun a => listenerCalls (fun c => idIs i (callId c) = false)
                     (a_listener a))
    (List.map snd (attachEntry rules e)).
Proof.
  intros Hh Hne. unfold attachEntry.
  destruct (truthy (snd e)) eqn:T; [|constructor].
  destruct Hne as [Hne|Hne]; [|done].
  destruct (lookupRule rules (fst e)) as [d|] eqn:E; [|constructor].
  apply lookupRule_Some in E as [Hin Hid].
  unfold honest in Hh. rewrite Forall_forall in Hh.
  apply list_elem_of_In in Hin. specialize (Hh d Hin).
  simpl. constructor; [|constructor]. simpl.
  intros t f ev st Hf. eapply Forall_impl; [exact (Hh t f ev st Hf)|].
  intros c [Hc|Hc]; rewrite Hc; simpl; [reflexivity|].
  rewrite Hid. apply String.eqb_neq. done.
Qed.

Lemma attach_quiet i (es : list (string * JsVal)) :
  honest rules ->
  Forall (fun e => fst e <> i \/ truthy (snd e) = false) es ->
  Forall (fun a => listenerCalls (fun c => idIs i (callId c) = false)
                     (a_listener a))
    (List.map snd (flat_map (attachEntry rules) es)).
Proof.
  intros Hh. induction 1 as [|e es He _ IH]; simpl; [constructor|].
  rewrite List.map_app. apply Forall_app. split; [|done].
  by apply attachEntry_quiet.
Qed.

(** The messages of one rule id, before the sort. *)
Lemma emitted_filter_id text arg reuse h i :
  exists l h1 al ig,
    prepare rules text arg h = (l, h1, al, ig) /\
    List.filter (fun m => idIs i (msgId m))
      (messages (emitted rules parse text arg reuse h)) =
    flat_map (callMessages (forceErrors l h1) (newReporter [] l al ig))
      (List.filter (fun c => idIs i (callId c))
         (allCalls (fst (parse text reuse))
            (List.map snd (attach rules (deref (forceErrors l h1) l))))).
Proof.
  destruct (emitted_spec rules parse text arg reuse h)
    as (l & h1 & al & ig & Hp & ->).
  exists l, h1, al, ig. split; [done|].
  rewrite List.filter_app.
  rewrite (filter_flat_map (fun c => idIs i (callId c))).
  - destruct (snd (parse text reuse)); simpl; by rewrite app_nil_r.
  - intros c. eapply Forall_impl; [apply callMessages_id|].
    intros m Hm. simpl in Hm. by rewrite Hm.
Qed.

Lemma verifyMessages_filter_id text arg reuse h i :
  List.filter (fun m => idIs i (msgId m))
    (verifyMessages rules parse text arg reuse h) ≡ₚ
  List.map postprocess
    (List.filter (fun m => idIs i (msgId m))
       (messages (emitted rules parse text arg reuse h))).
Proof.
  rewrite verifyMessages_eq, filter_map_postprocess by done.
  apply Permutation_map, filter_perm, jsSort_perm.
Qed.

Lemma effectiveRuleset_eq text arg reuse h :
  deref (fst (verify rules parse text arg reuse h))
    (ruleset (emitted rules parse text arg reuse h)) =
  effectiveRuleset rules text arg h.
Proof.
  unfold verify, effectiveRuleset, emitted.
  destruct (prepare rules text arg h) as [[[l h1] al] ig].
  destruct (parse text reuse) as [evs ex]. simpl.
  rewrite runEvents_allCalls.
  destruct (fold_perform_spec (forceErrors l h1)
              (allCalls evs (List.map snd (attach rules (deref (forceErrors l h1) l))))
              (newReporter [] l al ig)) as [_ (_ & Hr & _)].
  destruct ex; simpl; by rewrite <- Hr.
Qed.

End Attribution.

Lemma obj_get_own (o : Obj) k n :
  obj_get o k = Some (JNum n) -> obj_own o k = Some (JNum n).
Proof.
  unfold obj_get. destruct (obj_own o k); [done|].
  by destruct (JS.isProtoKey k).
Qed.

Lemma attachEntry_key rules e j a :
  In (j, a) (attachEntry rules e) -> fst e = j /\ truthy (snd e) = true.
Proof.
  unfold attachEntry. destruct (truthy (snd e)); [|done].
  destruct (lookupRule rules (fst e)); [|done].
  intros [[= <- _]|[]]. done.
Qed.

Lemma sample_registry_honest : honest Sample.registry.
Proof.
  repeat apply List.Forall_cons; try apply List.Forall_nil;
    intros t f e st Hin; simpl in Hin;
    repeat (destruct Hin as [Hin|Hin]; [injection Hin as <- <-|]);
    try done; destruct e; simpl;
    repeat match goal with
           | |- context [if ?b then _ else _] => destruct b
           end;
    simpl;
    repeat match goal with
           | |- Forall _ (_ :: _) => apply List.Forall_cons
           | |- Forall _ [] => apply List.Forall_nil
           end;
    simpl; first [by left | by right].
Qed.

(** *** The floats rule *)

Lemma countFloats_cons e evs :
  countFloats (e :: evs) = (if floatEvent e then 1 else 0) + countFloats evs.
Proof.
  unfold countFloats. simpl. destruct (floatEvent e); simpl length; lia.
Qed.

Lemma dispatch_floats rule e c :
  ev_type e <> "endstylesheet" ->
  dispatch e [mkActive (floats_init rule) c] =
    ([mkActive (floats_init rule) (c + if floatEvent e then 1 else 0)], []).
Proof.
  intros Ht. unfold dispatch, fire.
  cbn [l_handlers floats_init a_listener a_state fireHandlers].
  destruct e as [p v im ip ln cl|m ln cl| |t ln cl]; cbn [ev_type] in *.
  - simpl. reflexivity.
  - simpl. by rewrite Z.add_0_r.
  - done.
  - assert (E : String.eqb "endstylesheet" t = false).
    { apply String.eqb_neq. congruence. }
    rewrite E. destruct (String.eqb "property" t); simpl; by rewrite Z.add_0_r.
Qed.

(** Over a stylesheet that ends once, the floats listener records its
    count and issues the rollup warning from ten floats on. *)
Lemma floats_calls rule evs : forall c,
  Forall (fun e => ev_type e <> "endstylesheet") evs ->
  allCalls (evs ++ [EvEndStylesheet]) [mkActive (floats_init rule) c] =
    CallStat "floats" (c + countFloats evs) ::
    (if 10 <=? c + countFloats evs
     then [CallRollupWarn (floatsMessage (c + countFloats evs)) (Some rule)]
     else []).
Proof.
  induction evs as [|e evs IH]; intros c Hevs.
  - unfold countFloats. simpl. unfold fire. simpl.
    rewrite Z.add_0_r. destruct (10 <=? c); reflexivity.
  - apply Forall_cons in Hevs as [He Hevs].
    change ((e :: evs) ++ [EvEndStylesheet])%list
      with (e :: (evs ++ [EvEndStylesheet]))%list.
    cbn [allCalls]. rewrite (dispatch_floats rule e c He).
    rewrite (IH _ Hevs), countFloats_cons, Z.add_assoc. reflexivity.
Qed.

Lemma NoDup_split_keys {V} (A B : list (string * V)) x :
  NoDup (List.map fst (A ++ x :: B)) ->
  Forall (fun e => fst e <> fst x) A /\ Forall (fun e => fst e <> fst x) B.
Proof.
  rewrite List.map_app. simpl. intros H.
  apply NoDup_app in H as (_ & Hd & HB).
  apply NoDup_cons in HB as [HxB _].
  split; apply Forall_forall; intros e He E.
  - apply (Hd (fst e)).
    + apply list_elem_of_fmap. by exists e.
    + rewrite E. by left.
  - apply HxB. rewrite <- E. apply list_elem_of_fmap. by exists e.
Qed.

(** C7. The floats rule is exact at its boundary: with the rule enabled
    and a stylesheet that ends once, nine float declarations whose value
    is not none leave no message of the rule in the result, and ten leave
    exactly one, a rollup warning whose text cites the count 10. *)
Theorem floats_threshold rules parse text arg reuse h evs ex v :
  honest rules ->
  lookupRule rules "floats" = Some floats_def ->
  NoDup (List.map fst (effectiveRuleset rules text arg h)) ->
  obj_own (effectiveRuleset rules text arg h) "floats" = Some v ->
  truthy v = true ->
  parse text reuse = ((evs ++ [EvEndStylesheet])%list, ex) ->
  Forall (fun e => ev_type e <> "endstylesheet") evs ->
  let fl := List.filter (fun m => idIs "floats" (msgId m))
              (verifyMessages rules parse text arg reuse h) in
  (countFloats evs = 9 -> fl = []) /\
  (countFloats evs = 10 ->
   fl = [mkMessage TWarning true None None None
           ("Too many floats (10), you're probably using them for layout. " +:+
            "Consider using a grid system instead.")
           (Some (r_rule floats_def))]).
Proof.
  intros Hh Hreg Hnd Hown Htruthy Hparse Hevs fl.
  assert (Hfl : fl ≡ₚ List.map postprocess
                  (if 10 <=? countFloats evs
                   then [floatsWarning (countFloats evs)] else [])).
  { unfold fl. rewrite verifyMessages_filter_id.
    destruct (emitted_filter_id rules parse text arg reuse h "floats")
      as (l & h1 & al & ig & Hp & ->).
    unfold effectiveRuleset in Hnd, Hown. rewrite Hp in Hnd, Hown.
    set (eff := deref (forceErrors l h1) l) in *.
    apply obj_own_In in Hown. rewrite <- (entries_perm eff) in Hown, Hnd.
    apply List.in_split in Hown as (A & B & HAB).
    rewrite HAB in Hnd. apply NoDup_split_keys in Hnd as [HA HB]. simpl in *.
    unfold attach. rewrite HAB, flat_map_app. simpl.
    unfold attachEntry at 2. simpl. rewrite Htruthy, Hreg. simpl.
    rewrite List.map_app. simpl.
    rewrite Hparse. simpl.
    rewrite (allCalls_filter (fun c => idIs "floats" (callId c))).
    - rewrite floats_calls by done. rewrite Z.add_0_l. simpl.
      destruct (10 <=? countFloats evs); reflexivity.
    - apply attach_quiet; [done|].
      eapply Forall_impl; [exact HA|]. intros e He. by left.
    - apply attach_quiet; [done|].
      eapply Forall_impl; [exact HB|]. intros e He. by left. }
  split; intros Hn; rewrite Hn in Hfl; simpl in Hfl.
  - by apply Permutation_nil_r in Hfl.
  - apply Permutation_singleton_r in Hfl. rewrite Hfl. reflexivity.
Qed.

Lemma floats_threshold_witness :
  List.filter (fun m => idIs "floats" (msgId m))
    (verifyMessages Sample.registry
       (Sample.emits (Sample.floatsEvents 10 ++ [EvEndStylesheet]) None)
       (Sample.floatsText 10) None false ∅) =
    [mkMessage TWarning true None None None
       ("Too many floats (10), you're probably using them for layout. " +:+
        "Consider using a grid system instead.")
       (Some (r_rule floats_def))].
Proof.
  refine (proj2
    (floats_threshold Sample.registry
       (Sample.emits (Sample.floatsEvents 10 ++ [EvEndStylesheet]) None)
       (Sample.floatsText 10) None false ∅ (Sample.floatsEvents 10) None
       (JNum 1) sample_registry_honest _ _ _ _ _ _) _).
  - reflexivity.
  - apply (bool_decide_unpack _). vm_compute. exact I.
  - vm_compute. reflexivity.
  - reflexivity.
  - reflexivity.
  - vm_compute. repeat constructor; discriminate.
  - vm_compute. reflexivity.
Defined.

(** *** Expansion of grammar abbreviations *)

Lemma indexOf_0 s pat : JS.indexOf s pat 0 = JS.findFirst pat s 0.
Proof.
  unfold JS.indexOf, JS.len.
  replace (Z.min (Z.max 0 0) (Z.of_nat (String.length s))) with 0 by lia.
  by destruct s.
Qed.

Lemma prefix_nil s : String.prefix EmptyString s = true.
Proof. by destruct s. Qed.

Lemma prefix_cons a s1 b s2 :
  String.prefix (String a s1) (String b s2) =
    Ascii.eqb a b && String.prefix s1 s2.
Proof.
  cbn [String.prefix]. destruct (ascii_dec a b) as [->|Hne].
  - by rewrite Ascii.eqb_refl.
  - apply Ascii.eqb_neq in Hne. by rewrite Hne.
Qed.

Lemma findFirst_step pat c r pos :
  JS.findFirst pat (String c r) pos =
    if String.prefix pat (String c r) then pos
    else JS.findFirst pat r (pos + 1).
Proof. reflexivity. Qed.

Lemma findFirst_lt_found a t : forall pos,
  pos <= JS.findFirst "<" (a +:+ String "<" t) pos.
Proof.
  induction a as [|c a IH]; intros pos.
  - change (EmptyString +:+ String "<" t) with (String "<" t).
    rewrite findFirst_step, prefix_cons, prefix_nil. simpl. lia.
  - change (String c a +:+ String "<" t) with (String c (a +:+ String "<" t)).
    rewrite findFirst_step.
    destruct (String.prefix "<" _); [lia|]. specialize (IH (pos + 1)). lia.
Qed.

Lemma findFirst_lt_absent s : forall pos,
  ~ contains "<" s -> JS.findFirst "<" s pos = -1.
Proof.
  induction s as [|c s IH]; intros pos Hno; [reflexivity|].
  rewrite findFirst_step, prefix_cons, prefix_nil, andb_true_r.
  destruct (Ascii.eqb_spec "<" c) as [<-|Hc].
  - exfalso. apply Hno. by exists EmptyString, s.
  - apply IH. intros (a & b & ->). apply Hno. by exists (String c a), b.
Qed.

Lemma take_length_le n s : (String.length (JS.take n s) <= n)%nat.
Proof.
  revert s. induction n as [|n IH]; intros [|c s]; simpl; try lia.
  specialize (IH s). lia.
Qed.

Lemma take_before_lt a t : forall n,
  strAll notLt (JS.take n (a +:+ String "<" t)) = true ->
  (n <= String.length a)%nat.
Proof.
  induction a as [|c a IH]; intros [|n]; simpl; try lia; try discriminate.
  intros H. apply andb_true_iff in H as [_ H]. specialize (IH n H). lia.
Qed.

Lemma prefix_empty a s : String.prefix (String a s) EmptyString = false.
Proof. reflexivity. Qed.

Ltac split_eqb H :=
  rewrite ?prefix_cons, ?prefix_nil, ?prefix_empty in H;
  repeat match type of H with
         | context [Ascii.eqb ?a ?b] =>
             destruct (Ascii.eqb_spec a b); [subst|]; cbn [andb orb] in H
         end.

(** A match consumes, after its first character, only letters, digits,
    underscores and hyphens. *)
Lemma rxGrammarAbbr_match c r c' str :
  rxGrammarAbbr_at (String c r) = Some (c', str) ->
  exists n, str = JS.take n r /\ strAll notLt str = true.
Proof.
  unfold rxGrammarAbbr_at.
  destruct (Ascii.eqb c "-" || Ascii.eqb c "<"); [|discriminate].
  destruct ((String.prefix "int" r || String.prefix "len" r ||
             String.prefix "num" r || String.prefix "pct" r) &&
            nonWordAhead (JS.drop 3 r)) eqn:E1.
  - intros [= <- <-]. exists 3%nat. split; [reflexivity|].
    apply andb_true_iff in E1 as [E1 _].
    destruct r as [|c1 [|c2 [|c3 r]]]; try discriminate;
      split_eqb E1; try congruence; reflexivity.
  - destruct (String.prefix "rel-" r && threeWord (JS.drop 4 r) &&
              nonWordAhead (JS.drop 7 r)) eqn:E2; [|discriminate].
    intros [= <- <-]. exists 7%nat. split; [reflexivity|].
    apply andb_true_iff in E2 as [E2 _].
    apply andb_true_iff in E2 as [E2 E3].
    destruct r as [|c1 [|c2 [|c3 [|c4 r]]]]; try discriminate;
      split_eqb E2; try congruence.
    destruct r as [|c5 [|c6 [|c7 r]]]; simpl in E3; try discriminate.
    apply andb_true_iff in E3 as [E3 W7].
    apply andb_true_iff in E3 as [W5 W6].
    assert (W : forall x, JS.isWord x = true -> notLt x = true).
    { intros x Hx. unfold notLt. destruct (Ascii.eqb_spec x "<") as [->|];
        [discriminate|reflexivity]. }
    cbn [JS.take strAll]. rewrite (W _ W5), (W _ W6), (W _ W7). reflexivity.
Qed.

Lemma replaceAbbr_int b :
  replaceAbbr O ("<int>" +:+ b) = "<integer>" +:+ replaceAbbr O b.
Proof. vm_compute. reflexivity. Qed.

Lemma append_assoc (x y z : string) : (x +:+ y) +:+ z = x +:+ (y +:+ z).
Proof.
  induction x as [|c x IH]; [reflexivity|].
  change (String c ((x +:+ y) +:+ z) = String c (x +:+ (y +:+ z))).
  by f_equal.
Qed.

(** The scan reaches an occurrence of the abbreviation with no match in
    progress: no earlier match runs into it. *)
Lemma replaceAbbr_reach a t : forall k,
  (k <= String.length a)%nat ->
  exists out,
    replaceAbbr k (a +:+ String "<" t) =
      out +:+ replaceAbbr O (String "<" t).
Proof.
  induction a as [|c a IH]; intros k Hk.
  - simpl in Hk. assert (k = O) as -> by lia. by exists EmptyString.
  - change (String c a +:+ String "<" t) with (String c (a +:+ String "<" t)).
    destruct k as [|k].
    + cbn [replaceAbbr].
      destruct (rxGrammarAbbr_at (String c (a +:+ String "<" t)))
        as [[c' str]|] eqn:E.
      * apply rxGrammarAbbr_match in E as (n & Hstr & Hall).
        assert (Hlen : (String.length str <= String.length a)%nat).
        { rewrite Hstr in Hall. apply take_before_lt in Hall.
          pose proof (take_length_le n (a +:+ String "<" t)).
          rewrite Hstr. lia. }
        destruct (IH _ Hlen) as (out & ->).
        exists (unabbreviate c' str +:+ out). by rewrite append_assoc.
      * destruct (IH O) as (out & ->); [lia|]. by exists (String c out).
    + cbn [replaceAbbr]. simpl in Hk. apply IH. lia.
Qed.

(** *** The loops of the directive scan run to their own exit *)

Lemma drop_length n : forall s,
  (n <= String.length s)%nat ->
  String.length (JS.drop n s) = (String.length s - n)%nat.
Proof.
  induction n as [|n IH]; intros [|c s] Hn; simpl in *; try lia.
  apply IH. lia.
Qed.

Lemma findFirst_range pat s : forall pos,
  JS.findFirst pat s pos = -1 \/
  pos <= JS.findFirst pat s pos <= pos + Z.of_nat (String.length s).
Proof.
  induction s as [|c s IH]; intros pos.
  - cbn [JS.findFirst String.length].
    destruct (String.prefix pat ""); [right; lia | by left].
  - rewrite findFirst_step. destruct (String.prefix pat (String c s)).
    + right. simpl String.length. lia.
    + destruct (IH (pos + 1)) as [->|H]; [by left|].
      right. simpl String.length. lia.
Qed.

Lemma indexOf_range s pat from :
  0 <= from <= JS.len s ->
  JS.indexOf s pat from = -1 \/ from <= JS.indexOf s pat from <= JS.len s.
Proof.
  intros Hf. unfold JS.indexOf, JS.len in *.
  replace (Z.min (Z.max from 0) (Z.of_nat (String.length s))) with from by lia.
  destruct (findFirst_range pat (JS.drop (Z.to_nat from) s) from) as [->|H];
    [by left|].
  right. rewrite drop_length in H by lia. lia.
Qed.

(** The line-counting loop leaves through its condition: with the fuel
    [directive] gives it, it ends with [eol] beyond the match. *)
Lemma countLines_exits fuel text : forall eol lineno index,
  -1 <= eol -> index < JS.len text ->
  JS.len text - eol <= Z.of_nat fuel ->
  index < fst (countLines fuel text eol lineno index).
Proof.
  induction fuel as [|fuel IH]; intros eol lineno index Heol Hidx Hfuel.
  - simpl. lia.
  - cbn [countLines]. destruct (eol <=? index) eqn:E.
    + apply Z.leb_le in E.
      destruct (indexOf_range text (String "010" EmptyString) (eol + 1))
        as [Hi|Hi]; [lia| |].
      * rewrite Hi. simpl. apply IH; lia.
      * destruct (JS.indexOf text (String "010" EmptyString) (eol + 1) <? 0)
          eqn:F; [apply Z.ltb_lt in F; lia|].
        apply IH; lia.
    + apply Z.leb_gt in E. simpl. lia.
Qed.

Lemma rxEmbedded_at_progress s g n : rxEmbedded_at s = Some (g, n) -> 0 < n.
Proof.
  unfold rxEmbedded_at. destruct (String.prefix "/*" s); [|discriminate].
  destruct (JS.spanSpace (JS.drop 2 s)) as [w0 s2].
  destruct (String.prefix "csslint" _); [|discriminate].
  destruct (JS.spanSpace (JS.drop 7 s2)) as [w s4].
  destruct w as [|w']; [discriminate|].
  destruct (JS.findFirst "*/" s4 0 <? 0) eqn:E; [discriminate|].
  apply Z.ltb_ge in E.
  destruct (JS.findFirst "*/" s4 0 =? 0).
  - destruct w'; [discriminate|]. intros [= _ <-]. lia.
  - intros [= _ <-]. lia.
Qed.

Lemma rxEmbedded_search_progress s : forall pos index g lastIndex,
  rxEmbedded_search s pos = Some (index, g, lastIndex) ->
  pos <= index < lastIndex.
Proof.
  induction s as [|c s IH]; intros pos index g lastIndex; cbn [rxEmbedded_search].
  - destruct (rxEmbedded_at "") as [[g' n]|] eqn:E; [|discriminate].
    apply rxEmbedded_at_progress in E. intros [= <- _ <-]. lia.
  - destruct (rxEmbedded_at (String c s)) as [[g' n]|] eqn:E.
    + apply rxEmbedded_at_progress in E. intros [= <- _ <-]. lia.
    + intros H. apply IH in H. lia.
Qed.

(** The outer loop ends because [exec] finds no further match: more fuel
    than [applyEmbeddedOverrides] gives it changes nothing. *)
Lemma embeddedLoop_fuel fuel text : forall lastIndex st,
  JS.len text - lastIndex < Z.of_nat fuel ->
  embeddedLoop (S fuel) text lastIndex st = embeddedLoop fuel text lastIndex st.
Proof.
  induction fuel as [|fuel IH]; intros lastIndex st Hfuel.
  - cbn [embeddedLoop]. unfold rxEmbedded_exec.
    destruct (JS.len text <? lastIndex) eqn:E; [reflexivity|].
    apply Z.ltb_ge in E. simpl in Hfuel. lia.
  - cbn [embeddedLoop].
    destruct (rxEmbedded_exec text lastIndex) as [[[index g] lastIndex']|] eqn:E;
      [|reflexivity].
    change (embeddedLoop (S fuel) text lastIndex' (directive text index g st) =
            embeddedLoop fuel text lastIndex' (directive text index g st)).
    apply IH. unfold rxEmbedded_exec in E.
    destruct (JS.len text <? lastIndex); [discriminate|].
    apply rxEmbedded_search_progress in E. lia.
Qed.

Lemma embeddedLoop_enough text lastIndex st k :
  0 <= lastIndex ->
  embeddedLoop (S (String.length text) + k) text lastIndex st =
    embeddedLoop (S (String.length text)) text lastIndex st.
Proof.
  intros Hl. induction k as [|k IH]; [by rewrite Nat.add_0_r|].
  rewrite Nat.add_succ_r, embeddedLoop_fuel; [exact IH|].
  unfold JS.len. lia.
Qed.

(** *** Closed instances *)

Lemma report_suppression_witness :
  ignored (mkReporter [] [] [] 0%nat ∅ [(2, 4)]) 3 = true.
Proof.
  refine (proj2 (proj1 (proj2 (proj2
    (report_suppression ∅ (mkReporter [] [] [] 0%nat ∅ [(2, 4)])
       "!important." (mkPos (Some 3) (Some 3)) (r_rule important_def))))) _).
  exists 2, 4. split; [by left | simpl; lia].
Defined.

(** * Further properties of the code *)

(** ** The probe *)

Lemma prefix_true_app p : forall s,
  String.prefix p s = true -> exists b, s = p +:+ b.
Proof.
  induction p as [|a p IH]; intros s H.
  - by exists s.
  - destruct s as [|c s]; [discriminate|].
    rewrite prefix_cons in H. apply andb_true_iff in H as [Hc Hp].
    apply Ascii.eqb_eq in Hc as ->. destruct (IH s Hp) as (b & ->).
    by exists b.
Qed.

Lemma prefix_absent pat c s :
  ~ contains pat (String c s) -> String.prefix pat (String c s) = false.
Proof.
  intros Hno. destruct (String.prefix pat (String c s)) eqn:E; [|reflexivity].
  exfalso. apply Hno. apply prefix_true_app in E as (b & ->).
  by exists EmptyString, b.
Qed.

Lemma contains_tail pat c s :
  ~ contains pat (String c s) -> ~ contains pat s.
Proof.
  intros Hno (a & b & ->). apply Hno. by exists (String c a), b.
Qed.

Lemma findLast_absent pat c0 pat' s : forall pos limit acc,
  pat = String c0 pat' -> ~ contains pat s ->
  JS.findLast pat s pos limit acc = acc.
Proof.
  intros pos limit acc ->. revert pos acc.
  induction s as [|c s IH]; intros pos acc Hno; cbn [JS.findLast].
  - rewrite prefix_empty, andb_false_r. reflexivity.
  - rewrite (prefix_absent _ c s Hno), andb_false_r.
    apply IH. by eapply contains_tail.
Qed.

Lemma rxEmbedded_search_absent s : forall pos,
  ~ contains "/*" s -> rxEmbedded_search s pos = None.
Proof.
  induction s as [|c s IH]; intros pos Hno; cbn [rxEmbedded_search].
  - reflexivity.
  - unfold rxEmbedded_at at 1. rewrite (prefix_absent _ c s Hno).
    apply IH. by eapply contains_tail.
Qed.

Lemma contains_drop pat n : forall s,
  ~ contains pat s -> ~ contains pat (JS.drop n s).
Proof.
  induction n as [|n IH]; intros [|c s] Hno; simpl; try done.
  apply IH. by eapply contains_tail.
Qed.

Lemma embeddedLoop_none fuel text lastIndex st :
  rxEmbedded_exec text lastIndex = None ->
  embeddedLoop fuel text lastIndex st = st.
Proof. intros H. destruct fuel; simpl; [reflexivity|]. by rewrite H. Qed.

(** X1. A text without any comment opener makes the probe fail, and this
    skip is sound: the scan of the whole text finds nothing either, so
    both leave the ruleset as it is, with no allow entry and no ignore
    range. *)
Theorem probe_without_comment text rs :
  ~ contains "/*" text ->
  probe text = -1 /\
  scanProbed text rs = (rs, ∅, []) /\
  scanUnconditionally text rs = (rs, ∅, []).
Proof.
  intros Hno.
  assert (Hp : probe text = -1).
  { unfold probe, JS.lastIndexOf. by eapply findLast_absent. }
  split; [done|]. split.
  - unfold scanProbed. by rewrite Hp.
  - unfold scanUnconditionally, applyEmbeddedOverrides.
    rewrite embeddedLoop_none; [reflexivity|].
    unfold rxEmbedded_exec. destruct (JS.len text <? 0); [reflexivity|].
    apply rxEmbedded_search_absent. by apply contains_drop.
Qed.

Lemma probe_without_comment_witness :
  probe "a{color:red}" = -1 /\
  scanProbed "a{color:red}" Sample.oneRuleset = (Sample.oneRuleset, ∅, []) /\
  scanUnconditionally "a{color:red}" Sample.oneRuleset =
    (Sample.oneRuleset, ∅, []).
Proof.
  apply probe_without_comment.
  intros (a & b & H).
  repeat (destruct a as [|? a]; [discriminate|
          injection H as _ H]).
  destruct a; discriminate.
Defined.

Lemma findLast_spec pat s : forall pos limit acc,
  JS.findLast pat s pos limit acc = acc \/
  (pos <= JS.findLast pat s pos limit acc <= limit /\
   String.prefix pat
     (JS.drop (Z.to_nat (JS.findLast pat s pos limit acc - pos)) s) = true).
Proof.
  induction s as [|c s IH]; intros pos limit acc; cbn [JS.findLast].
  - destruct ((pos <=? limit) && String.prefix pat "") eqn:E; [|by left].
    apply andb_true_iff in E as [E1 E2]. apply Z.leb_le in E1.
    right. rewrite Z.sub_diag. simpl. split; [lia|done].
  - destruct (IH (pos + 1) limit
                (if (pos <=? limit) && String.prefix pat (String c s)
                 then pos else acc)) as [H|[H1 H2]].
    + rewrite H.
      destruct ((pos <=? limit) && String.prefix pat (String c s)) eqn:E;
        [|by left].
      apply andb_true_iff in E as [E1 E2]. apply Z.leb_le in E1.
      right. rewrite Z.sub_diag. simpl. split; [lia|done].
    + right. split; [lia|].
      match goal with
      | |- context [Z.to_nat (?r - pos)] =>
          replace (Z.to_nat (r - pos)) with (S (Z.to_nat (r - (pos + 1))))
            by lia
      end.
      exact H2.
Qed.

Lemma prefix_length p : forall s,
  String.prefix p s = true -> (String.length p <= String.length s)%nat.
Proof.
  intros s H. apply prefix_true_app in H as (b & ->).
  induction p as [|a p IH]; simpl; lia.
Qed.

Lemma drop_length_le n : forall s,
  (String.length (JS.drop n s) <= String.length s - n)%nat.
Proof.
  induction n as [|n IH]; intros [|c s]; simpl; try lia. apply IH.
Qed.

(** X2. When the probe succeeds its value is the index of a comment
    opener of the text: the scan starts on the two characters of a
    comment start, inside the text. *)
Theorem probe_points_at_comment text :
  0 <= probe text ->
  probe text + 2 <= JS.len text /\
  String.prefix "/*" (JS.drop (Z.to_nat (probe text)) text) = true.
Proof.
  unfold probe, JS.lastIndexOf.
  match goal with
  | |- context [JS.findLast ?p ?s ?a ?l ?c] =>
      pose proof (findLast_spec p s a l c) as H;
      set (r := JS.findLast p s a l c) in *
  end.
  intros Hp. destruct H as [H|[H1 H2]]; [lia|].
  rewrite Z.sub_0_r in H2. split; [|exact H2].
  pose proof (prefix_length _ _ H2) as Hl.
  pose proof (drop_length_le (Z.to_nat r) text) as Hd.
  change (String.length "/*") with 2%nat in Hl.
  unfold JS.len. lia.
Qed.

Lemma probe_points_at_comment_witness :
  probe "a{} /* csslint allow: ids */" + 2 <=
    JS.len "a{} /* csslint allow: ids */" /\
  String.prefix "/*"
    (JS.drop (Z.to_nat (probe "a{} /* csslint allow: ids */"))
       "a{} /* csslint allow: ids */") = true.
Proof. apply probe_points_at_comment. vm_compute. discriminate. Defined.

Lemma rxEmbedded_search_skip k : forall s pos,
  (forall q, (q < k)%nat -> rxEmbedded_at (JS.drop q s) = None) ->
  (k <= String.length s)%nat ->
  rxEmbedded_search s pos = rxEmbedded_search (JS.drop k s) (pos + Z.of_nat k).
Proof.
  induction k as [|k IH]; intros s pos Hq Hk.
  - simpl. rewrite Z.add_0_r. by destruct s.
  - destruct s as [|c s]; [simpl in Hk; lia|].
    cbn [rxEmbedded_search].
    pose proof (Hq O ltac:(lia)) as H0. cbn [JS.drop] in H0. rewrite H0.
    rewrite (IH s (pos + 1)).
    + simpl JS.drop. f_equal. lia.
    + intros q Hlt. apply (Hq (S q)). lia.
    + simpl in Hk. lia.
Qed.

(** X3. Starting the scan at the probe's index gives what the scan of
    the whole text gives whenever no directive comment starts before that
    index: the two leave the same ruleset, allow table and ignore
    ranges. *)
Theorem scan_from_probe_complete text rs :
  0 <= probe text ->
  (forall q, (q < Z.to_nat (probe text))%nat ->
             rxEmbedded_at (JS.drop q text) = None) ->
  scanProbed text rs = scanUnconditionally text rs.
Proof.
  intros Hp Hq. unfold scanProbed, scanUnconditionally.
  destruct (0 <=? probe text) eqn:E; [|apply Z.leb_gt in E; lia].
  unfold applyEmbeddedOverrides. cbn [embeddedLoop].
  assert (Hexec : rxEmbedded_exec text (probe text) = rxEmbedded_exec text 0).
  { destruct (probe_points_at_comment text Hp) as [Hlen _].
    unfold rxEmbedded_exec.
    destruct (JS.len text <? probe text) eqn:F; [apply Z.ltb_lt in F; lia|].
    destruct (JS.len text <? 0) eqn:G; [apply Z.ltb_lt in G; unfold JS.len in G; lia|].
    change (JS.drop (Z.to_nat 0) text) with (JS.drop 0 text).
    replace (JS.drop 0 text) with text by (by destruct text).
    rewrite (rxEmbedded_search_skip (Z.to_nat (probe text)) text 0 Hq).
    - f_equal. lia.
    - unfold JS.len in Hlen. lia. }
  by rewrite Hexec.
Qed.

Lemma scan_from_probe_complete_witness :
  scanProbed "a{} /* csslint allow: ids */" Sample.oneRuleset =
  scanUnconditionally "a{} /* csslint allow: ids */" Sample.oneRuleset.
Proof.
  apply scan_from_probe_complete.
  - vm_compute. discriminate.
  - intros q Hq. vm_compute in Hq.
    destruct q as [|[|[|[|q]]]]; try reflexivity. lia.
Defined.

(** ** Ignore ranges *)

Lemma countLines_mono fuel text : forall eol lineno index,
  lineno <= snd (countLines fuel text eol lineno index).
Proof.
  induction fuel as [|fuel IH]; intros eol lineno index; cbn [countLines].
  - simpl. lia.
  - destruct (eol <=? index); [|simpl; lia].
    etransitivity; [|apply IH]. lia.
Qed.

Lemma countLines_first fuel text eol lineno index :
  eol <= index ->
  lineno + 1 <= snd (countLines (S fuel) text eol lineno index).
Proof.
  intros H. cbn [countLines].
  destruct (eol <=? index) eqn:E; [|apply Z.leb_gt in E; lia].
  apply countLines_mono.
Qed.

Lemma ordered_snoc l : forall lo s e,
  ordered lo l -> lastEnd lo l <= s -> s <= e ->
  ordered lo (l ++ [(s, e)]) /\ lastEnd lo (l ++ [(s, e)]) = e.
Proof.
  induction l as [|[s' e'] l IH]; intros lo s e Ho Hl He; simpl in *.
  - done.
  - destruct Ho as (H1 & H2 & H3). destruct (IH e' s e H3 Hl He) as [IH1 IH2].
    done.
Qed.

Lemma directive_scanInv text index g st :
  0 <= index -> scanInv st -> scanInv (directive text index g st).
Proof.
  intros Hidx (Hord & Hline & Hstart). unfold directive.
  pose proof (countLines_mono (S (String.length text)) text (e_eol st)
                (e_lineno st) index) as Hmono.
  pose proof (countLines_first (String.length text) text (e_eol st)
                (e_lineno st) index) as Hfirst.
  destruct (countLines (S (String.length text)) text (e_eol st) (e_lineno st)
              index) as [eol lineno]. simpl in Hmono, Hfirst.
  assert (H1 : 1 <= lineno).
  { destruct Hline as [[Ha Hb]|?]; [|lia].
    assert (e_lineno st + 1 <= lineno) by (apply Hfirst; lia). lia. }
  assert (Hinv : forall rs al ig_end,
    scanInv (mkEmbedded rs al (e_ignore st) (e_ignoreStart st) ig_end
               lineno eol)).
  { intros rs al ig_end. split; [done|]. split; [by right|]. simpl.
    destruct (e_ignoreStart st); lia. }
  destruct (String.eqb (JS.trim _) "allow").
  - unfold allowCase. simpl. destruct (List.length _); apply Hinv.
  - destruct (String.eqb (JS.trim _) "ignore"); [|apply Hinv].
    unfold ignoreCase. simpl.
    destruct (JS.includes _ "start").
    + destruct (e_ignoreStart st) as [s|] eqn:Es; simpl.
      * destruct Hstart as [Hs1 Hs2].
        replace (negb (s =? 0)) with true
          by (symmetry; apply negb_true_iff, Z.eqb_neq; lia).
        split; [done|]. split; [by right|]. simpl. lia.
      * split; [done|]. split; [by right|]. simpl. lia.
    + destruct (JS.includes _ "end"); [|apply Hinv].
      destruct (e_ignoreStart st) as [s|] eqn:Es; simpl.
      * destruct Hstart as [Hs1 Hs2].
        replace (negb (s =? 0)) with true
          by (symmetry; apply negb_true_iff, Z.eqb_neq; lia).
        replace (negb (lineno =? 0)) with true
          by (symmetry; apply negb_true_iff, Z.eqb_neq; lia).
        simpl.
        destruct (ordered_snoc (e_ignore st) 1 s lineno) as [Ho Hl];
          [done|done|lia|].
        split; [done|]. split; [by right|]. simpl. lia.
      * split; [done|]. split; [by right|]. simpl. lia.
Qed.

Lemma embeddedLoop_scanInv fuel text : forall lastIndex st,
  0 <= lastIndex -> scanInv st ->
  scanInv (embeddedLoop fuel text lastIndex st).
Proof.
  induction fuel as [|fuel IH]; intros lastIndex st Hl Hinv; cbn [embeddedLoop];
    [done|].
  destruct (rxEmbedded_exec text lastIndex) as [[[index g] lastIndex']|] eqn:E;
    [|done].
  unfold rxEmbedded_exec in E.
  destruct (JS.len text <? lastIndex); [discriminate|].
  apply rxEmbedded_search_progress in E.
  apply IH; [lia|]. apply directive_scanInv; [lia|done].
Qed.

(** X4. The ignore ranges the extractor builds from an empty list are in
    document order: every range starts at line 1 or later and ends at or
    after its start, and each range starts at or after the end of the one
    before it. *)
Theorem ignore_ranges_ordered text lastIndex rs al :
  0 <= lastIndex ->
  ordered 1 (snd (applyEmbeddedOverrides text lastIndex rs al [])).
Proof.
  intros Hl. unfold applyEmbeddedOverrides.
  pose proof (embeddedLoop_scanInv (S (String.length text)) text lastIndex
                (mkEmbedded rs al [] None None 0 (-1)) Hl) as H.
  set (st := embeddedLoop _ _ _ _) in *.
  destruct H as (Hord & Hline & Hstart).
  { split; [done|]. split; [by left|]. simpl. lia. }
  cbn [snd]. unfold truthyNum.
  destruct (e_ignoreStart st) as [s|]; [|done].
  destruct Hstart as [Hs1 Hs2].
  replace (negb (s =? 0)) with true
    by (symmetry; apply negb_true_iff, Z.eqb_neq; lia).
  cbn [default from_option]. unfold Datatypes.id.
  eapply proj1, ordered_snoc; [done|done|lia].
Qed.

Lemma ignore_ranges_ordered_witness :
  ordered 1
    (snd (applyEmbeddedOverrides Sample.openIgnore
            (probe Sample.openIgnore) [] ∅ [])).
Proof. apply ignore_ranges_ordered. vm_compute. discriminate. Defined.

(** ** Line numbers of directives *)

Lemma countNl_nonneg s : 0 <= countNl s.
Proof. induction s as [|c s IH]; simpl; [lia|]. destruct (Ascii.eqb c _); lia. Qed.

Lemma countNl_app a b : countNl (a +:+ b) = countNl a + countNl b.
Proof.
  induction a as [|c a IH]; [reflexivity|].
  change (String c a +:+ b) with (String c (a +:+ b)).
  cbn [countNl]. rewrite IH. lia.
Qed.

Lemma take_add a : forall b s,
  JS.take (a + b) s = JS.take a s +:+ JS.take b (JS.drop a s).
Proof.
  induction a as [|a IH]; intros b s.
  - simpl. by destruct s.
  - destruct s as [|c s]; simpl.
    + by destruct b.
    + by rewrite IH.
Qed.

Lemma drop_add a : forall b s, JS.drop (a + b) s = JS.drop b (JS.drop a s).
Proof.
  induction a as [|a IH]; intros b s.
  - simpl. by destruct s.
  - destruct s as [|c s]; simpl; [by destruct b | apply IH].
Qed.

Lemma take_all n : forall s, (String.length s <= n)%nat -> JS.take n s = s.
Proof.
  induction n as [|n IH]; intros [|c s] H; simpl in *; try done; try lia.
  rewrite IH; [done|lia].
Qed.

Lemma countNl_take_mono text n m :
  (n <= m)%nat -> countNl (JS.take n text) <= countNl (JS.take m text).
Proof.
  intros H. replace m with (n + (m - n))%nat by lia.
  rewrite take_add, countNl_app.
  pose proof (countNl_nonneg (JS.take (m - n) (JS.drop n text))). lia.
Qed.

Lemma findFirst_nl s : forall pos,
  (JS.findFirst (String "010" EmptyString) s pos = -1 /\ countNl s = 0) \/
  (pos <= JS.findFirst (String "010" EmptyString) s pos /\
   countNl (JS.take (Z.to_nat (JS.findFirst (String "010" EmptyString) s pos - pos)) s) = 0 /\
   exists rest,
     JS.drop (Z.to_nat (JS.findFirst (String "010" EmptyString) s pos - pos)) s =
       String "010" rest).
Proof.
  induction s as [|c s IH]; intros pos.
  - left. by split.
  - rewrite findFirst_step, prefix_cons, prefix_nil, andb_true_r.
    destruct (Ascii.eqb_spec "010" c) as [<-|Hc].
    + right. rewrite Z.sub_diag. simpl. split; [lia|]. split; [done|]. by exists s.
    + assert (Hc' : Ascii.eqb c "010" = false).
      { apply Ascii.eqb_neq. congruence. }
      destruct (IH (pos + 1)) as [[H1 H2]|(H1 & H2 & rest & H3)].
      * left. split; [done|]. cbn [countNl]. rewrite Hc'. lia.
      * right. split; [lia|].
        match goal with
        | |- context [Z.to_nat (?r - pos)] =>
            replace (Z.to_nat (r - pos)) with (S (Z.to_nat (r - (pos + 1))))
              by lia
        end.
        cbn [JS.take JS.drop countNl]. rewrite Hc'. split; [lia|]. by exists rest.
Qed.

(** [nl k]: line feeds among the first [k] characters. *)
Lemma indexOf_nl text p :
  0 <= p <= JS.len text ->
  let e := JS.indexOf text (String "010" EmptyString) p in
  (e = -1 /\
   countNl (JS.take (String.length text) text) =
     countNl (JS.take (Z.to_nat p) text)) \/
  (p <= e < JS.len text /\
   countNl (JS.take (Z.to_nat e) text) = countNl (JS.take (Z.to_nat p) text) /\
   exists rest, JS.drop (Z.to_nat e) text = String "010" rest).
Proof.
  intros Hp e. unfold e, JS.indexOf, JS.len in *.
  replace (Z.min (Z.max p 0) (Z.of_nat (String.length text))) with p by lia.
  destruct (findFirst_nl (JS.drop (Z.to_nat p) text) p)
    as [[H1 H2]|(H1 & H2 & rest & H3)].
  - left. split; [done|].
    replace (String.length text)
      with (Z.to_nat p + (String.length text - Z.to_nat p))%nat at 1 by lia.
    rewrite take_add, countNl_app.
    rewrite (take_all _ (JS.drop (Z.to_nat p) text)), H2; [lia|].
    pose proof (drop_length_le (Z.to_nat p) text). lia.
  - set (r := JS.findFirst _ _ p) in *. right.
    assert (Hr : Z.to_nat r = (Z.to_nat p + Z.to_nat (r - p))%nat) by lia.
    rewrite Hr, take_add, countNl_app, H2, drop_add, H3.
    split; [|split; [lia | by exists rest]].
    split; [lia|].
    assert (Hlen : (Z.to_nat (r - p) < String.length (JS.drop (Z.to_nat p) text))%nat).
    { destruct (Nat.lt_ge_cases (Z.to_nat (r - p))
                  (String.length (JS.drop (Z.to_nat p) text))) as [?|Hge]; [done|].
      exfalso. pose proof (drop_length_le (Z.to_nat (r - p))
                             (JS.drop (Z.to_nat p) text)) as Hd.
      rewrite H3 in Hd. simpl in Hd. lia. }
    pose proof (drop_length_le (Z.to_nat p) text). lia.
Qed.

Lemma nl_succ text k rest :
  JS.drop k text = String "010" rest ->
  countNl (JS.take (S k) text) = countNl (JS.take k text) + 1.
Proof.
  intros H. replace (S k) with (k + 1)%nat by lia.
  rewrite take_add, countNl_app, H. reflexivity.
Qed.

Lemma countLines_done fuel text eol lineno index :
  index < eol -> countLines fuel text eol lineno index = (eol, lineno).
Proof.
  intros H. destruct fuel; cbn [countLines]; [reflexivity|].
  destruct (eol <=? index) eqn:E; [apply Z.leb_le in E; lia | reflexivity].
Qed.

(** The loop from a state that has accounted for the lines up to [eol]:
    it stops on the end of the line of [index], having counted that line. *)
Lemma countLines_lines fuel text : forall eol lineno index,
  ((eol = -1 /\ lineno = 0) \/
   (0 <= eol /\ lineno = 1 + countNl (JS.take (Z.to_nat eol) text) /\
    exists rest, JS.drop (Z.to_nat eol) text = String "010" rest)) ->
  eol <= index -> 0 <= index < JS.len text ->
  JS.len text - eol <= Z.of_nat fuel ->
  let r := countLines fuel text eol lineno index in
  index < fst r <= JS.len text /\
  snd r = 1 + countNl (JS.take (Z.to_nat (fst r)) text) /\
  snd r = lineAt text index /\
  (fst r < JS.len text ->
   exists rest, JS.drop (Z.to_nat (fst r)) text = String "010" rest).
Proof.
  induction fuel as [|fuel IH]; intros eol lineno index Hinv Hle Hidx Hfuel.
  - simpl in Hfuel. lia.
  - cbn [countLines].
    destruct (eol <=? index) eqn:E; [|apply Z.leb_gt in E; lia].
    assert (Hp : countNl (JS.take (Z.to_nat (eol + 1)) text) = lineno).
    { destruct Hinv as [[-> ->]|(H0 & -> & rest & Hr)]; [reflexivity|].
      replace (Z.to_nat (eol + 1)) with (S (Z.to_nat eol)) by lia.
      rewrite (nl_succ _ _ _ Hr). lia. }
    assert (Hmono1 : countNl (JS.take (Z.to_nat (eol + 1)) text) <=
                     countNl (JS.take (Z.to_nat (index + 1)) text))
      by (apply countNl_take_mono; lia).
    destruct (indexOf_nl text (eol + 1)) as [[He Hn]|(He & Hn & rest & Hr)];
      [unfold JS.len in *; lia| |].
    + rewrite He. change (-1 <? 0) with true. cbn iota.
      rewrite countLines_done by lia. cbn [fst snd].
      assert (Hlen : Z.to_nat (JS.len text) = String.length text)
        by (unfold JS.len; lia).
      rewrite Hlen.
      assert (Hmono2 : countNl (JS.take (Z.to_nat (index + 1)) text) <=
                       countNl (JS.take (String.length text) text))
        by (apply countNl_take_mono; unfold JS.len in *; lia).
      unfold lineAt. repeat split; try lia.
    + set (e := JS.indexOf text (String "010" EmptyString) (eol + 1)) in *.
      destruct (e <? 0) eqn:F; [apply Z.ltb_lt in F; lia|].
      destruct (Z.le_gt_cases e index) as [Hei|Hei].
      * apply IH; try lia. right. split; [lia|]. split; [lia|]. by exists rest.
      * rewrite countLines_done by lia. cbn [fst snd].
        assert (Hmono2 : countNl (JS.take (Z.to_nat (index + 1)) text) <=
                         countNl (JS.take (Z.to_nat e) text))
          by (apply countNl_take_mono; lia).
        unfold lineAt. repeat split; try lia. intros _. by exists rest.
Qed.

Lemma directive_counter text index g st :
  (e_eol (directive text index g st), e_lineno (directive text index g st)) =
  countLines (S (String.length text)) text (e_eol st) (e_lineno st) index.
Proof.
  unfold directive.
  destruct (countLines _ text (e_eol st) (e_lineno st) index) as [eol lineno].
  destruct (String.eqb (JS.trim _) "allow").
  - unfold allowCase. simpl. by destruct (List.length _).
  - destruct (String.eqb (JS.trim _) "ignore"); [|reflexivity].
    unfold ignoreCase. simpl.
    destruct (JS.includes _ "start"); [reflexivity|].
    destruct (JS.includes _ "end"); [|reflexivity].
    by destruct (truthyNum (e_ignoreStart st) && _).
Qed.

(** X5. The forward-only line counter is exact: for matches taken in
    increasing order of index, the line the extractor works with at a
    directive is one more than the number of line feeds at or before the
    directive's index, whatever the earlier matches left in the counter. *)
Theorem directive_line_number text i index g st :
  lineInv text i (e_eol st) (e_lineno st) ->
  i <= index -> 0 <= index < JS.len text ->
  e_lineno (directive text index g st) = lineAt text index /\
  lineInv text index (e_eol (directive text index g st))
    (e_lineno (directive text index g st)).
Proof.
  intros Hinv Hi Hidx.
  pose proof (directive_counter text index g st) as Hc.
  destruct (Z.le_gt_cases (e_eol st) index) as [Hle|Hgt].
  - assert (Hiter :
      (e_eol st = -1 /\ e_lineno st = 0) \/
      (0 <= e_eol st /\
       e_lineno st = 1 + countNl (JS.take (Z.to_nat (e_eol st)) text) /\
       exists rest, JS.drop (Z.to_nat (e_eol st)) text = String "010" rest)).
    { destruct Hinv as [(_ & H1 & H2)|(H1 & H2 & H3 & H4 & H5)]; [by left|].
      right. split; [lia|]. split; [done|]. apply H5. lia. }
    destruct (countLines_lines (S (String.length text)) text (e_eol st)
                (e_lineno st) index Hiter Hle Hidx) as (R1 & R2 & R3 & R4).
    { destruct Hiter as [[-> _]|[? _]]; unfold JS.len; lia. }
    rewrite <- Hc in R1, R2, R3, R4. cbn [fst snd] in *.
    split; [done|]. right. repeat split; try lia; try done.
  - rewrite countLines_done in Hc by lia. injection Hc as He Hl.
    destruct Hinv as [(_ & H1 & _)|(H1 & H2 & H3 & H4 & H5)]; [lia|].
    rewrite He, Hl.
    assert (M1 : countNl (JS.take (Z.to_nat (i + 1)) text) <=
                 countNl (JS.take (Z.to_nat (index + 1)) text))
      by (apply countNl_take_mono; lia).
    assert (M2 : countNl (JS.take (Z.to_nat (index + 1)) text) <=
                 countNl (JS.take (Z.to_nat (e_eol st)) text))
      by (apply countNl_take_mono; lia).
    unfold lineAt in *.
    split; [lia|]. right.
    repeat split; try lia; try done; unfold lineAt; lia.
Qed.

Lemma directive_line_number_witness :
  e_lineno
    (directive Sample.upperIgnore 4 " CSSLINT ignore:start "
       (mkEmbedded [] ∅ [] None None 0 (-1))) =
  lineAt Sample.upperIgnore 4.
Proof.
  refine (proj1 (directive_line_number Sample.upperIgnore (-1) 4
                   " CSSLINT ignore:start "
                   (mkEmbedded [] ∅ [] None None 0 (-1)) _ _ _)).
  - left. by repeat split.
  - lia.
  - vm_compute. split; [discriminate | reflexivity].
Defined.

(** ** The allow directive *)

Lemma obj_own_put_same (o : Obj) k v : obj_own (obj_put o k v) k = Some v.
Proof.
  induction o as [|[k' v'] o IH]; simpl.
  - by rewrite String.eqb_refl.
  - destruct (String.eqb k' k) eqn:E; simpl; rewrite E; [reflexivity|exact IH].
Qed.

Lemma obj_own_put_other (o : Obj) k k' v :
  k <> k' -> obj_own (obj_put o k' v) k = obj_own o k.
Proof.
  intros Hne. induction o as [|[k0 v0] o IH]; simpl.
  - destruct (String.eqb_spec k' k); [congruence|reflexivity].
  - destruct (String.eqb_spec k0 k') as [->|Hk]; simpl.
    + destruct (String.eqb_spec k' k); [congruence|reflexivity].
    + destruct (String.eqb k0 k); [reflexivity|exact IH].
Qed.







(** ** Parse errors *)

Lemma effectiveRuleset_forced rules text arg h :
  exists o, effectiveRuleset rules text arg h = obj_set o "errors" (JNum 2).
Proof.
  unfold effectiveRuleset.
  destruct (prepare rules text arg h) as [[[l h1] al] ig].
  exists (deref h1 l). unfold forceErrors, deref at 1.
  by rewrite lookup_insert_eq.
Qed.

Lemma attach_In rules (rs : Obj) i v d :
  In (i, v) rs -> truthy v = true -> lookupRule rules i = Some d ->
  In (i, mkActive (r_init d (r_rule d)) (l_start (r_init d (r_rule d))))
    (attach rules rs).
Proof.
  intros Hin Ht Hd. unfold attach. apply in_flat_map.
  exists (i, v). split.
  - apply list_elem_of_In. rewrite entries_perm. by apply list_elem_of_In.
  - unfold attachEntry. simpl. rewrite Ht, Hd. by left.
Qed.

(** X7. Parse-error reporting cannot be switched off: whatever ruleset
    the caller passes and whatever the directives of the text set, the
    effective ruleset holds level 2 for [errors], and a registered errors
    rule is always attached. *)
Theorem errors_always_forced rules text arg h :
  obj_get (effectiveRuleset rules text arg h) "errors" = Some (JNum 2) /\
  forall d, lookupRule rules "errors" = Some d ->
    In "errors" (List.map fst (attach rules (effectiveRuleset rules text arg h))).
Proof.
  destruct (effectiveRuleset_forced rules text arg h) as (o & ->).
  assert (Hown : obj_own (obj_set o "errors" (JNum 2)) "errors" = Some (JNum 2))
    by apply obj_own_put_same.
  split.
  - unfold obj_get. by rewrite Hown.
  - intros d Hd. apply in_map_iff.
    eexists. split; [|eapply attach_In; [by apply obj_own_In| |exact Hd]];
      reflexivity.
Qed.

Lemma dispatch_listeners e acts :
  List.map a_listener (fst (dispatch e acts)) = List.map a_listener acts.
Proof.
  induction acts as [|a acts IH]; simpl; [reflexivity|].
  pose proof (fire_listener e a) as Hl.
  destruct (fire e a) as [a' c1]. destruct (dispatch e acts) as [r' c2].
  simpl in *. by rewrite Hl, IH.
Qed.

Lemma dispatch_In_calls e a acts c :
  In a acts -> In c (snd (fire e a)) -> In c (snd (dispatch e acts)).
Proof.
  induction acts as [|b acts IH]; simpl; [done|].
  intros [->|Hin] Hc.
  - destruct (fire e a) as [a' c1]. destruct (dispatch e acts) as [r' c2].
    simpl in *. apply in_or_app. by left.
  - specialize (IH Hin Hc).
    destruct (fire e b) as [b' c1]. destruct (dispatch e acts) as [r' c2].
    simpl in *. apply in_or_app. by right.
Qed.

(** A call a listener makes for an event in every state of its closure is
    among the calls of any run that delivers the event. *)
Lemma allCalls_In L e c evs : forall acts,
  (forall st, In c (snd (fireHandlers e (l_handlers L) st))) ->
  In L (List.map a_listener acts) -> In e evs ->
  In c (allCalls evs acts).
Proof.
  induction evs as [|e' evs IH]; intros acts Hc HL Hin; [done|].
  cbn [allCalls].
  pose proof (dispatch_listeners e' acts) as Hls.
  destruct (dispatch e' acts) as [acts' cs] eqn:Ed. simpl in Hls.
  apply in_or_app. destruct Hin as [->|Hin].
  - left. apply in_map_iff in HL as (a & Ha & Hin).
    replace cs with (snd (dispatch e acts)) by (by rewrite Ed).
    apply (dispatch_In_calls e a); [done|].
    destruct a as [L' st]. simpl in Ha. subst L'. unfold fire. simpl.
    specialize (Hc st). by destruct (fireHandlers e (l_handlers L) st).
  - right. apply IH; [done| |done]. by rewrite Hls.
Qed.

(** X8. A recoverable parse error cannot be silenced: with the errors
    rule registered, every error event of the parser is in the result as
    an error message of that rule at the event's position (line and column
    1 when absent), whatever the ruleset, the allow table and the ignore
    ranges are. *)
Theorem parse_errors_always_reported rules parse text arg reuse h
    message line col :
  lookupRule rules "errors" = Some errors_def ->
  In (EvError message line col) (fst (parse text reuse)) ->
  In (postprocess
        (mkMessage TError false None (Some (default 1 line))
           (Some (default 1 col)) message (Some (r_rule errors_def))))
    (verifyMessages rules parse text arg reuse h).
Proof.
  intros Hreg Hev. rewrite verifyMessages_eq. apply in_map.
  apply list_elem_of_In. rewrite jsSort_perm. apply list_elem_of_In.
  destruct (effectiveRuleset_forced rules text arg h) as (o & Heff).
  destruct (emitted_spec rules parse text arg reuse h)
    as (l & h1 & al & ig & Hp & ->).
  unfold effectiveRuleset in Heff. rewrite Hp in Heff.
  apply in_or_app. left. apply in_flat_map.
  exists (CallError message (mkPos line col) (Some (r_rule errors_def))).
  split.
  - apply (allCalls_In (errors_init (r_rule errors_def))
             (EvError message line col)); [| |done].
    + intros st. simpl. by left.
    + rewrite Heff. apply in_map_iff.
      exists (mkActive (errors_init (r_rule errors_def)) tt).
      split; [reflexivity|]. apply in_map_iff.
      exists ("errors", mkActive (errors_init (r_rule errors_def)) tt).
      split; [reflexivity|].
      apply (attach_In rules _ "errors" (JNum 2) errors_def);
        [|reflexivity|exact Hreg].
      apply obj_own_In, obj_own_put_same.
  - simpl. left. unfold positional. simpl. by rewrite evidenceAt_nil.
Qed.

Lemma parse_errors_always_reported_witness :
  In (postprocess
        (mkMessage TError false None (Some 2) (Some 1)
           "Unexpected token '}'." (Some (r_rule errors_def))))
    (verifyMessages Sample.registry
       (Sample.emits [EvError "Unexpected token '}'." (Some 2) None] None)
       ("/* csslint ignore:start */" +:+ Sample.nl +:+ "}")
       (Some 7%nat) false {[ 7%nat := [("errors", JNum 0)] ]}).
Proof.
  apply (parse_errors_always_reported Sample.registry
           (Sample.emits [EvError "Unexpected token '}'." (Some 2) None] None)
           ("/* csslint ignore:start */" +:+ Sample.nl +:+ "}")
           (Some 7%nat) false {[ 7%nat := [("errors", JNum 0)] ]}
           "Unexpected token '}'." (Some 2) None).
  - reflexivity.
  - simpl. by left.
Defined.

(** ** What the result keeps *)

Lemma postprocess_wf m : wfMessage m -> wfMessage (postprocess m).
Proof. by intros [?|?]; [left|right]. Qed.

(** X9. Sorting and post-processing neither drop nor duplicate a
    message: the result is a rearrangement of the post-processed messages
    the reporter held, and each of its messages either is positional with
    both a line and a column or is a rollup with neither. *)
Theorem verify_keeps_all_messages rules parse text arg reuse h :
  verifyMessages rules parse text arg reuse h ≡ₚ
    List.map postprocess (messages (emitted rules parse text arg reuse h)) /\
  Forall wfMessage (verifyMessages rules parse text arg reuse h).
Proof.
  rewrite verifyMessages_eq. split.
  - apply Permutation_map, jsSort_perm.
  - apply Forall_fmap. rewrite jsSort_perm.
    eapply Forall_impl; [apply emitted_wf|]. intros m. apply postprocess_wf.
Qed.

(** X10. A fatal failure of the parser keeps the partial results: the
    messages are those the same events give when the parser ends
    normally, plus exactly one error message that has no rule, carries the
    failure's stack after a fixed headline, and sits at the failure's
    position, line and column 1 when absent. *)
Theorem fatal_error_keeps_partial_results rules p1 p2 text arg reuse h evs x :
  p1 text reuse = (evs, Some x) ->
  p2 text reuse = (evs, None) ->
  verifyMessages rules p1 text arg reuse h ≡ₚ
    postprocess
      (mkMessage TError false None (Some (default 1 (ex_line x)))
         (Some (default 1 (ex_col x))) (fatalText x) None) ::
    verifyMessages rules p2 text arg reuse h.
Proof.
  intros H1 H2. rewrite !verifyMessages_eq, !jsSort_perm.
  destruct (emitted_spec rules p1 text arg reuse h)
    as (l & h1 & al & ig & Hp & ->).
  destruct (emitted_spec rules p2 text arg reuse h)
    as (l' & h1' & al' & ig' & Hp' & ->).
  rewrite Hp in Hp'. injection Hp' as <- <- <- <-.
  rewrite H1, H2. simpl. rewrite app_nil_r, List.map_app. simpl.
  unfold positional. simpl. rewrite evidenceAt_nil.
  symmetry. apply Permutation_cons_append.
Qed.

Lemma fatal_error_keeps_partial_results_witness :
  verifyMessages Sample.registry
    (Sample.emits Sample.importantEvents (Some (mkExn "at parse" None None)))
    Sample.importantText None false ∅ ≡ₚ
  postprocess
    (mkMessage TError false None (Some 1) (Some 1)
       (fatalText (mkExn "at parse" None None)) None) ::
  verifyMessages Sample.registry (Sample.emits Sample.importantEvents None)
    Sample.importantText None false ∅.
Proof.
  apply (fatal_error_keeps_partial_results Sample.registry _ _ _ _ _ _
           Sample.importantEvents (mkExn "at parse" None None));
    reflexivity.
Defined.

(** ** Which rules are attached *)

(** X11. A rule is attached exactly when the ruleset has an entry for
    its id with a truthy level and the id is registered: an unknown id and
    a falsy level attach nothing. *)
Theorem attach_characterised rules (rs : Obj) i :
  In i (List.map fst (attach rules rs)) <->
  exists v d, In (i, v) rs /\ truthy v = true /\ lookupRule rules i = Some d.
Proof.
  split.
  - intros Hin. apply in_map_iff in Hin as ([j a] & Hj & Hin).
    simpl in Hj. subst j. unfold attach in Hin.
    apply in_flat_map in Hin as ([k v] & He & Hin).
    pose proof (attachEntry_key _ _ _ _ Hin) as [Hk Ht]. simpl in Hk, Ht.
    subst k. unfold attachEntry in Hin. simpl in Hin. rewrite Ht in Hin.
    destruct (lookupRule rules i) as [d|] eqn:Hd; [|done].
    exists v, d. split; [|done].
    apply list_elem_of_In. rewrite <- (entries_perm rs).
    by apply list_elem_of_In.
  - intros (v & d & Hin & Ht & Hd). apply in_map_iff.
    eexists. split; [|by eapply attach_In]. reflexivity.
Qed.

(** ** The default ruleset *)

Lemma fold_set_const (v : JsVal) (ks : list string) : forall (o : Obj) k,
  obj_own (fold_left (fun o k' => obj_set o k' v) ks o) k =
    if existsb (String.eqb k) ks && negb (String.eqb k "__proto__")
    then Some v else obj_own o k.
Proof.
  induction ks as [|k' ks IH]; intros o k; cbn [fold_left existsb];
    [reflexivity|].
  rewrite IH.
  assert (Hset : obj_own (obj_set o k' v) k =
                 if String.eqb k k' && negb (String.eqb k "__proto__")
                 then Some v else obj_own o k).
  { unfold obj_set. destruct (String.eqb_spec k k') as [->|Hne]; cbn [andb].
    - destruct (String.eqb k' "__proto__"); cbn [negb]; [reflexivity|].
      apply obj_own_put_same.
    - destruct (String.eqb k' "__proto__"); [reflexivity|].
      by apply obj_own_put_other. }
  rewrite Hset.
  destruct (existsb (String.eqb k) ks), (String.eqb k k'),
    (negb (String.eqb k "__proto__")); reflexivity.
Qed.

Lemma fold_left_fmap {A B C} (f : A -> C -> A) (g : B -> C) l : forall a,
  fold_left f (List.map g l) a = fold_left (fun a x => f a (g x)) l a.
Proof. induction l as [|x l IH]; intros a; simpl; [reflexivity|apply IH]. Qed.

(** X12. The default ruleset holds level 1 for every registered rule id
    and has no other key. *)
Theorem getRuleSet_all_warnings rules i :
  obj_own (getRuleSet rules) i =
    if existsb (fun d => String.eqb i (id (r_rule d))) rules &&
       negb (String.eqb i "__proto__")
    then Some (JNum 1) else None.
Proof.
  unfold getRuleSet.
  rewrite <- (fold_left_fmap (fun o k' => obj_set o k' (JNum 1)) fst).
  rewrite fold_set_const. simpl.
  replace (existsb (String.eqb i)
             (List.map fst (entries (List.map (fun d => (id (r_rule d), d)) rules))))
    with (existsb (fun d => String.eqb i (id (r_rule d))) rules); [reflexivity|].
  apply eq_true_iff_eq. rewrite !existsb_exists. split.
  - intros (d & Hin & He). exists (id (r_rule d)). split; [|done].
    apply in_map_iff. exists (id (r_rule d), d). split; [reflexivity|].
    apply list_elem_of_In. rewrite entries_perm. apply list_elem_of_In.
    apply in_map_iff. by exists d.
  - intros (k & Hin & He). apply in_map_iff in Hin as ([k' d] & Hk & Hin).
    simpl in Hk. subst k'. apply list_elem_of_In in Hin.
    rewrite entries_perm in Hin. apply list_elem_of_In in Hin.
    apply in_map_iff in Hin as (d' & [= <- <-] & Hin). by exists d'.
Qed.

(** ** The sorted rule list *)

Lemma code_inj x y : JS.code x = JS.code y -> x = y.
Proof.
  unfold JS.code. intros H. apply N2Z.inj in H.
  rewrite <- (ascii_N_embedding x), <- (ascii_N_embedding y). by rewrite H.
Qed.

Lemma strLt_irrefl a : strLt a a = false.
Proof.
  induction a as [|x a IH]; simpl; [reflexivity|].
  rewrite Z.ltb_irrefl, Z.eqb_refl. exact IH.
Qed.

Lemma strLt_trans a : forall b c,
  strLt a b = true -> strLt b c = true -> strLt a c = true.
Proof.
  induction a as [|x a IH]; intros [|y b] [|z c]; simpl; try done.
  intros H1 H2.
  destruct (Z.ltb_spec (JS.code x) (JS.code y)) as [E1|E1];
    destruct (Z.ltb_spec (JS.code y) (JS.code z)) as [E2|E2];
    destruct (Z.ltb_spec (JS.code x) (JS.code z)) as [E5|E5]; try reflexivity;
    destruct (Z.eqb_spec (JS.code x) (JS.code y)) as [E3|E3];
    destruct (Z.eqb_spec (JS.code y) (JS.code z)) as [E4|E4];
    destruct (Z.eqb_spec (JS.code x) (JS.code z)) as [E6|E6];
    try done; try lia.
  by eapply IH.
Qed.

Lemma strLt_total a : forall b,
  strLt a b = false -> strLt b a = false -> a = b.
Proof.
  induction a as [|x a IH]; intros [|y b]; simpl; try done.
  destruct (JS.code x <? JS.code y) eqn:E1; [done|].
  destruct (JS.code y <? JS.code x) eqn:E2; [done|].
  apply Z.ltb_ge in E1, E2.
  assert (Hxy : JS.code x = JS.code y) by lia.
  rewrite Hxy, Z.eqb_refl. apply code_inj in Hxy as ->.
  intros H1 H2. f_equal. by apply IH.
Qed.

Lemma strLe_trans a b c :
  strLt b a = false -> strLt c b = false -> strLt c a = false.
Proof.
  intros H1 H2. destruct (strLt c a) eqn:E; [|reflexivity].
  destruct (strLt a b) eqn:F.
  - by rewrite (strLt_trans c a b E F) in H2.
  - rewrite (strLt_total a b F H1) in E. by rewrite E in H2.
Qed.

Lemma sortInsert_sorted_gen {A} (cmp : A -> A -> option Z) (R : A -> A -> Prop) :
  (forall x y, before cmp x y = true -> R x y) ->
  (forall x y, before cmp x y = false -> R y x) ->
  (forall x y z, R x y -> R y z -> R x z) ->
  forall x l, StronglySorted R l -> StronglySorted R (sortInsert cmp x l).
Proof.
  intros Ht Hf Htr x l HS. induction HS as [|y l HS IH Hy]; simpl.
  - repeat constructor.
  - destruct (before cmp x y) eqn:E.
    + constructor; [by constructor|]. constructor; [by apply Ht|].
      eapply Forall_impl; [exact Hy|]. intros z Hz.
      eapply Htr; [by apply Ht|done].
    + constructor; [done|]. rewrite sortInsert_perm.
      constructor; [by apply Hf | done].
Qed.

Lemma jsSort_sorted_gen {A} (cmp : A -> A -> option Z) (R : A -> A -> Prop) :
  (forall x y, before cmp x y = true -> R x y) ->
  (forall x y, before cmp x y = false -> R y x) ->
  (forall x y z, R x y -> R y z -> R x z) ->
  forall l, StronglySorted R (jsSort cmp l).
Proof.
  intros Ht Hf Htr l. induction l as [|x l IH] using rev_ind; [constructor|].
  rewrite jsSort_snoc. by apply sortInsert_sorted_gen.
Qed.

(** X13. The rule list is the registry sorted by id: no rule is lost or
    added, and no rule comes before one with a smaller id, ids compared by
    code units. *)
Theorem getRuleList_sorted rules :
  getRuleList rules ≡ₚ rules /\
  StronglySorted (fun a b => strLt (id (r_rule b)) (id (r_rule a)) = false)
    (getRuleList rules).
Proof.
  unfold getRuleList. split.
  - rewrite jsSort_perm, entries_perm, List.map_map. simpl.
    by rewrite List.map_id.
  - apply jsSort_sorted_gen.
    + intros x y. unfold before, compareIds.
      destruct (strLt (id (r_rule x)) (id (r_rule y))) eqn:E.
      * intros _. destruct (strLt (id (r_rule y)) (id (r_rule x))) eqn:F;
          [|reflexivity].
        pose proof (strLt_trans _ _ _ E F) as G.
        by rewrite strLt_irrefl in G.
      * by destruct (strLt (id (r_rule y)) (id (r_rule x))).
    + intros x y. unfold before, compareIds.
      destruct (strLt (id (r_rule x)) (id (r_rule y))) eqn:E; [done|done].
    + intros x y z H1 H2. by eapply strLe_trans.
Qed.

(** ** The abbreviation table *)

Lemma unabbreviate_head c str :
  unabbreviate c str = String c (default "undefined" (abbrGet ABBR_MAP str)).
Proof. reflexivity. Qed.

Lemma replaceAbbr_head d b : exists rest, replaceAbbr O (String d b) = String d rest.
Proof.
  cbn [replaceAbbr].
  destruct (rxGrammarAbbr_at (String d b)) as [[c' str]|] eqn:E; [|by eexists].
  assert (c' = d) as ->.
  { unfold rxGrammarAbbr_at in E.
    repeat match type of E with
           | (if ?c then _ else _) = _ => destruct c
           end; congruence. }
  rewrite unabbreviate_head. by eexists.
Qed.

Lemma postprocessText_match a t str :
  rxGrammarAbbr_at (String "<" t) = Some ("<"%char, str) ->
  exists out,
    postprocessText (a +:+ String "<" t) =
      out +:+ unabbreviate "<" str +:+ replaceAbbr (String.length str) t.
Proof.
  intros Hm. unfold postprocessText. rewrite indexOf_0.
  pose proof (findFirst_lt_found a t 0) as Hfound.
  destruct (0 <=? JS.findFirst "<" (a +:+ String "<" t) 0) eqn:E;
    [|apply Z.leb_gt in E; lia].
  destruct (replaceAbbr_reach a t O) as (out & ->); [lia|].
  exists out. cbn [replaceAbbr]. by rewrite Hm.
Qed.

Lemma rxGrammarAbbr_table k v d b :
  In (k, v) ABBR_MAP -> JS.isWord d = false ->
  rxGrammarAbbr_at (String "<" (k +:+ String d b)) = Some ("<"%char, k) /\
  replaceAbbr (String.length k) (k +:+ String d b) = replaceAbbr O (String d b) /\
  abbrGet ABBR_MAP k = Some v.
Proof.
  intros Hin Hd. unfold ABBR_MAP in Hin.
  repeat (destruct Hin as [Hin|Hin];
          [injection Hin as <- <-;
           (split; [|split; reflexivity]);
           cbv -[JS.isWord]; by rewrite Hd|]).
  destruct Hin.
Qed.

(** X14. Every abbreviation of the table is expanded: a message text in
    which [<] and a key of the table are followed by a character that is no
    word character holds, after post-processing, [<], the key's expansion
    and that character. *)
Theorem abbreviations_expanded k v a d b :
  In (k, v) ABBR_MAP -> JS.isWord d = false ->
  contains ("<" +:+ v +:+ String d "")
    (postprocessText (a +:+ "<" +:+ k +:+ String d b)).
Proof.
  intros Hin Hd.
  destruct (rxGrammarAbbr_table k v d b Hin Hd) as (Hm & Hskip & Hget).
  change ("<" +:+ k +:+ String d b) with (String "<" (k +:+ String d b)).
  destruct (postprocessText_match a _ _ Hm) as (out & ->).
  rewrite Hskip, unabbreviate_head, Hget.
  destruct (replaceAbbr_head d b) as (rest & ->).
  exists out, rest. cbn [default from_option]. unfold Datatypes.id.
  f_equal.
  change (String "<" (v +:+ String d (EmptyString +:+ rest)) =
          String "<" (v +:+ String d EmptyString) +:+ rest).
  change (String "<" (v +:+ String d EmptyString) +:+ rest)
    with (String "<" ((v +:+ String d EmptyString) +:+ rest)).
  f_equal. rewrite append_assoc. reflexivity.
Qed.

Lemma abbreviations_expanded_witness :
  contains "<percentage>" (postprocessText "Expected <pct> but found none.").
Proof.
  apply (abbreviations_expanded "pct" "percentage" "Expected " ">"
           " but found none.").
  - vm_compute. tauto.
  - reflexivity.
Defined.

(** X15. A [rel-] abbreviation that the table does not hold loses its
    name: [<rel-] with three word characters and then a character that is
    no word character is replaced by [<undefined], the sum of the bracket
    and the missing table entry. *)
Theorem unknown_rel_abbreviation a w1 w2 w3 d b :
  JS.isWord w1 = true -> JS.isWord w2 = true -> JS.isWord w3 = true ->
  JS.isWord d = false ->
  abbrGet ABBR_MAP ("rel-" +:+ String w1 (String w2 (String w3 ""))) = None ->
  contains ("<undefined" +:+ String d "")
    (postprocessText
       (a +:+ "<rel-" +:+ String w1 (String w2 (String w3 (String d b))))).
Proof.
  intros H1 H2 H3 Hd Hget.
  change ("<rel-" +:+ String w1 (String w2 (String w3 (String d b))))
    with (String "<" ("rel-" +:+ String w1 (String w2 (String w3 (String d b))))).
  destruct (postprocessText_match a
              ("rel-" +:+ String w1 (String w2 (String w3 (String d b))))
              ("rel-" +:+ String w1 (String w2 (String w3 "")))) as (out & ->).
  { cbv -[JS.isWord]. by rewrite H1, H2, H3, Hd. }
  rewrite unabbreviate_head, Hget.
  change (replaceAbbr _ _) with (replaceAbbr O (String d b)).
  destruct (replaceAbbr_head d b) as (rest & ->).
  by exists out, rest.
Qed.

Lemma unknown_rel_abbreviation_witness :
  contains "<undefined>" (postprocessText "Expected <rel-xyz> here.").
Proof.
  apply (unknown_rel_abbreviation "Expected " "x" "y" "z" ">" " here.");
    reflexivity.
Defined.

(** ** Counting rules *)

Lemma countFontFaces_cons e evs :
  countFontFaces (e :: evs) =
    (if String.eqb "startfontface" (ev_type e) then 1 else 0) +
    countFontFaces evs.
Proof.
  unfold countFontFaces. cbn [List.filter].
  destruct (String.eqb "startfontface" (ev_type e)); cbn [List.length]; lia.
Qed.

Lemma dispatch_font_faces rule e c :
  ev_type e <> "endstylesheet" ->
  dispatch e [mkActive (font_faces_init rule) c] =
    ([mkActive (font_faces_init rule)
        (c + if String.eqb "startfontface" (ev_type e) then 1 else 0)], []).
Proof.
  intros Ht. unfold dispatch, fire.
  cbn [l_handlers font_faces_init a_listener a_state fireHandlers].
  assert (E : String.eqb "endstylesheet" (ev_type e) = false).
  { apply String.eqb_neq. intros H. by apply Ht. }
  rewrite E.
  destruct (String.eqb "startfontface" (ev_type e)); simpl;
    by rewrite ?Z.add_0_r.
Qed.

Lemma font_faces_calls rule evs : forall c,
  Forall (fun e => ev_type e <> "endstylesheet") evs ->
  allCalls (evs ++ [EvEndStylesheet]) [mkActive (font_faces_init rule) c] =
    if 5 <? c + countFontFaces evs
    then [CallRollupWarn (fontFacesMessage (c + countFontFaces evs)) (Some rule)]
    else [].
Proof.
  induction evs as [|e evs IH]; intros c Hevs.
  - unfold countFontFaces. simpl. unfold fire. simpl.
    rewrite Z.add_0_r. destruct (5 <? c); reflexivity.
  - apply Forall_cons in Hevs as [He Hevs].
    change ((e :: evs) ++ [EvEndStylesheet])%list
      with (e :: (evs ++ [EvEndStylesheet]))%list.
    cbn [allCalls]. rewrite (dispatch_font_faces rule e c He).
    rewrite (IH _ Hevs), countFontFaces_cons, Z.add_assoc. reflexivity.
Qed.

(** X16. The font-faces rule speaks once, at the end of the stylesheet,
    and only above five [@font-face] blocks: over a stylesheet that ends
    once its only call is a rollup warning that cites the count, made when
    the count exceeds 5; it records no statistic. *)
Theorem font_faces_threshold rule evs :
  Forall (fun e => ev_type e <> "endstylesheet") evs ->
  allCalls (evs ++ [EvEndStylesheet]) [mkActive (font_faces_init rule) 0] =
    if 5 <? countFontFaces evs
    then [CallRollupWarn (fontFacesMessage (countFontFaces evs)) (Some rule)]
    else [].
Proof. intros Hevs. by rewrite font_faces_calls. Qed.

Lemma font_faces_threshold_witness :
  allCalls (repeat (EvOther "startfontface" None None) 6 ++ [EvEndStylesheet])
    [mkActive (font_faces_init (r_rule errors_def)) 0] =
  [CallRollupWarn "Too many @font-face declarations (6)."
     (Some (r_rule errors_def))].
Proof.
  apply (font_faces_threshold (r_rule errors_def)
           (repeat (EvOther "startfontface" None None) 6)).
  repeat (apply List.Forall_cons; [discriminate|]). apply List.Forall_nil.
Defined.

Lemma countFontSizes_cons e evs :
  countFontSizes (e :: evs) =
    (if fontSizeEvent e then 1 else 0) + countFontSizes evs.
Proof.
  unfold countFontSizes. simpl. destruct (fontSizeEvent e); simpl length; lia.
Qed.

Lemma dispatch_font_sizes rule e c :
  ev_type e <> "endstylesheet" ->
  dispatch e [mkActive (font_sizes_init rule) c] =
    ([mkActive (font_sizes_init rule) (c + if fontSizeEvent e then 1 else 0)],
     []).
Proof.
  intros Ht. unfold dispatch, fire.
  cbn [l_handlers font_sizes_init a_listener a_state fireHandlers].
  destruct e as [p v im ip ln cl|m ln cl| |t ln cl]; cbn [ev_type] in *.
  - simpl. reflexivity.
  - simpl. by rewrite Z.add_0_r.
  - done.
  - assert (E : String.eqb "endstylesheet" t = false).
    { apply String.eqb_neq. congruence. }
    rewrite E. destruct (String.eqb "property" t); simpl; by rewrite Z.add_0_r.
Qed.

Lemma font_sizes_calls rule evs : forall c,
  Forall (fun e => ev_type e <> "endstylesheet") evs ->
  allCalls (evs ++ [EvEndStylesheet]) [mkActive (font_sizes_init rule) c] =
    CallStat "font-sizes" (c + countFontSizes evs) ::
    (if 10 <=? c + countFontSizes evs
     then [CallRollupWarn (fontSizesMessage (c + countFontSizes evs))
             (Some rule)]
     else []).
Proof.
  induction evs as [|e evs IH]; intros c Hevs.
  - unfold countFontSizes. simpl. unfold fire. simpl.
    rewrite Z.add_0_r. destruct (10 <=? c); reflexivity.
  - apply Forall_cons in Hevs as [He Hevs].
    change ((e :: evs) ++ [EvEndStylesheet])%list
      with (e :: (evs ++ [EvEndStylesheet]))%list.
    cbn [allCalls]. rewrite (dispatch_font_sizes rule e c He).
    rewrite (IH _ Hevs), countFontSizes_cons, Z.add_assoc. reflexivity.
Qed.

(** X17. The font-sizes rule counts the declarations whose property name,
    lower-cased and without vendor prefix, is [font-size]: over a stylesheet
    that ends once it records that count as the statistic [font-sizes] and
    then, from ten on, issues one rollup warning that cites it; it makes no
    other call. *)
Theorem font_sizes_threshold rule evs :
  Forall (fun e => ev_type e <> "endstylesheet") evs ->
  allCalls (evs ++ [EvEndStylesheet]) [mkActive (font_sizes_init rule) 0] =
    CallStat "font-sizes" (countFontSizes evs) ::
    (if 10 <=? countFontSizes evs
     then [CallRollupWarn (fontSizesMessage (countFontSizes evs)) (Some rule)]
     else []).
Proof. intros Hevs. by rewrite font_sizes_calls. Qed.

Lemma font_sizes_threshold_witness :
  allCalls
    (repeat (EvProperty (mkToken "-moz-Font-Size" None 5 (Some 1) (Some 1))
               (mkValue "1em") false false (Some 1) (Some 1)) 10 ++
     [EvEndStylesheet])
    [mkActive (font_sizes_init (r_rule errors_def)) 0] =
  [CallStat "font-sizes" 10;
   CallRollupWarn "Too many font-size declarations (10), abstraction needed."
     (Some (r_rule errors_def))].
Proof.
  apply (font_sizes_threshold (r_rule errors_def)
           (repeat (EvProperty
                      (mkToken "-moz-Font-Size" None 5 (Some 1) (Some 1))
                      (mkValue "1em") false false (Some 1) (Some 1)) 10)).
  repeat (apply List.Forall_cons; [discriminate|]). apply List.Forall_nil.
Defined.

(** ** The important rule *)

Lemma importantReports_cons rule e evs :
  importantReports rule (e :: evs) =
    (importantReports rule [e] ++ importantReports rule evs)%list.
Proof. unfold importantReports. simpl. by rewrite app_nil_r. Qed.

Lemma dispatch_important rule e c :
  ev_type e <> "endstylesheet" ->
  dispatch e [mkActive (important_init rule) c] =
    ([mkActive (important_init rule)
        (c + Z.of_nat (List.length (importantReports rule [e])))],
     importantReports rule [e]).
Proof.
  intros Ht. unfold dispatch, fire.
  cbn [l_handlers important_init a_listener a_state fireHandlers].
  destruct e as [p v im ip ln cl|m ln cl| |t ln cl]; cbn [ev_type] in *.
  - destruct im; simpl; by rewrite ?Z.add_0_r.
  - simpl. by rewrite Z.add_0_r.
  - done.
  - assert (E : String.eqb "endstylesheet" t = false).
    { apply String.eqb_neq. congruence. }
    rewrite E. destruct (String.eqb "property" t); simpl; by rewrite Z.add_0_r.
Qed.

Lemma important_calls rule evs : forall c,
  Forall (fun e => ev_type e <> "endstylesheet") evs ->
  allCalls (evs ++ [EvEndStylesheet]) [mkActive (important_init rule) c] =
    (importantReports rule evs ++
     CallStat "important" (c + Z.of_nat (List.length (importantReports rule evs))) ::
     (if 10 <=? c + Z.of_nat (List.length (importantReports rule evs))
      then [CallRollupWarn
              (importantMessage
                 (c + Z.of_nat (List.length (importantReports rule evs))))
              (Some rule)]
      else []))%list.
Proof.
  induction evs as [|e evs IH]; intros c Hevs.
  - simpl. unfold fire. simpl.
    rewrite Z.add_0_r. destruct (10 <=? c); reflexivity.
  - apply Forall_cons in Hevs as [He Hevs].
    change ((e :: evs) ++ [EvEndStylesheet])%list
      with (e :: (evs ++ [EvEndStylesheet]))%list.
    cbn [allCalls]. rewrite (dispatch_important rule e c He).
    rewrite (IH _ Hevs), (importantReports_cons rule e evs).
    rewrite length_app, Nat2Z.inj_add, Z.add_assoc, <- app_assoc.
    reflexivity.
Qed.

(** X18. The important rule reports every declaration flagged
    [!important] at the declaration's own position, in stream order, and
    at the end of the stylesheet records their number as the statistic
    [important]; from ten on it adds one rollup warning citing the number.
    It makes no other call. *)
Theorem important_rule_calls rule evs :
  Forall (fun e => ev_type e <> "endstylesheet") evs ->
  let n := Z.of_nat (List.length (importantReports rule evs)) in
  allCalls (evs ++ [EvEndStylesheet]) [mkActive (important_init rule) 0] =
    (importantReports rule evs ++
     CallStat "important" n ::
     (if 10 <=? n
      then [CallRollupWarn (importantMessage n) (Some rule)]
      else []))%list.
Proof. intros Hevs n. by rewrite important_calls. Qed.

Lemma important_rule_calls_witness :
  allCalls
    [ EvOther "startrule" (Some 1) (Some 1);
      Sample.prop "color" "red" true 1 3;
      Sample.prop "top" "0" false 1 23;
      EvOther "endrule" (Some 1) (Some 29);
      EvEndStylesheet ]
    [mkActive (important_init (r_rule important_def)) 0] =
  [ CallReport "!important." (mkPos (Some 1) (Some 3)) (r_rule important_def);
    CallStat "important" 1 ].
Proof.
  apply (important_rule_calls (r_rule important_def)
           [ EvOther "startrule" (Some 1) (Some 1);
             Sample.prop "color" "red" true 1 3;
             Sample.prop "top" "0" false 1 23;
             EvOther "endrule" (Some 1) (Some 29) ]).
  repeat (apply List.Forall_cons; [discriminate|]). apply List.Forall_nil.
Defined.

(** ** The globals-in-document rule *)

Lemma allCalls_app_state evs1 : forall evs2 acts,
  allCalls (evs1 ++ evs2) acts =
    (allCalls evs1 acts ++
     allCalls evs2 (fold_left (fun a e => fst (dispatch e a)) evs1 acts))%list.
Proof.
  induction evs1 as [|e evs1 IH]; intros evs2 acts; [reflexivity|].
  cbn [allCalls List.app fold_left].
  destruct (dispatch e acts) as [acts' cs] eqn:E. cbn [fst].
  by rewrite IH, app_assoc.
Qed.

Lemma dispatch_globals_other rule e st :
  isDocEvent e = false ->
  dispatch e [mkActive (globals_init rule) st] =
    ([mkActive (globals_init rule) st],
     if isGlobal e then snd (globalsCheck rule e st) else []).
Proof.
  unfold isDocEvent, isGlobal. intros Hd.
  apply orb_false_iff in Hd as [Hs He].
  rewrite String.eqb_sym in Hs. rewrite String.eqb_sym in He.
  unfold dispatch, fire.
  cbn [l_handlers globals_init a_listener a_state fireHandlers].
  rewrite Hs, He.
  rewrite (String.eqb_sym (ev_type e) "import"),
    (String.eqb_sym (ev_type e) "charset"),
    (String.eqb_sym (ev_type e) "namespace").
  destruct (String.eqb_spec "import" (ev_type e)) as [E1|E1].
  { rewrite <- E1.
    change (String.eqb "charset" "import") with false.
    change (String.eqb "namespace" "import") with false.
    cbn [orb globalsCheck snd]. by rewrite !app_nil_r. }
  destruct (String.eqb_spec "charset" (ev_type e)) as [E2|E2].
  { rewrite <- E2.
    change (String.eqb "namespace" "charset") with false.
    cbn [orb globalsCheck snd]. by rewrite !app_nil_r. }
  destruct (String.eqb_spec "namespace" (ev_type e)) as [E3|E3].
  { cbn [orb globalsCheck snd]. by rewrite !app_nil_r. }
  reflexivity.
Qed.

Lemma globals_body rule body : forall st,
  Forall (fun e => isDocEvent e = false) body ->
  allCalls body [mkActive (globals_init rule) st] =
    (if negb (fst st =? 0) && negb (snd st =? 0)
     then globalsReports rule body else []) /\
  fold_left (fun a e => fst (dispatch e a)) body
    [mkActive (globals_init rule) st] = [mkActive (globals_init rule) st].
Proof.
  induction body as [|e body IH]; intros st Hb.
  - split; [|reflexivity]. simpl. by destruct (_ && _).
  - apply Forall_cons in Hb as [He Hb].
    cbn [allCalls fold_left]. rewrite (dispatch_globals_other rule e st He).
    cbn [fst]. destruct (IH st Hb) as [-> ->]. split; [|reflexivity].
    unfold globalsReports, globalsCheck. cbn [List.filter snd].
    destruct (isGlobal e); destruct (negb (fst st =? 0) && negb (snd st =? 0));
      reflexivity.
Qed.

Lemma globals_items rule items : forall index,
  Forall docItemOk items ->
  allCalls (flat_map docEvents items) [mkActive (globals_init rule) (0, index)] =
    globalsExpected rule index items.
Proof.
  induction items as [|it items IH]; intros index Hok; [reflexivity|].
  apply Forall_cons in Hok as [Hit Hok].
  cbn [flat_map]. rewrite allCalls_app_state.
  destruct it as [e|l c body l' c']; cbn [docItemOk docEvents] in *.
  - destruct (globals_body rule [e] (0, index)) as [-> ->].
    { by apply List.Forall_cons. }
    cbn [fst Z.eqb negb andb List.app globalsExpected]. by apply IH.
  - change (EvOther "startdocument" l c :: body ++ [EvOther "enddocument" l' c'])%list
      with ([EvOther "startdocument" l c] ++ body ++ [EvOther "enddocument" l' c'])%list.
    rewrite fold_left_app, allCalls_app_state.
    change (fold_left (fun a e => fst (dispatch e a)) [EvOther "startdocument" l c]
              [mkActive (globals_init rule) (0, index)])
      with [mkActive (globals_init rule) (0 + 1, index)].
    change (allCalls [EvOther "startdocument" l c]
              [mkActive (globals_init rule) (0, index)]) with (@nil Call).
    rewrite fold_left_app, allCalls_app_state.
    destruct (globals_body rule body (0 + 1, index) Hit) as [-> ->].
    change (fold_left (fun a e => fst (dispatch e a)) [EvOther "enddocument" l' c']
              [mkActive (globals_init rule) (0 + 1, index)])
      with [mkActive (globals_init rule) (0 + 1 - 1, index + 1)].
    change (allCalls [EvOther "enddocument" l' c']
              [mkActive (globals_init rule) (0 + 1, index)]) with (@nil Call).
    change (0 + 1 - 1) with 0. rewrite (IH (index + 1) Hok).
    cbn [globalsExpected fst snd List.app]. rewrite app_nil_r.
    change (0 + 1 =? 0) with false. cbn [negb andb].
    by destruct (index =? 0).
Qed.

(** X19. The globals-in-document rule spares the first [@-moz-document]
    section and no other: over a stylesheet made of top-level events and
    sections that are not nested, its calls are one report for every
    [@import], [@charset] and [@namespace] inside the second and later
    sections, each naming the at-rule at its own position, in stream order;
    the same at-rules at top level or in the first section are not
    reported. *)
Theorem globals_after_first_section rule items :
  Forall docItemOk items ->
  allCalls (flat_map docEvents items) [mkActive (globals_init rule) (0, 0)] =
    globalsExpected rule 0 items.
Proof. apply globals_items. Qed.

Lemma globals_after_first_section_witness :
  allCalls
    (flat_map docEvents
       [ Top (EvOther "import" (Some 1) (Some 1));
         Doc (Some 2) (Some 1) [EvOther "namespace" (Some 3) (Some 1)]
           (Some 4) (Some 1);
         Doc (Some 5) (Some 1)
           [EvOther "import" (Some 6) (Some 1);
            EvOther "startrule" (Some 7) (Some 1)]
           (Some 8) (Some 1) ])
    [mkActive (globals_init (r_rule errors_def)) (0, 0)] =
  [ CallReport
      ("A nested @import is valid only if this @-moz-document section " +:+
       "is the first one matched for any given URL.")
      (mkPos (Some 6) (Some 1)) (r_rule errors_def) ].
Proof.
  apply (globals_after_first_section (r_rule errors_def)
    [ Top (EvOther "import" (Some 1) (Some 1));
      Doc (Some 2) (Some 1) [EvOther "namespace" (Some 3) (Some 1)]
        (Some 4) (Some 1);
      Doc (Some 5) (Some 1)
        [EvOther "import" (Some 6) (Some 1);
         EvOther "startrule" (Some 7) (Some 1)]
        (Some 8) (Some 1) ]).
  repeat (apply List.Forall_cons;
          [cbn [docItemOk];
           repeat (apply List.Forall_cons; [reflexivity|]);
           first [apply List.Forall_nil | reflexivity]|]).
  apply List.Forall_nil.
Defined.

(** ** The rule framework *)

Ltac closed_eqb :=
  repeat match goal with
         | |- context [String.eqb ?a ?b] =>
             let r := eval vm_compute in (String.eqb a b) in
             match r with
             | true => change (String.eqb a b) with true
             | false => change (String.eqb a b) with false
             end
         end.

Lemma fire_none {St} (hs : list (string * (Event -> St -> St * list Call)))
    e st :
  ~ In (ev_type e) (List.map fst hs) -> fireHandlers e hs st = (st, []).
Proof.
  induction hs as [|[t f] hs IH]; intros Hn; [reflexivity|].
  cbn [fireHandlers]. cbn [List.map fst In] in Hn.
  destruct (String.eqb_spec t (ev_type e)) as [E|E]; [tauto|].
  apply IH. tauto.
Qed.

(** With one handler per name, firing an event is a lookup. *)
Lemma fire_find {St} (hs : list (string * (Event -> St -> St * list Call)))
    e st :
  NoDup (List.map fst hs) ->
  fireHandlers e hs st =
    match List.find (fun h => String.eqb (fst h) (ev_type e)) hs with
    | Some h => snd h e st
    | None => (st, [])
    end.
Proof.
  induction hs as [|[t f] hs IH]; intros Hnd; [reflexivity|].
  cbn [List.map fst] in Hnd. apply NoDup_cons in Hnd as [Hnot Hnd].
  rewrite list_elem_of_In in Hnot.
  cbn [fireHandlers List.find fst snd].
  destruct (String.eqb_spec t (ev_type e)) as [E|E]; [|by apply IH].
  cbn [snd]. destruct (f e st) as [st1 c1].
  rewrite fire_none by by rewrite <- E.
  by rewrite app_nil_r.
Qed.

Lemma registerRuleEvents_fire {St}
    (start property end_ : option (Event -> St -> St * list Call)) e st :
  fireHandlers e (registerRuleEvents start property end_) st =
    if isBlockStart (ev_type e) then runOpt start e st
    else if isBlockEnd (ev_type e) then runOpt end_ e st
    else if String.eqb "property" (ev_type e) then runOpt property e st
    else (st, []).
Proof.
  rewrite fire_find.
  2:{ destruct start, property, end_;
        cbv [registerRuleEvents blockEvents flat_map optHandler List.app
             String.append List.map fst];
        apply (bool_decide_unpack _); vm_compute; exact I. }
  remember (ev_type e) as t eqn:Ht. clear Ht.
  destruct start as [s|], property as [p|], end_ as [en|];
    cbv [registerRuleEvents blockEvents flat_map optHandler List.app
         String.append isBlockStart isBlockEnd existsb runOpt List.find fst];
    repeat match goal with
           | |- context [String.eqb ?a t] =>
               destruct (String.eqb_spec a t) as [<-|?];
               [closed_eqb; reflexivity|]
           end;
    reflexivity.
Qed.

(** X20. [registerRuleEvents] wires every event name to one callback at
    most: the names of the nine block starts reach [start], those of the
    nine block ends reach [end], [property] reaches [property], and every
    other event reaches none; a callback that is left out is skipped. *)
Theorem registerRuleEvents_dispatch {St}
    (start property end_ : option (Event -> St -> St * list Call)) e st :
  fireHandlers e (registerRuleEvents start property end_) st =
    if isBlockStart (ev_type e) then runOpt start e st
    else if isBlockEnd (ev_type e) then runOpt end_ e st
    else if String.eqb "property" (ev_type e) then runOpt property e st
    else (st, []).
Proof. apply registerRuleEvents_fire. Qed.

(** ** The duplicate-properties rule *)

Lemma allCalls_single (L : Listener) evs : forall st,
  allCalls evs [mkActive L st] = snd (runHandlers (l_handlers L) evs st).
Proof.
  induction evs as [|e evs IH]; intros st; [reflexivity|].
  cbn [allCalls runHandlers dispatch]. unfold fire. cbn [a_listener a_state].
  destruct (fireHandlers e (l_handlers L) st) as [st1 c1].
  rewrite app_nil_r, IH.
  by destruct (runHandlers (l_handlers L) evs st1).
Qed.

Lemma runHandlers_app {St}
    (hs : list (string * (Event -> St -> St * list Call))) evs1 :
  forall evs2 st,
    runHandlers hs (evs1 ++ evs2) st =
      (fst (runHandlers hs evs2 (fst (runHandlers hs evs1 st))),
       (snd (runHandlers hs evs1 st) ++
        snd (runHandlers hs evs2 (fst (runHandlers hs evs1 st))))%list).
Proof.
  induction evs1 as [|e evs1 IH]; intros evs2 st.
  - cbn [List.app runHandlers fst snd]. by destruct (runHandlers hs evs2 st).
  - cbn [List.app runHandlers]. destruct (fireHandlers e hs st) as [st1 c1].
    rewrite IH. destruct (runHandlers hs evs1 st1) as [st2 c2]. cbn [fst snd].
    by rewrite app_assoc.
Qed.

Lemma dup_fire showToken rule e st :
  fireHandlers e (l_handlers (duplicate_properties_init showToken rule)) st =
    if isBlockStart (ev_type e) then dupStart e st
    else if isBlockEnd (ev_type e) then dupEnd e st
    else if String.eqb "property" (ev_type e)
         then dupProperty showToken rule e st
    else (st, []).
Proof. apply registerRuleEvents_fire. Qed.

Lemma dup_fire_property showToken rule p v im ip l c st :
  fireHandlers (EvProperty p v im ip l c)
    (l_handlers (duplicate_properties_init showToken rule)) st =
  dupProperty showToken rule (EvProperty p v im ip l c) st.
Proof. rewrite dup_fire. reflexivity. Qed.

Lemma runHandlers_cons_fst {St}
    (hs : list (string * (Event -> St -> St * list Call))) e evs st :
  fst (runHandlers hs (e :: evs) st) =
    fst (runHandlers hs evs (fst (fireHandlers e hs st))).
Proof.
  cbn [runHandlers]. destruct (fireHandlers e hs st) as [st1 c1].
  cbn [fst]. by destruct (runHandlers hs evs st1).
Qed.

Lemma entryKept_run showToken rule name vt evs : forall depth s,
  keepsEntry name depth evs = true ->
  entryKept name vt depth s ->
  entryKept name vt O
    (fst (runHandlers (l_handlers (duplicate_properties_init showToken rule))
            evs s)).
Proof.
  induction evs as [|e evs IH]; intros depth s Hk Hinv.
  - cbn [keepsEntry] in Hk. apply Nat.eqb_eq in Hk. by subst depth.
  - rewrite runHandlers_cons_fst, dup_fire. cbn [keepsEntry] in Hk.
    destruct (isBlockStart (ev_type e)) eqn:Es.
    { apply (IH (S depth)); [exact Hk|]. unfold dupStart. cbn [fst].
      destruct depth as [|d]; cbn [entryKept d_stack] in *.
      - destruct Hinv as (o & Ho & Hown).
        exists [], o, (d_stack s). by rewrite Ho.
      - destruct Hinv as (pre & o & rest & Hst & Hlen & Hown).
        exists (d_props s :: pre), o, rest. rewrite Hst. cbn [List.length].
        by rewrite Hlen. }
    destruct (isBlockEnd (ev_type e)) eqn:Ee.
    { destruct depth as [|d]; [done|].
      apply (IH d); [exact Hk|]. unfold dupEnd. cbn [fst].
      cbn [entryKept] in Hinv.
      destruct Hinv as (pre & o & rest & Hst & Hlen & Hown).
      rewrite Hst. destruct pre as [|x pre]; cbn [List.length] in Hlen; subst d.
      - cbn [entryKept d_props List.app hd]. by exists o.
      - cbn [entryKept d_stack List.app tl]. by exists pre, o, rest. }
    assert (Hsame : keepsEntry name depth evs = true ->
                    entryKept name vt O
                      (fst (runHandlers
                              (l_handlers
                                 (duplicate_properties_init showToken rule))
                              evs s))).
    { intros Hk'. by apply (IH depth). }
    destruct (String.eqb "property" (ev_type e)) eqn:Ep.
    2:{ cbn [fst]. apply Hsame.
        destruct depth as [|d]; [|exact Hk].
        destruct e as [? ? ? [|] ? ?| | |]; try exact Hk.
        by cbn [ev_type] in Ep. }
    destruct e as [p v im ip l c|m l c| |t l c];
      try (cbn [dupProperty fst]; apply Hsame; by destruct depth).
    unfold dupProperty.
    destruct ip; [cbn [fst]; apply Hsame; by destruct depth|].
    destruct (d_props s) as [props|] eqn:Hp.
    2:{ cbn [fst]. apply Hsame. destruct depth; [|exact Hk].
        by apply andb_true_iff in Hk as [_ Hk]. }
    cbn [fst]. destruct depth as [|d].
    + apply andb_true_iff in Hk as [Hne Hk]. apply (IH O); [exact Hk|].
      cbn [entryKept d_props] in *. destruct Hinv as (o & Ho & Hown).
      rewrite Hp in Ho. injection Ho as <-.
      eexists. split; [reflexivity|]. unfold obj_set.
      destruct (String.eqb (JS.toLowerCase (tk_text p)) "__proto__"); [done|].
      rewrite obj_own_put_other; [done|].
      apply negb_true_iff, String.eqb_neq in Hne. congruence.
    + apply (IH (S d)); [exact Hk|]. cbn [entryKept d_stack] in *. exact Hinv.
Qed.

Lemma obj_own_set_same (o : Obj) k v :
  k <> "__proto__" -> obj_own (obj_set o k v) k = Some v.
Proof.
  intros Hk. unfold obj_set.
  destruct (String.eqb_spec k "__proto__"); [done|]. apply obj_own_put_same.
Qed.

Lemma obj_own_set_other (o : Obj) k k' v :
  k <> k' -> obj_own (obj_set o k' v) k = obj_own o k.
Proof.
  intros Hk. unfold obj_set.
  destruct (String.eqb k' "__proto__"); [done|]. by apply obj_own_put_other.
Qed.

(** X21. Exact duplicates are always reported: when a block declares a
    property and later, in the same block, declares it again with the same
    value, the second declaration is reported as [Duplicate] at its own
    position, whatever lies between the two: other declarations, nested
    blocks, or declarations of the same name inside parentheses.  The name
    is compared lower-cased; the value must not be empty. *)
Theorem exact_duplicate_reported showToken rule st props
    p1 p2 v im1 im2 l1 c1 l2 c2 mid :
  d_props st = Some props ->
  JS.toLowerCase (tk_text p2) = JS.toLowerCase (tk_text p1) ->
  JS.toLowerCase (tk_text p1) <> "__proto__" ->
  v_text v <> "" ->
  keepsEntry (JS.toLowerCase (tk_text p1)) O mid = true ->
  In (CallReport (duplicateMessage showToken true p2) (mkPos l2 c2) rule)
    (allCalls
       (EvProperty p1 v im1 false l1 c1 ::
        mid ++ [EvProperty p2 v im2 false l2 c2])
       [mkActive (duplicate_properties_init showToken rule) st]).
Proof.
  intros Hp Hname Hproto Hv Hmid. rewrite allCalls_single.
  set (hs := l_handlers (duplicate_properties_init showToken rule)).
  cbn [runHandlers]. unfold hs at 1. rewrite dup_fire_property.
  unfold dupProperty at 1. rewrite Hp.
  match goal with
  | |- context [runHandlers hs _ ?s1] => set (st1 := s1)
  end.
  assert (H1 : entryKept (JS.toLowerCase (tk_text p1)) (v_text v) O st1).
  { cbn [entryKept]. eexists. split; [reflexivity|].
    by apply obj_own_set_same. }
  pose proof (entryKept_run showToken rule _ _ mid O st1 Hmid H1) as H2.
  fold hs in H2. rewrite runHandlers_app.
  set (st2 := fst (runHandlers hs mid st1)) in *.
  cbn [entryKept] in H2. destruct H2 as (o & Ho & Hown).
  cbn [fst snd]. apply in_or_app. right. apply in_or_app. right.
  cbn [runHandlers]. unfold hs. rewrite dup_fire_property.
  unfold dupProperty. rewrite Ho, Hname. unfold obj_get. rewrite Hown.
  cbn [truthy]. rewrite String.eqb_refl.
  assert (Hne : String.eqb (v_text v) "" = false) by by apply String.eqb_neq.
  rewrite Hne, orb_true_r. cbn [negb andb snd List.app]. by left.
Qed.

Lemma exact_duplicate_reported_witness :
  In (CallReport
        (duplicateMessage tk_text true
           (mkToken "COLOR" None 0 (Some 3) (Some 3)))
        (mkPos (Some 3) (Some 3)) (r_rule errors_def))
    (allCalls
       ([ Sample.prop "color" "red" false 1 3;
          EvOther "startrule" (Some 2) (Some 1);
          Sample.prop "color" "blue" false 2 4;
          EvOther "endrule" (Some 2) (Some 9);
          Sample.prop "top" "0" false 2 10;
          EvProperty (mkToken "COLOR" None 0 (Some 3) (Some 3))
            (mkValue "red") false false (Some 3) (Some 3) ])
       [mkActive (duplicate_properties_init tk_text (r_rule errors_def))
          (mkDupState [None] (Some []) None)]).
Proof.
  apply (exact_duplicate_reported tk_text (r_rule errors_def)
           (mkDupState [None] (Some []) None) []
           (mkToken "color" None 0 (Some 1) (Some 3))
           (mkToken "COLOR" None 0 (Some 3) (Some 3))
           (mkValue "red") false false (Some 1) (Some 3) (Some 3) (Some 3)
           [ EvOther "startrule" (Some 2) (Some 1);
             Sample.prop "color" "blue" false 2 4;
             EvOther "endrule" (Some 2) (Some 9);
             Sample.prop "top" "0" false 2 10 ]).
  - reflexivity.
  - reflexivity.
  - discriminate.
  - discriminate.
  - reflexivity.
Defined.

Lemma runHandlers_cons_snd {St}
    (hs : list (string * (Event -> St -> St * list Call))) e evs st :
  snd (runHandlers hs (e :: evs) st) =
    (snd (fireHandlers e hs st) ++
     snd (runHandlers hs evs (fst (fireHandlers e hs st))))%list.
Proof.
  cbn [runHandlers]. destruct (fireHandlers e hs st) as [st1 c1].
  cbn [fst snd]. by destruct (runHandlers hs evs st1).
Qed.

Lemma dupProperty_fst showToken rule st props p v im l c :
  d_props st = Some props ->
  fst (dupProperty showToken rule (EvProperty p v im false l c) st) =
    mkDupState (d_stack st)
      (Some (obj_set props (JS.toLowerCase (tk_text p)) (JString (v_text v))))
      (Some (JS.toLowerCase (tk_text p))).
Proof. intros Hp. unfold dupProperty. by rewrite Hp. Qed.

(** X22. Duplicates must appear one after the other: in a block, a second
    declaration of a property with a different value is accepted silently
    when it directly follows the first, and reported as
    [Ungrouped duplicate] when a declaration of another property stands
    between them. *)
Theorem duplicates_must_be_adjacent showToken rule st props
    p1 v1 im1 l1 c1 q vq imq lq cq p2 v2 im2 l2 c2 :
  d_props st = Some props ->
  JS.toLowerCase (tk_text p2) = JS.toLowerCase (tk_text p1) ->
  JS.toLowerCase (tk_text p1) <> "__proto__" ->
  JS.toLowerCase (tk_text q) <> JS.toLowerCase (tk_text p1) ->
  v_text v1 <> "" ->
  v_text v1 <> v_text v2 ->
  let P1 := EvProperty p1 v1 im1 false l1 c1 in
  let Q := EvProperty q vq imq false lq cq in
  let P2 := EvProperty p2 v2 im2 false l2 c2 in
  let act := [mkActive (duplicate_properties_init showToken rule) st] in
  allCalls [P1; P2] act = allCalls [P1] act /\
  allCalls [P1; Q; P2] act =
    (allCalls [P1; Q] act ++
     [CallReport (duplicateMessage showToken false p2) (mkPos l2 c2) rule])%list.
Proof.
  intros Hp Hname Hproto Hq Hv1 Hv P1 Q P2 act. unfold act, P1, Q, P2.
  rewrite !allCalls_single.
  set (hs := l_handlers (duplicate_properties_init showToken rule)).
  assert (Hne : String.eqb (v_text v1) "" = false) by by apply String.eqb_neq.
  assert (Hvv : String.eqb (v_text v1) (v_text v2) = false)
    by by apply String.eqb_neq.
  assert (Hqn : String.eqb (JS.toLowerCase (tk_text q))
                  (JS.toLowerCase (tk_text p1)) = false)
    by by apply String.eqb_neq.
  assert (Hq' : JS.toLowerCase (tk_text p1) <> JS.toLowerCase (tk_text q))
    by congruence.
  rewrite !runHandlers_cons_snd. unfold hs. rewrite !dup_fire_property.
  cbn [runHandlers snd]. rewrite !app_nil_r.
  pose proof (dupProperty_fst showToken rule st props p1 v1 im1 l1 c1 Hp) as H1.
  destruct (dupProperty showToken rule (EvProperty p1 v1 im1 false l1 c1) st)
    as [s1 cs1].
  cbn [fst snd] in *. subst s1. split.
  - rewrite <- (app_nil_r cs1) at 2. f_equal.
    unfold dupProperty. cbn [d_props d_lastName snd].
    unfold obj_get. rewrite Hname, obj_own_set_same by done.
    cbn [truthy]. by rewrite String.eqb_refl, Hvv, Hne.
  - match goal with
    | |- context [dupProperty _ _ (EvProperty q _ _ _ _ _) ?s] =>
        pose proof (dupProperty_fst showToken rule s _ q vq imq lq cq eq_refl)
          as H2;
        destruct (dupProperty showToken rule
                    (EvProperty q vq imq false lq cq) s) as [s2 cs2]
    end.
    cbn [fst snd] in *. subst s2. rewrite <- app_assoc. do 2 f_equal.
    unfold dupProperty. cbn [d_props d_lastName snd].
    unfold obj_get.
    rewrite Hname, obj_own_set_other, obj_own_set_same by done.
    cbn [truthy]. by rewrite Hvv, Hne, Hqn.
Qed.

Lemma duplicates_must_be_adjacent_witness :
  let P1 := Sample.prop "color" "red" false 1 3 in
  let Q := Sample.prop "top" "0" false 1 14 in
  let P2 := Sample.prop "Color" "#f00" false 1 21 in
  let act := [mkActive (duplicate_properties_init tk_text (r_rule errors_def))
                (mkDupState [None] (Some []) None)] in
  allCalls [P1; P2] act = allCalls [P1] act /\
  allCalls [P1; Q; P2] act =
    (allCalls [P1; Q] act ++
     [CallReport
        (duplicateMessage tk_text false
           (mkToken "Color" None 0 (Some 1) (Some 21)))
        (mkPos (Some 1) (Some 21)) (r_rule errors_def)])%list.
Proof.
  apply (duplicates_must_be_adjacent tk_text (r_rule errors_def)
           (mkDupState [None] (Some []) None) []
           (mkToken "color" None 0 (Some 1) (Some 3)) (mkValue "red") false
           (Some 1) (Some 3)
           (mkToken "top" None 0 (Some 1) (Some 14)) (mkValue "0") false
           (Some 1) (Some 14)
           (mkToken "Color" None 0 (Some 1) (Some 21)) (mkValue "#f00") false
           (Some 1) (Some 21)).
  - reflexivity.
  - reflexivity.
  - discriminate.
  - discriminate.
  - discriminate.
  - discriminate.
Defined.

Lemma dup_outside_state showToken rule evs : forall st,
  noBlockStart evs ->
  d_props st = None -> d_stack st = [] ->
  runHandlers (l_handlers (duplicate_properties_init showToken rule)) evs st =
    (st, []).
Proof.
  induction evs as [|e evs IH]; intros st Hn Hp Hs; [reflexivity|].
  apply Forall_cons in Hn as [He Hn].
  cbn [runHandlers]. rewrite dup_fire, He.
  assert (Hstep : fireHandlers e [] st = (st, [])) by reflexivity.
  destruct (isBlockEnd (ev_type e)).
  - unfold dupEnd. rewrite Hs. cbn [tl hd].
    replace (mkDupState [] None (d_lastName st)) with st
      by (destruct st; cbn in *; by subst).
    by rewrite (IH st Hn Hp Hs).
  - destruct (String.eqb "property" (ev_type e)).
    + unfold dupProperty. rewrite Hp.
      replace (match e with
               | EvProperty _ _ _ true _ _ | _ => (st, [])
               end) with (st, @nil Call)
        by (by destruct e as [? ? ? [|] ? ?| | |]).
      by rewrite (IH st Hn Hp Hs).
    + by rewrite (IH st Hn Hp Hs).
Qed.

(** X23. Declarations outside every block are never looked at: over a
    stream in which no block starts, whatever else it holds (declarations,
    stray block ends), the rule makes no call. *)
Theorem no_block_no_duplicates showToken rule evs :
  noBlockStart evs ->
  allCalls evs
    [mkActive (duplicate_properties_init showToken rule)
       (l_start (duplicate_properties_init showToken rule))] = [].
Proof.
  intros Hn. rewrite allCalls_single.
  change (l_start (duplicate_properties_init showToken rule))
    with (mkDupState [] None None).
  by rewrite (dup_outside_state showToken rule evs (mkDupState [] None None)
                Hn eq_refl eq_refl).
Qed.

Lemma no_block_no_duplicates_witness :
  allCalls
    [ Sample.prop "color" "red" false 1 1;
      EvOther "endrule" (Some 1) (Some 11);
      Sample.prop "color" "red" false 1 12 ]
    [mkActive (duplicate_properties_init tk_text (r_rule errors_def))
       (l_start (duplicate_properties_init tk_text (r_rule errors_def)))] = [].
Proof.
  apply (no_block_no_duplicates tk_text (r_rule errors_def)
           [ Sample.prop "color" "red" false 1 1;
             EvOther "endrule" (Some 1) (Some 11);
             Sample.prop "color" "red" false 1 12 ]).
  repeat (apply List.Forall_cons; [reflexivity|]). apply List.Forall_nil.
Defined.

(** X24. A name that every object inherits counts as already declared: in
    a block, a first declaration whose lower-cased name is [constructor]
    is reported as [Ungrouped duplicate] though nothing precedes it,
    unless the declaration before it, in whatever block, had that name
    too. *)
Theorem inherited_name_reported showToken rule st s p v im l c :
  isBlockStart (ev_type s) = true ->
  JS.toLowerCase (tk_text p) = "constructor" ->
  d_lastName st <> Some "constructor" ->
  allCalls [s; EvProperty p v im false l c]
    [mkActive (duplicate_properties_init showToken rule) st] =
  [CallReport (duplicateMessage showToken false p) (mkPos l c) rule].
Proof.
  intros Hs Hname Hlast. rewrite allCalls_single.
  rewrite !runHandlers_cons_snd, dup_fire_property, dup_fire, Hs.
  cbn [runHandlers dupStart fst snd List.app]. rewrite app_nil_r.
  unfold dupProperty. cbn [d_props d_lastName snd]. rewrite Hname.
  change (obj_get [] "constructor") with (Some JObject). cbn [truthy andb].
  destruct (d_lastName st) as [n|]; [|reflexivity].
  destruct (String.eqb_spec n "constructor") as [->|Hn]; [done|reflexivity].
Qed.

Lemma inherited_name_reported_witness :
  allCalls
    [ EvOther "startrule" (Some 1) (Some 1);
      Sample.prop "constructor" "x" false 1 3 ]
    [mkActive (duplicate_properties_init tk_text (r_rule errors_def))
       (mkDupState [] None None)] =
  [CallReport
     (duplicateMessage tk_text false
        (mkToken "constructor" None 0 (Some 1) (Some 3)))
     (mkPos (Some 1) (Some 3)) (r_rule errors_def)].
Proof.
  apply (inherited_name_reported tk_text (r_rule errors_def)
           (mkDupState [] None None) (EvOther "startrule" (Some 1) (Some 1))
           (mkToken "constructor" None 0 (Some 1) (Some 3)) (mkValue "x")
           false (Some 1) (Some 3)).
  - reflexivity.
  - reflexivity.
  - discriminate.
Defined.

(** ** Ruleset directives *)

Lemma split_first sep a b :
  noneOf [sep] a = true ->
  JS.split sep (a +:+ String sep b) = a :: JS.split sep b.
Proof.
  unfold noneOf. induction a as [|c a IH]; intros Ha.
  - change (EmptyString +:+ String sep b) with (String sep b).
    cbn [JS.split]. by rewrite Ascii.eqb_refl.
  - cbn [strAll existsb] in Ha. apply andb_true_iff in Ha as [Hc Ha].
    rewrite orb_false_r in Hc. apply negb_true_iff in Hc.
    change (String c a +:+ String sep b) with (String c (a +:+ String sep b)).
    cbn [JS.split]. by rewrite Hc, (IH Ha).
Qed.

Lemma split_none sep a :
  noneOf [sep] a = true -> JS.split sep a = [a].
Proof.
  unfold noneOf. induction a as [|c a IH]; intros Ha; [reflexivity|].
  cbn [strAll existsb] in Ha. apply andb_true_iff in Ha as [Hc Ha].
  rewrite orb_false_r in Hc. apply negb_true_iff in Hc.
  cbn [JS.split]. by rewrite Hc, (IH Ha).
Qed.

Lemma noneOf_weaken c seps s :
  In c seps -> noneOf seps s = true -> noneOf [c] s = true.
Proof.
  unfold noneOf. intros Hin. induction s as [|x s IH]; [done|].
  cbn [strAll]. intros H. apply andb_true_iff in H as [Hx Hs].
  rewrite (IH Hs), andb_true_r. cbn [existsb]. rewrite orb_false_r.
  apply negb_true_iff. apply negb_true_iff in Hx.
  destruct (Ascii.eqb_spec x c) as [->|]; [|reflexivity].
  rewrite <- Hx. symmetry. apply existsb_exists. exists c.
  split; [done|apply Ascii.eqb_refl].
Qed.

Lemma drop_app_sep a c b :
  JS.drop (S (String.length a)) (a +:+ String c b) = b.
Proof. induction a as [|x a IH]; [reflexivity|exact IH]. Qed.

Lemma length_append a b :
  String.length (a +:+ b) = (String.length a + String.length b)%nat.
Proof.
  induction a as [|x a IH]; [reflexivity|].
  change (String x a +:+ b) with (String x (a +:+ b)).
  cbn [String.length]. by rewrite IH.
Qed.

Lemma slice_after name c rest :
  JS.slice (name +:+ String c rest) (JS.len name + 1) = rest.
Proof.
  unfold JS.slice, JS.len. rewrite length_append. cbn [String.length].
  destruct (Z.ltb_spec (Z.of_nat (String.length name) + 1) 0); [lia|].
  rewrite Z.min_l by lia.
  replace (Z.to_nat (Z.of_nat (String.length name) + 1))
    with (S (String.length name)) by lia.
  apply drop_app_sep.
Qed.

Lemma slice_beyond name : JS.slice name (JS.len name + 1) = "".
Proof.
  unfold JS.slice, JS.len.
  destruct (Z.ltb_spec (Z.of_nat (String.length name) + 1) 0); [lia|].
  rewrite Z.min_r by lia. rewrite Nat2Z.id. clear.
  induction name as [|x a IH]; [reflexivity|exact IH].
Qed.

Lemma directive_ruleset text index g st :
  let ovr := JS.toLowerCase g in
  let cmd := hd EmptyString (JS.splitLimit ":" 1 ovr) in
  JS.trim cmd <> "allow" -> JS.trim cmd <> "ignore" ->
  e_ruleset (directive text index g st) =
    e_ruleset (defaultCase ovr (JS.len cmd + 1) st).
Proof.
  intros ovr cmd Ha Hi. unfold directive. fold ovr. fold cmd.
  destruct (countLines _ _ _ _ _) as [eol lineno].
  destruct (String.eqb_spec (JS.trim cmd) "allow"); [done|].
  destruct (String.eqb_spec (JS.trim cmd) "ignore"); [done|].
  reflexivity.
Qed.

(** X25. A ruleset directive never sets the rule it names first.  The
    text up to the first colon selects the kind of directive and is then
    cut off, so for a directive [name:value] with no further colon or comma
    it is the trimmed value that is entered as a rule, at level 1, and
    [name] keeps the level it had. *)
Theorem ruleset_directive_skips_first_name text index g st name value :
  JS.toLowerCase g = name +:+ ":" +:+ value ->
  noneOf [":"%char] name = true ->
  noneOf [":"%char; ","%char] value = true ->
  JS.trim name <> "allow" -> JS.trim name <> "ignore" ->
  e_ruleset (directive text index g st) =
    obj_set (e_ruleset st) (JS.trim value) (JNum 1) /\
  (JS.trim value <> JS.trim name ->
   obj_own (e_ruleset (directive text index g st)) (JS.trim name) =
     obj_own (e_ruleset st) (JS.trim name)).
Proof.
  intros Hg Hname Hvalue Ha Hi.
  assert (Hcmd : hd EmptyString (JS.splitLimit ":" 1 (JS.toLowerCase g)) = name).
  { rewrite Hg. unfold JS.splitLimit.
    change (name +:+ ":" +:+ value) with (name +:+ String ":" value).
    by rewrite split_first. }
  assert (Hrs : e_ruleset (directive text index g st) =
                obj_set (e_ruleset st) (JS.trim value) (JNum 1)).
  { rewrite directive_ruleset by by rewrite Hcmd.
    rewrite Hcmd, Hg.
    change (name +:+ ":" +:+ value) with (name +:+ String ":" value).
    unfold defaultCase. cbn [e_ruleset]. rewrite slice_after.
    rewrite (split_none "," value)
      by (eapply noneOf_weaken; [|exact Hvalue]; right; by left).
    cbn [fold_left].
    rewrite (split_none ":" value)
      by (eapply noneOf_weaken; [|exact Hvalue]; by left).
    reflexivity. }
  split; [exact Hrs|].
  intros Hne. rewrite Hrs. apply obj_own_set_other. congruence.
Qed.

Lemma ruleset_directive_skips_first_name_witness :
  e_ruleset (directive "/* csslint floats:2 */" 0 "floats:2 "
               (mkEmbedded [("floats", JNum 1)] ∅ [] None None 0 (-1))) =
    obj_set [("floats", JNum 1)] "2" (JNum 1) /\
  ("2" <> "floats" ->
   obj_own (e_ruleset (directive "/* csslint floats:2 */" 0 "floats:2 "
                         (mkEmbedded [("floats", JNum 1)] ∅ [] None None 0 (-1))))
     "floats" = Some (JNum 1)).
Proof.
  apply (ruleset_directive_skips_first_name "/* csslint floats:2 */" 0
           "floats:2 " (mkEmbedded [("floats", JNum 1)] ∅ [] None None 0 (-1))
           "floats" "2 ").
  - reflexivity.
  - reflexivity.
  - reflexivity.
  - discriminate.
  - discriminate.
Defined.

(** X26. A ruleset directive without a colon enters nothing but the rule
    with the empty name: [csslint name] sets the entry for the empty
    string to level 1 and leaves every other entry, [name] included, as it
    was. *)
Theorem ruleset_directive_without_colon text index g st :
  noneOf [":"%char] (JS.toLowerCase g) = true ->
  JS.trim (JS.toLowerCase g) <> "allow" ->
  JS.trim (JS.toLowerCase g) <> "ignore" ->
  e_ruleset (directive text index g st) = obj_set (e_ruleset st) "" (JNum 1).
Proof.
  intros Hname Ha Hi.
  assert (Hcmd : hd EmptyString (JS.splitLimit ":" 1 (JS.toLowerCase g)) =
                 JS.toLowerCase g).
  { unfold JS.splitLimit. by rewrite split_none. }
  rewrite directive_ruleset by by rewrite Hcmd.
  rewrite Hcmd. unfold defaultCase. cbn [e_ruleset]. by rewrite slice_beyond.
Qed.

Lemma ruleset_directive_without_colon_witness :
  e_ruleset (directive "/* csslint floats */" 0 "floats "
               (mkEmbedded [("floats", JNum 0)] ∅ [] None None 0 (-1))) =
    obj_set [("floats", JNum 0)] "" (JNum 1).
Proof.
  apply (ruleset_directive_without_colon "/* csslint floats */" 0 "floats "
           (mkEmbedded [("floats", JNum 0)] ∅ [] None None 0 (-1)));
    [reflexivity|discriminate|discriminate].
Defined.

Lemma keepsRules_refl rs : keepsRules rs rs.
Proof. intros k. split; [done|]. intros v Hv. by left. Qed.

Lemma keepsRules_set rs rs' k' v :
  writtenLevel v = true -> keepsRules rs rs' ->
  keepsRules rs (obj_set rs' k' v).
Proof.
  intros Hv Hk k. destruct (Hk k) as [H1 H2].
  destruct (String.eqb_spec k' "__proto__") as [Hp|Hp].
  { unfold obj_set. rewrite Hp. by cbn. }
  destruct (String.eqb_spec k k') as [->|Hne].
  - rewrite obj_own_set_same by done. split; [by eexists|].
    intros w [= <-]. by right.
  - by rewrite obj_own_set_other.
Qed.

Lemma mapped_level key :
  writtenLevel (default (JNum 1) (obj_get EBMEDDED_RULE_VALUE_MAP key)) = true.
Proof.
  unfold obj_get, EBMEDDED_RULE_VALUE_MAP. cbn [obj_own].
  repeat match goal with
         | |- context [String.eqb ?a key] => destruct (String.eqb a key)
         end; try reflexivity.
  by destruct (JS.isProtoKey key).
Qed.

Lemma defaultCase_keeps rs ovr i st :
  keepsRules rs (e_ruleset st) ->
  keepsRules rs (e_ruleset (defaultCase ovr i st)).
Proof.
  unfold defaultCase. cbn [e_ruleset]. generalize (e_ruleset st).
  induction (JS.split "," (JS.slice ovr i)) as [|p ps IH]; intros o Ho; [done|].
  cbn [fold_left]. apply IH. apply keepsRules_set; [apply mapped_level|done].
Qed.

Lemma directive_keeps rs text index g st :
  keepsRules rs (e_ruleset st) ->
  keepsRules rs (e_ruleset (directive text index g st)).
Proof.
  intros Hk. unfold directive.
  destruct (countLines _ _ _ _ _) as [eol lineno].
  destruct (String.eqb _ "allow").
  { unfold allowCase. by destruct (List.length _). }
  destruct (String.eqb _ "ignore").
  { unfold ignoreCase.
    repeat match goal with
           | |- context [if ?c then _ else _] => destruct c
           end; exact Hk. }
  by apply defaultCase_keeps.
Qed.

Lemma embeddedLoop_keeps rs fuel text : forall lastIndex st,
  keepsRules rs (e_ruleset st) ->
  keepsRules rs (e_ruleset (embeddedLoop fuel text lastIndex st)).
Proof.
  induction fuel as [|fuel IH]; intros lastIndex st Hk; cbn [embeddedLoop];
    [done|].
  destruct (rxEmbedded_exec text lastIndex) as [[[index g] lastIndex']|];
    [|done].
  apply IH. by apply directive_keeps.
Qed.

(** X27. Directives add and overwrite levels but never remove a rule:
    after the scan the ruleset still has every rule it had, and each entry
    either is the one it had or holds a value a directive can write: level
    0, 1 or 2, or an inherited member when the directive's value names
    one. *)
Theorem directives_keep_rules text lastIndex rs al ig :
  keepsRules rs (fst (fst (applyEmbeddedOverrides text lastIndex rs al ig))).
Proof.
  unfold applyEmbeddedOverrides. cbn [fst].
  apply embeddedLoop_keeps. cbn [e_ruleset]. apply keepsRules_refl.
Qed.

(** ** Rollups in the result *)

Lemma callMessages_rollup h r c :
  List.filter m_rollup (callMessages h r c) = rollupMessages c.
Proof.
  destruct c as [m p rl|m p rl|m p rl|m rl|m rl|n v]; cbn [callMessages];
    try reflexivity.
  by destruct (_ || _).
Qed.

Lemma flat_map_filter_each {A B} (q : B -> bool) (f : A -> list B) l :
  List.filter q (flat_map f l) = flat_map (fun a => List.filter q (f a)) l.
Proof.
  induction l as [|a l IH]; [reflexivity|].
  cbn [flat_map]. by rewrite List.filter_app, IH.
Qed.

(** X28. No directive silences a rollup: whatever allow lists and ignore
    ranges the text sets up, the rollup messages of the result are, in call
    order, those of the rollup calls the attached rules made, and nothing
    else is a rollup. *)
Theorem rollups_never_suppressed rules parse text arg reuse h :
  List.filter m_rollup (verifyMessages rules parse text arg reuse h) =
    List.map postprocess
      (flat_map rollupMessages
         (allCalls (fst (parse text reuse))
            (List.map snd (attach rules (effectiveRuleset rules text arg h))))).
Proof.
  rewrite verifyMessages_eq.
  destruct (jsSort_shape _ (emitted_wf rules parse text arg reuse h))
    as (P & -> & Hpos & _ & _).
  rewrite filter_map_postprocess by done.
  rewrite List.filter_app.
  rewrite (filter_none m_rollup P)
    by (eapply Forall_impl; [exact Hpos|]; by intros m [? _]).
  cbn [List.app]. f_equal.
  assert (Hidem : forall l : list Message,
            List.filter m_rollup (List.filter m_rollup l) =
            List.filter m_rollup l).
  { intros l. induction l as [|m l IH]; [reflexivity|].
    cbn [List.filter]. destruct (m_rollup m) eqn:E; [|exact IH].
    cbn [List.filter]. by rewrite E, IH. }
  rewrite Hidem.
  destruct (emitted_spec rules parse text arg reuse h)
    as (l & h1 & al & ig & Hprep & ->).
  rewrite List.filter_app, flat_map_filter_each.
  unfold effectiveRuleset. rewrite Hprep.
  replace (List.filter m_rollup
             match snd (parse text reuse) with
             | Some x =>
                 [positional (newReporter [] l al ig) TError (fatalText x)
                    (mkPos (ex_line x) (ex_col x)) None]
             | None => []
             end) with (@nil Message)
    by (by destruct (snd (parse text reuse))).
  rewrite app_nil_r. apply flat_map_ext. intros c. apply callMessages_rollup.
Qed.

(** ** Severity and levels *)

Lemma emitted_env rules parse text arg reuse h :
  exists l h1 al ig,
    prepare rules text arg h = (l, h1, al, ig) /\
    fst (verify rules parse text arg reuse h) = forceErrors l h1 /\
    effectiveRuleset rules text arg h = deref (forceErrors l h1) l /\
    sameEnv (newReporter [] l al ig) (emitted rules parse text arg reuse h).
Proof.
  unfold verify, effectiveRuleset, emitted.
  destruct (prepare rules text arg h) as [[[l h1] al] ig].
  exists l, h1, al, ig. split; [reflexivity|]. split; [reflexivity|].
  split; [reflexivity|].
  destruct (parse text reuse) as [evs ex]. rewrite runEvents_allCalls.
  destruct (fold_perform_spec (forceErrors l h1)
              (allCalls evs
                 (List.map snd (attach rules (deref (forceErrors l h1) l))))
              (newReporter [] l al ig)) as [_ (H1 & H2 & H3 & H4)].
  destruct ex; [|by repeat split].
  unfold error, push. by repeat split.
Qed.

Lemma perform_quiet h r c :
  messages (perform h (quiet r) c) = callMessages h r c.
Proof.
  destruct (perform_spec h (quiet r) c) as [-> _]. cbn [quiet messages List.app].
  apply callMessages_env. by repeat split.
Qed.

Lemma postprocess_type l t :
  Forall (fun m => m_type m = t) l ->
  Forall (fun m => m_type m = t) (List.map postprocess l).
Proof. intros H. apply Forall_fmap. eapply Forall_impl; [exact H|]. done. Qed.

(** C5, amended. The level of a rule decides the severity of what the
    rule makes through [report], and of nothing else.  The messages of
    the result that belong to a rule are those of the rule's own calls;
    [report], unless the line is exempt, appends one message that is an
    error at level 2 and a warning otherwise, so a rule that only reports
    has only errors in the result at level 2 and only warnings at level 1;
    a rollup keeps the severity of its operation at every level; at level
    0 the rule's [init] is not called, the rule is not among the attached
    listeners, and no message of the result belongs to it. *)
Theorem ruleset_levels rules parse text arg reuse h i :
  honest rules ->
  NoDup (List.map fst (effectiveRuleset rules text arg h)) ->
  let eff := effectiveRuleset rules text arg h in
  let hv := fst (verify rules parse text arg reuse h) in
  let r0 := quiet (emitted rules parse text arg reuse h) in
  let calls :=
    List.filter (fun c => idIs i (callId c))
      (allCalls (fst (parse text reuse)) (List.map snd (attach rules eff))) in
  let mine :=
    List.filter (fun m => idIs i (msgId m))
      (verifyMessages rules parse text arg reuse h) in
  mine ≡ₚ
    List.map postprocess
      (flat_map (fun c => messages (perform hv r0 c)) calls) /\
  (forall msg pos rule,
     id rule = i ->
     allowed r0 (default 1 (p_line pos)) rule ||
       ignored r0 (default 1 (p_line pos)) = false ->
     messages (report hv r0 msg pos rule) =
       [positional r0
          (if isTwo (obj_get eff i) then TError else TWarning)
          msg pos (Some rule)]) /\
  (obj_get eff i = Some (JNum 2) ->
   Forall (fun c => reportsOnly c = true) calls ->
   Forall (fun m => m_type m = TError) mine) /\
  (obj_get eff i = Some (JNum 1) ->
   Forall (fun c => reportsOnly c = true) calls ->
   Forall (fun m => m_type m = TWarning) mine) /\
  (forall msg rl,
     messages (rollupWarn r0 msg rl) =
       [mkMessage TWarning true None None None msg rl] /\
     messages (rollupError r0 msg rl) =
       [mkMessage TError true None None None msg rl]) /\
  (obj_get eff i = Some (JNum 0) ->
   ~ In i (List.map fst (attach rules eff)) /\
   Forall (fun m => msgId m <> Some i)
     (verifyMessages rules parse text arg reuse h)).
Proof.
  intros Hh Hnd eff hv r0 calls mine.
  destruct (emitted_env rules parse text arg reuse h)
    as (l & h1 & al & ig & Hp & Hhv & Heff & Henv).
  assert (Hmine : mine ≡ₚ
            List.map postprocess
              (flat_map (callMessages hv (emitted rules parse text arg reuse h))
                 calls)).
  { unfold mine. rewrite verifyMessages_filter_id.
    destruct (emitted_filter_id rules parse text arg reuse h i)
      as (l' & h1' & al' & ig' & Hp' & ->).
    rewrite Hp in Hp'. injection Hp' as <- <- <- <-.
    unfold calls, eff, hv. rewrite Hhv, Heff.
    apply Permutation_map. erewrite flat_map_ext; [reflexivity|].
    intros c. by apply callMessages_env. }
  assert (Hrep : forall msg pos rule,
            callMessages hv (emitted rules parse text arg reuse h)
              (CallReport msg pos rule) =
            messages (report hv r0 msg pos rule)).
  { intros msg pos rule. symmetry. apply (perform_quiet hv _ (CallReport msg pos rule)). }
  assert (Hlevel : deref hv (ruleset r0) = eff).
  { unfold r0, hv, eff. cbn [quiet ruleset].
    apply effectiveRuleset_eq. }
  assert (Hlevel' : deref hv (ruleset (emitted rules parse text arg reuse h)) =
                    eff) by apply effectiveRuleset_eq.
  assert (Hsev : forall t,
            (if isTwo (obj_get eff i) then TError else TWarning) = t ->
            Forall (fun c => reportsOnly c = true) calls ->
            Forall (fun m => m_type m = t) mine).
  { intros t Ht Honly. rewrite Hmine. apply postprocess_type.
    apply Forall_forall. intros m Hm. apply list_elem_of_In in Hm.
    apply in_flat_map in Hm as (c & Hc & Hm).
    rewrite Forall_forall in Honly.
    pose proof (Honly c (proj2 (list_elem_of_In _ _) Hc)) as Hro.
    apply filter_In in Hc as [_ Hid].
    destruct c as [? ? ?|msg pos rule|? ? ?|? ?|? ?|? ?]; try discriminate.
    cbn [callId idIs] in Hid. apply String.eqb_eq in Hid.
    cbn [callMessages] in Hm. destruct (_ || _); [done|].
    destruct Hm as [<-|[]]. cbn [positional m_type].
    by rewrite Hlevel', Hid. }
  split; [|split; [|split; [|split; [|split]]]].
  - rewrite Hmine. apply Permutation_map.
    erewrite flat_map_ext; [reflexivity|]. intros c. symmetry.
    apply perform_quiet.
  - intros msg pos rule Hid Hfree. unfold report.
    rewrite Hfree, Hlevel, Hid. reflexivity.
  - intros H2. apply Hsev. by rewrite H2.
  - intros H1. apply Hsev. by rewrite H1.
  - done.
  - intros H0. apply obj_get_own in H0.
    assert (Hfalsy : Forall (fun e => fst e <> i \/ truthy (snd e) = false)
                       (entries eff)).
    { apply Forall_forall. intros [k v] Hin. apply list_elem_of_In in Hin.
      destruct (String.eqb k i) eqn:E; simpl.
      - apply String.eqb_eq in E as ->. right.
        rewrite entries_perm in Hin.
        rewrite (obj_own_NoDup eff i v Hnd) in H0 by done.
        by injection H0 as ->.
      - left. by apply String.eqb_neq. }
    split.
    + intros Hin. apply in_map_iff in Hin as ([j a] & Hj & Hin).
      simpl in Hj. subst j. unfold attach in Hin.
      apply in_flat_map in Hin as (e & He & Hin).
      apply attachEntry_key in Hin as [Hk Ht].
      rewrite Forall_forall in Hfalsy. apply list_elem_of_In in He.
      destruct (Hfalsy e He); congruence.
    + assert (Hnone : List.filter (fun m => idIs i (msgId m))
                        (verifyMessages rules parse text arg reuse h) = []).
      { apply Permutation_nil_r. rewrite verifyMessages_filter_id.
        destruct (emitted_filter_id rules parse text arg reuse h i)
          as (l' & h1' & al' & ig' & Hp' & ->).
        rewrite filter_none; [reflexivity|].
        apply allCalls_calls. unfold attach.
        apply attach_quiet; [done|].
        unfold eff, effectiveRuleset in Hfalsy. by rewrite Hp' in Hfalsy. }
      apply filter_nil_Forall in Hnone.
      eapply Forall_impl; [exact Hnone|]. intros m. apply idIs_false.
Qed.

Lemma ruleset_levels_witness :
  let parse := Sample.emits Sample.importantEvents None in
  let h2 : Store := {[ 7%nat := [("floats", JNum 0); ("important", JNum 2)] ]} in
  let h1 : Store := {[ 7%nat := [("important", JNum 1)] ]} in
  let mine (h : Store) :=
    List.filter (fun m => idIs "important" (msgId m))
      (verifyMessages Sample.registry parse Sample.importantText (Some 7%nat)
         false h) in
  (Forall (fun m => m_type m = TError) (mine h2) /\ mine h2 <> []) /\
  (Forall (fun m => m_type m = TWarning) (mine h1) /\ mine h1 <> []) /\
  ~ In "floats"
      (List.map fst
         (attach Sample.registry
            (effectiveRuleset Sample.registry Sample.importantText
               (Some 7%nat) h2))) /\
  Forall (fun m => msgId m <> Some "floats")
    (verifyMessages Sample.registry parse Sample.importantText (Some 7%nat)
       false h2).
Proof.
  intros parse h2 h1 mine.
  assert (Hnd : forall h : Store,
            h = h2 \/ h = h1 ->
            NoDup (List.map fst
                     (effectiveRuleset Sample.registry Sample.importantText
                        (Some 7%nat) h))).
  { intros h [->| ->]; apply (bool_decide_unpack _); vm_compute; exact I. }
  split; [|split].
  - split; [|vm_compute; discriminate].
    refine (proj1 (proj2 (proj2
      (ruleset_levels Sample.registry parse Sample.importantText (Some 7%nat)
         false h2 "important" sample_registry_honest (Hnd h2 _)))) _ _).
    + by left.
    + vm_compute. reflexivity.
    + vm_compute. repeat constructor.
  - split; [|vm_compute; discriminate].
    refine (proj1 (proj2 (proj2 (proj2
      (ruleset_levels Sample.registry parse Sample.importantText (Some 7%nat)
         false h1 "important" sample_registry_honest (Hnd h1 _))))) _ _).
    + by right.
    + vm_compute. reflexivity.
    + vm_compute. repeat constructor.
  - refine (proj2 (proj2 (proj2 (proj2 (proj2
      (ruleset_levels Sample.registry parse Sample.importantText (Some 7%nat)
         false h2 "floats" sample_registry_honest (Hnd h2 _)))))) _).
    + by left.
    + vm_compute. reflexivity.
Defined.

(** C5, as the specification states it, fails: with [floats] at level 2
    and ten floats, the one message the floats rule has in the result is
    its rollup, a warning. *)
Lemma level_two_rollup_stays_warning :
  let h : Store := {[ 7%nat := [("floats", JNum 2)] ]} in
  obj_get (effectiveRuleset Sample.registry (Sample.floatsText 10)
             (Some 7%nat) h) "floats" = Some (JNum 2) /\
  ~ Forall (fun m => msgId m = Some "floats" -> m_type m = TError)
      (verifyMessages Sample.registry
         (Sample.emits (Sample.floatsEvents 10 ++ [EvEndStylesheet]) None)
         (Sample.floatsText 10) (Some 7%nat) false h).
Proof.
  split; [vm_compute; reflexivity|].
  intros H.
  assert (E : verifyMessages Sample.registry
                (Sample.emits (Sample.floatsEvents 10 ++ [EvEndStylesheet]) None)
                (Sample.floatsText 10) (Some 7%nat) false
                {[ 7%nat := [("floats", JNum 2)] ]} =
              [mkMessage TWarning true None None None
                 ("Too many floats (10), you're probably using them for layout. " +:+
                  "Consider using a grid system instead.")
                 (Some (r_rule floats_def))])
    by (vm_compute; reflexivity).
  rewrite E in H. clear E. apply Forall_cons in H as [H _].
  specialize (H eq_refl). discriminate H.
Qed.

(** ** Post-processing, occurrence by occurrence *)

Lemma nonWordAhead_inv s :
  nonWordAhead s = true -> exists d b, s = String d b /\ JS.isWord d = false.
Proof.
  destruct s as [|d b]; [discriminate|]. cbn [nonWordAhead].
  intros H. apply negb_true_iff in H. by exists d, b.
Qed.

Lemma rxGrammarAbbr_at_sound s c k :
  rxGrammarAbbr_at s = Some (c, k) -> abbrAt c k s.
Proof.
  destruct s as [|c0 r]; [discriminate|]. unfold rxGrammarAbbr_at.
  destruct (Ascii.eqb c0 "-" || Ascii.eqb c0 "<") eqn:Ec; [|discriminate].
  assert (Hc : c0 = "-"%char \/ c0 = "<"%char).
  { apply orb_true_iff in Ec as [E|E]; apply Ascii.eqb_eq in E; auto. }
  destruct ((String.prefix "int" r || String.prefix "len" r ||
             String.prefix "num" r || String.prefix "pct" r) &&
            nonWordAhead (JS.drop 3 r)) eqn:E1.
  - intros [= <- <-]. apply andb_true_iff in E1 as [E1 E2].
    apply nonWordAhead_inv in E2 as (d & b & Hd & Hw).
    assert (Hk : In (JS.take 3 r) ["int"; "len"; "num"; "pct"] /\
                 r = JS.take 3 r +:+ JS.drop 3 r).
    { destruct r as [|c1 [|c2 [|c3 r]]]; try discriminate;
        split_eqb E1; try congruence; cbn [JS.take JS.drop];
        (split; [cbn; tauto | reflexivity]). }
    destruct Hk as [Hk Hr].
    refine (conj Hc (conj (or_introl Hk)
              (ex_intro _ d (ex_intro _ b (conj _ Hw))))).
    rewrite <- Hd.
    change (String c0 r = String c0 (JS.take 3 r +:+ JS.drop 3 r)).
    by rewrite <- Hr.
  - destruct (String.prefix "rel-" r && threeWord (JS.drop 4 r) &&
              nonWordAhead (JS.drop 7 r)) eqn:E2; [|discriminate].
    intros [= <- <-].
    apply andb_true_iff in E2 as [E2 E4].
    apply andb_true_iff in E2 as [E2 E3].
    apply nonWordAhead_inv in E4 as (d & b & Hd & Hw).
    destruct r as [|c1 [|c2 [|c3 [|c4 r]]]]; try discriminate;
      split_eqb E2; try congruence.
    destruct r as [|c5 [|c6 [|c7 r]]]; cbn [JS.drop threeWord] in E3;
      try discriminate.
    apply andb_true_iff in E3 as [E3 W7].
    apply andb_true_iff in E3 as [W5 W6].
    cbn [JS.drop] in Hd. subst r.
    split; [done|]. split.
    + right. by exists c5, c6, c7.
    + by exists d, b.
Qed.

Lemma rxGrammarAbbr_at_complete s c k :
  abbrAt c k s -> rxGrammarAbbr_at s = Some (c, k).
Proof.
  intros (Hc & Hk & d & b & -> & Hd).
  destruct Hk as [Hk|(w1 & w2 & w3 & -> & H1 & H2 & H3)].
  - cbn [In] in Hk.
    destruct Hc as [-> | ->];
      destruct Hk as [<-|[<-|[<-|[<-|[]]]]];
      cbv -[JS.isWord]; by rewrite Hd.
  - destruct Hc as [-> | ->]; cbv -[JS.isWord]; by rewrite H1, H2, H3, Hd.
Qed.

Lemma noAbbr_free s : noAbbr s = true -> abbrFree s.
Proof.
  intros Hs a. revert s Hs.
  induction a as [|x a IH]; intros s Hs t c k -> Hat.
  - apply rxGrammarAbbr_at_complete in Hat.
    change (EmptyString +:+ t) with t in Hs.
    destruct t as [|y t]; [discriminate Hat|].
    cbn [noAbbr] in Hs. by rewrite Hat in Hs.
  - change (String x a +:+ t) with (String x (a +:+ t)) in Hs.
    cbn [noAbbr] in Hs.
    destruct (rxGrammarAbbr_at (String x (a +:+ t))); [discriminate|].
    by apply (IH _ Hs t c k).
Qed.

Lemma replaceAbbr_free s : abbrFree s -> replaceAbbr O s = s.
Proof.
  induction s as [|x s IH]; intros Hf; [reflexivity|].
  cbn [replaceAbbr].
  destruct (rxGrammarAbbr_at (String x s)) as [[c k]|] eqn:E.
  - apply rxGrammarAbbr_at_sound in E. by destruct (Hf EmptyString _ c k eq_refl).
  - f_equal. apply IH. intros a t c k -> Hat.
    by apply (Hf (String x a) t c k).
Qed.

Lemma replaceAbbr_skip k : forall t,
  replaceAbbr (String.length k) (k +:+ t) = replaceAbbr O t.
Proof.
  induction k as [|x k IH]; intros t; [by destruct t|].
  change (String x k +:+ t) with (String x (k +:+ t)).
  cbn [String.length replaceAbbr]. apply IH.
Qed.

Lemma replaceAbbr_first a : forall c k d b,
  abbrAt c k (String c (k +:+ String d b)) ->
  abbrFreeBefore a (String c (k +:+ String d b)) ->
  replaceAbbr O (a +:+ String c (k +:+ String d b)) =
    a +:+ String c (default "undefined" (abbrGet ABBR_MAP k)) +:+
    replaceAbbr O (String d b).
Proof.
  induction a as [|x a IH]; intros c k d b Hat Hbefore.
  - change (EmptyString +:+ ?u) with u.
    apply rxGrammarAbbr_at_complete in Hat.
    change (replaceAbbr O (String c (k +:+ String d b)))
      with (match rxGrammarAbbr_at (String c (k +:+ String d b)) with
            | Some (c', str) =>
                unabbreviate c' str +:+
                replaceAbbr (String.length str) (k +:+ String d b)
            | None => String c (replaceAbbr O (k +:+ String d b))
            end).
    rewrite Hat, replaceAbbr_skip. reflexivity.
  - change (String x a +:+ ?u) with (String x (a +:+ u)).
    cbn [replaceAbbr].
    destruct (rxGrammarAbbr_at (String x (a +:+ String c (k +:+ String d b))))
      as [[c' k']|] eqn:E.
    + apply rxGrammarAbbr_at_sound in E.
      by destruct (Hbefore EmptyString (String x a) c' k' eq_refl).
    + f_equal. apply IH; [done|].
      intros a1 a2 c' k' -> Hne. by apply (Hbefore (String x a1) a2 c' k').
Qed.

Lemma postprocessText_with_lt s :
  contains "<" s -> postprocessText s = replaceAbbr O s.
Proof.
  intros (a & b & ->). unfold postprocessText. rewrite indexOf_0.
  change ("<" +:+ b) with (String "<" b).
  pose proof (findFirst_lt_found a b 0) as Hfound.
  destruct (0 <=? JS.findFirst "<" (a +:+ String "<" b) 0) eqn:E;
    [reflexivity|apply Z.leb_gt in E; lia].
Qed.

Lemma postprocessText_without_lt s :
  ~ contains "<" s -> postprocessText s = s.
Proof.
  intros Hno. unfold postprocessText.
  by rewrite indexOf_0, findFirst_lt_absent.
Qed.

(** C8. Post-processing expands abbreviations on matching substrings
    only.  A message text that contains [<int>] contains [<integer>]
    afterwards, and a text without [<] is returned unchanged.  A text with
    [<] is rewritten occurrence by occurrence: where no occurrence of the
    pattern starts (a hyphen or opening bracket, a name, then a character
    that is no word character) the text stays as it is, also when it has a
    [<]; at the first occurrence the text before it is kept, the name is
    replaced by its table entry after the same first character, and what
    follows the name is treated the same way.  No field but the text
    changes, and the messages of [verify] are the sorted messages after
    this step. *)
Theorem postprocess_expands_abbreviations rules parse text arg reuse h m :
  (contains "<int>" (m_message m) ->
   contains "<integer>" (m_message (postprocess m))) /\
  (~ contains "<" (m_message m) -> postprocess m = m) /\
  (abbrFree (m_message m) -> postprocess m = m) /\
  (contains "<" (m_message m) ->
   forall a c k d b,
     m_message m = a +:+ String c (k +:+ String d b) ->
     abbrAt c k (String c (k +:+ String d b)) ->
     abbrFreeBefore a (String c (k +:+ String d b)) ->
     m_message (postprocess m) =
       a +:+ String c (default "undefined" (abbrGet ABBR_MAP k)) +:+
       replaceAbbr O (String d b)) /\
  (forall s, abbrFree s -> replaceAbbr O s = s) /\
  (forall a c k d b,
     abbrAt c k (String c (k +:+ String d b)) ->
     abbrFreeBefore a (String c (k +:+ String d b)) ->
     replaceAbbr O (a +:+ String c (k +:+ String d b)) =
       a +:+ String c (default "undefined" (abbrGet ABBR_MAP k)) +:+
       replaceAbbr O (String d b)) /\
  (m_type (postprocess m), m_rollup (postprocess m),
   m_evidence (postprocess m), m_line (postprocess m),
   m_col (postprocess m), m_rule (postprocess m)) =
  (m_type m, m_rollup m, m_evidence m, m_line m, m_col m, m_rule m) /\
  verifyMessages rules parse text arg reuse h =
    List.map postprocess
      (jsSort compareMessages (messages (emitted rules parse text arg reuse h))).
Proof.
  assert (Hsame : postprocessText (m_message m) = m_message m ->
                  postprocess m = m).
  { intros Ht. unfold postprocess. rewrite Ht. by destruct m. }
  split; [|split; [|split; [|split; [|split; [|split; [|split]]]]]].
  - intros (a & b & Hm). cbn [postprocess m_message].
    rewrite postprocessText_with_lt
      by (exists a, ("int>" +:+ b); by rewrite Hm).
    rewrite Hm. change ("<int>" +:+ b) with (String "<" ("int>" +:+ b)).
    destruct (replaceAbbr_reach a ("int>" +:+ b) O) as (out & ->); [lia|].
    change (String "<" ("int>" +:+ b)) with ("<int>" +:+ b).
    rewrite replaceAbbr_int. by exists out, (replaceAbbr O b).
  - intros Hno. apply Hsame. by apply postprocessText_without_lt.
  - intros Hfree. apply Hsame.
    unfold postprocessText. destruct (0 <=? _); [|reflexivity].
    by apply replaceAbbr_free.
  - intros Hlt a c k d b Hm Hat Hbefore. cbn [postprocess m_message].
    rewrite postprocessText_with_lt by done. rewrite Hm.
    by apply replaceAbbr_first.
  - apply replaceAbbr_free.
  - intros a c k d b. apply replaceAbbr_first.
  - reflexivity.
  - apply verifyMessages_eq.
Qed.

Lemma postprocess_expands_abbreviations_witness :
  let msg t := mkMessage TWarning false None (Some 1) (Some 1) t None in
  contains "<integer>"
    (m_message (postprocess (msg "Expected <int> but found 'x'."))) /\
  postprocess (msg "Expected <integer> or <interval>.") =
    msg "Expected <integer> or <interval>." /\
  m_message (postprocess (msg "Expected <len>|<pct> here.")) =
    "Expected <length" +:+ replaceAbbr O ">|<pct> here.".
Proof.
  intros msg. split; [|split].
  - refine (proj1
      (postprocess_expands_abbreviations Sample.registry
         (Sample.emits [] None) EmptyString None false ∅
         (msg "Expected <int> but found 'x'.")) _).
    by exists "Expected ", " but found 'x'.".
  - refine (proj1 (proj2 (proj2
      (postprocess_expands_abbreviations Sample.registry
         (Sample.emits [] None) EmptyString None false ∅
         (msg "Expected <integer> or <interval>.")))) _).
    apply noAbbr_free. reflexivity.
  - refine (proj1 (proj2 (proj2 (proj2
      (postprocess_expands_abbreviations Sample.registry
         (Sample.emits [] None) EmptyString None false ∅
         (msg "Expected <len>|<pct> here."))))) _
      "Expected " "<"%char "len" ">"%char "|<pct> here." eq_refl _ _).
    + by exists "Expected ", "len>|<pct> here.".
    + split; [by right|]. split; [left; cbn; tauto|].
      by exists ">"%char, "|<pct> here.".
    + intros a1 a2 c k Ha Hne Hat.
      apply rxGrammarAbbr_at_complete in Hat.
      assert (Hall : forall n,
                (n < 9)%nat ->
                rxGrammarAbbr_at (JS.drop n "Expected <len>|<pct> here.") = None).
      { intros n Hn. do 9 (destruct n as [|n]; [reflexivity|]). lia. }
      assert (Hlen : (String.length a1 < 9)%nat).
      { assert (String.length "Expected " =
                (String.length a1 + String.length a2)%nat)
          by (by rewrite Ha, length_append).
        destruct a2; [done|]. cbn [String.length] in *. lia. }
      specialize (Hall _ Hlen).
      assert (Hdrop : JS.drop (String.length a1) "Expected <len>|<pct> here." =
                      a2 +:+ "<len>|<pct> here.").
      { change "Expected <len>|<pct> here."
          with ("Expected " +:+ "<len>|<pct> here.").
        rewrite Ha, append_assoc. clear.
        induction a1 as [|x a1 IH]; [reflexivity|exact IH]. }
      rewrite Hdrop in Hall.
      change (String "<" ("len" +:+ String ">" "|<pct> here."))
        with "<len>|<pct> here." in Hat.
      rewrite Hat in Hall. discriminate Hall.
Defined.

(** ** The caller's ruleset and its clone *)

Lemma fold_set_lookup (es : list (string * JsVal)) k :
  NoDup (List.map fst es) ->
  forall acc,
    obj_own (fold_left (fun o e => obj_set o (fst e) (snd e)) es acc) k =
      if String.eqb k "__proto__" then obj_own acc k
      else match obj_own es k with
           | Some v => Some v
           | None => obj_own acc k
           end.
Proof.
  induction es as [|[k1 v1] es IH]; intros Hnd acc.
  - cbn [fold_left obj_own]. by destruct (String.eqb k "__proto__").
  - cbn [List.map fst] in Hnd. apply NoDup_cons in Hnd as [Hk1 Hnd].
    cbn [fold_left fst snd]. rewrite (IH Hnd). cbn [obj_own].
    destruct (String.eqb_spec k "__proto__") as [Hp|Hp].
    + unfold obj_set. destruct (String.eqb_spec k1 "__proto__") as [Hk|Hk].
      * reflexivity.
      * rewrite obj_own_put_other; [reflexivity|congruence].
    + destruct (String.eqb_spec k1 k) as [->|Hne].
      * assert (Hnone : obj_own es k = None).
        { destruct (obj_own es k) as [v|] eqn:E; [|reflexivity].
          apply obj_own_In in E. exfalso. apply Hk1.
          apply list_elem_of_fmap. exists (k, v).
          split; [reflexivity|by apply list_elem_of_In]. }
        rewrite Hnone. by apply obj_own_set_same.
      * destruct (obj_own es k); [reflexivity|].
        apply obj_own_set_other. congruence.
Qed.

Lemma obj_own_perm (o o' : Obj) k :
  o ≡ₚ o' -> NoDup (List.map fst o) -> obj_own o k = obj_own o' k.
Proof.
  intros Hp Hnd.
  assert (Hnd' : NoDup (List.map fst o')) by by rewrite <- Hp.
  destruct (obj_own o k) as [v|] eqn:E.
  - apply obj_own_In in E. symmetry. apply obj_own_NoDup; [done|].
    apply list_elem_of_In. rewrite <- Hp. by apply list_elem_of_In.
  - destruct (obj_own o' k) as [v|] eqn:E'; [|reflexivity].
    apply obj_own_In in E'. rewrite <- E.
    apply obj_own_NoDup; [done|].
    apply list_elem_of_In. rewrite Hp. by apply list_elem_of_In.
Qed.

(** [Object.assign({}, o)] holds what [o] holds, but for [__proto__]. *)
Lemma assignFresh_lookup (o : Obj) k :
  NoDup (List.map fst o) ->
  obj_own (assignFresh o) k =
    if String.eqb k "__proto__" then None else obj_own o k.
Proof.
  intros Hnd. unfold assignFresh.
  assert (Hnd' : NoDup (List.map fst (entries o))) by by rewrite entries_perm.
  rewrite (fold_set_lookup _ k Hnd'). cbn [obj_own].
  destruct (String.eqb k "__proto__"); [reflexivity|].
  rewrite (obj_own_perm (entries o) o k (entries_perm o) Hnd').
  by destruct (obj_own o k).
Qed.

(** C10. When the probe finds nothing ([emi < 0]) [verify] writes
    [errors = 2] into the very object the caller passed, and allocates
    nothing.  When the probe matches, the caller's object is left as it
    was and the heap gains exactly one object, a clone: it starts with the
    entries of the caller's object (all but [__proto__]), takes the
    directives of the text, and then [errors = 2]. *)
Theorem verify_ruleset_aliasing rules parse text reuse (h : Store) l o :
  h !! l = Some o ->
  if probe text <? 0 then
    fst (verify rules parse text (Some l) reuse h) =
      <[l := obj_set o "errors" (JNum 2)]> h
  else
    let clone := assignFresh o in
    let scanned :=
      fst (fst (applyEmbeddedOverrides text (probe text) clone ∅ [])) in
    fst (verify rules parse text (Some l) reuse h) !! l = Some o /\
    h !! fresh (dom h) = None /\
    fst (verify rules parse text (Some l) reuse h) =
      <[fresh (dom h) := obj_set scanned "errors" (JNum 2)]> h /\
    (NoDup (List.map fst o) ->
     forall k, obj_own clone k =
               if String.eqb k "__proto__" then None else obj_own o k).
Proof.
  intros Hl. unfold verify, prepare, alloc.
  destruct (probe text <? 0) eqn:E.
  - apply Z.ltb_lt in E.
    destruct (0 <=? probe text) eqn:F; [apply Z.leb_le in F; lia|].
    simpl. unfold forceErrors, deref. by rewrite Hl.
  - apply Z.ltb_ge in E.
    destruct (0 <=? probe text) eqn:F; [|apply Z.leb_gt in F; lia].
    pose proof (fresh_not_allocated h l o Hl) as Hne.
    assert (Hd : deref h l = o) by (unfold deref; by rewrite Hl).
    assert (Hc : deref (<[fresh (dom h) := assignFresh (deref h l)]> h)
                   (fresh (dom h)) = assignFresh o).
    { unfold deref. by rewrite lookup_insert_eq, Hl. }
    rewrite Hc.
    destruct (applyEmbeddedOverrides text (probe text) (assignFresh o) ∅ [])
      as [[rs al] ig]. cbn [fst snd].
    unfold forceErrors, deref.
    rewrite lookup_insert_eq. cbn [default from_option]. unfold Datatypes.id.
    rewrite !insert_insert_eq.
    split; [|split; [|split]].
    + by rewrite lookup_insert_ne.
    + apply not_elem_of_dom. apply is_fresh.
    + reflexivity.
    + intros Hnd k. by apply assignFresh_lookup.
Qed.

Lemma verify_ruleset_aliasing_witness :
  let h : Store := {[ 7%nat := Sample.oneRuleset ]} in
  let parse := Sample.emits Sample.importantEvents None in
  fst (verify Sample.registry parse Sample.importantText (Some 7%nat) false h) =
    {[ 7%nat := [("floats", JNum 1); ("important", JNum 1);
                 ("errors", JNum 2)] ]} /\
  fst (verify Sample.registry parse Sample.floatsOff (Some 7%nat) false h)
    !! 7%nat = Some Sample.oneRuleset /\
  fst (verify Sample.registry parse Sample.floatsOff (Some 7%nat) false h)
    !! fresh (dom h) =
    Some [("floats", JNum 0); ("important", JNum 1); ("", JNum 1);
          ("errors", JNum 2)] /\
  obj_own (assignFresh Sample.oneRuleset) "important" = Some (JNum 1).
Proof.
  intros h parse.
  pose proof (verify_ruleset_aliasing Sample.registry parse
                Sample.importantText false h 7%nat Sample.oneRuleset) as H1.
  pose proof (verify_ruleset_aliasing Sample.registry parse
                Sample.floatsOff false h 7%nat Sample.oneRuleset) as H2.
  assert (E1 : (probe Sample.importantText <? 0) = true)
    by (vm_compute; reflexivity).
  assert (E2 : (probe Sample.floatsOff <? 0) = false)
    by (vm_compute; reflexivity).
  rewrite E1 in H1. rewrite E2 in H2.
  specialize (H1 eq_refl). specialize (H2 eq_refl).
  destruct H2 as (Hkeep & _ & Hheap & Hclone).
  split; [|split; [|split]].
  - rewrite H1. vm_compute. reflexivity.
  - exact Hkeep.
  - rewrite Hheap, lookup_insert_eq. vm_compute. reflexivity.
  - rewrite Hclone; [reflexivity|].
    apply (bool_decide_unpack _). vm_compute. exact I.
Defined.
